(** * PZLuaStubGen analyzer: scope resolution and dependency ordering

    A shallow embedding of [src/analyzer/analyzer.ts], [lua-block.ts] and
    [lua-file.ts].  JavaScript objects that are mutated in place (blocks,
    assignment records) live in per-file heaps addressed by index; [Set]s,
    which iterate in insertion order, are duplicate-free lists; a [Record]
    that is enumerated is an association list in insertion order, a
    [Record] that is only looked up is a [gmap].  Keys are taken not to
    collide with members of [Object.prototype]. *)

From Stdlib Require Import String Ascii List Arith Lia Permutation Relations Wellfounded.
From stdpp Require Import base option list strings gmap.
Import ListNotations.

Local Open Scope string_scope.
Local Open Scope list_scope.
Local Set Warnings "-register-all".

(** ** Strings *)

Module Str.

Fixpoint endsWith (s suffix : string) : bool :=
  if String.eqb s suffix then true
  else match s with
       | EmptyString => false
       | String _ s' => endsWith s' suffix
       end.

(** [s.slice(0, -n)] *)
Definition dropLast (n : nat) (s : string) : string :=
  String.substring 0 (String.length s - n) s.

(** [s.slice(n)] *)
Definition sliceFrom (n : nat) (s : string) : string :=
  String.substring n (String.length s - n) s.

(** [s.slice(1, -1)] *)
Definition strip1 (s : string) : string :=
  String.substring 1 (String.length s - 2) s.

Fixpoint mapChars (f : ascii -> ascii) (s : string) : string :=
  match s with
  | EmptyString => EmptyString
  | String c s' => String (f c) (mapChars f s')
  end.

(** [s.indexOf(c)], with [None] for -1 *)
Fixpoint indexOf (c : ascii) (s : string) : option nat :=
  match s with
  | EmptyString => None
  | String c' s' =>
      if Ascii.eqb c' c then Some 0
      else match indexOf c s' with
           | Some i => Some (S i)
           | None => None
           end
  end.

Definition upperChar (c : ascii) : ascii :=
  let n := nat_of_ascii c in
  if (Nat.leb 97 n && Nat.leb n 122)%nat then ascii_of_nat (n - 32)%nat else c.

(** [toLocaleUpperCase] on ASCII text *)
Definition toUpperCase (s : string) : string := mapChars upperChar s.

(** [a < b] on strings: lexicographic on code units *)
Definition ltb (a b : string) : bool :=
  match String.compare a b with
  | Lt => true
  | _ => false
  end.

End Str.

(** [Analyzer.getFileIdentifier]:
    [if (name.endsWith('.lua')) name = name.slice(0, -4)]
    [return name.replace(/[\\.]/g, '/')] *)
Definition sepChar (c : ascii) : ascii :=
  if Ascii.eqb c "\"%char || Ascii.eqb c "."%char then "/"%char else c.

Definition getFileIdentifier (name : string) : string :=
  let name := if Str.endsWith name ".lua" then Str.dropLast 4 name else name in
  Str.mapChars sepChar name.

(** ** Syntax trees (the node taxonomy of the parser) *)

Inductive Expression : Type :=
| Identifier (name : string)
| StringLiteral (value : option string) (raw : string)
| NumericLiteral (raw : string)
| BooleanLiteral (value : bool)
| NilLiteral
| VarargLiteral
| MemberExpression (base : Expression) (indexer : string) (identifier : string)
| IndexExpression (base : Expression) (index : Expression)
| CallExpression (base : Expression) (arguments : list Expression)
| TableCallExpression (base : Expression) (arguments : Expression)
| StringCallExpression (base : Expression) (argument : Expression)
| TableConstructorExpression (fields : list TableField)
| FunctionDeclaration (identifier : option Expression) (isLocal : bool)
    (parameters : list Expression) (body : list Statement)
| UnaryExpression (operator : string) (argument : Expression)
| BinaryExpression (operator : string) (left : Expression) (right : Expression)
| LogicalExpression (operator : string) (left : Expression) (right : Expression)
with TableField : Type :=
| TableKey (key : Expression) (value : Expression)
| TableKeyString (key : Expression) (value : Expression)
| TableValue (value : Expression)
with Statement : Type :=
| LocalStatement (variables : list Expression) (init : list Expression)
| AssignmentStatement (variables : list Expression) (init : list Expression)
| CallStatement (expression : Expression)
| ReturnStatement (arguments : list Expression)
| IfStatement (clauses : list Clause)
| FunctionStatement (identifier : option Expression) (isLocal : bool)
    (parameters : list Expression) (body : list Statement)
| DoStatement (body : list Statement)
| WhileStatement (condition : Expression) (body : list Statement)
| RepeatStatement (condition : Expression) (body : list Statement)
| ForNumericStatement (variable : Expression) (start : Expression)
    (stop : Expression) (step : option Expression) (body : list Statement)
| ForGenericStatement (variables : list Expression) (iterators : list Expression)
    (body : list Statement)
| BreakStatement
| LabelStatement (label : string)
| GotoStatement (label : string)
with Clause : Type :=
| IfClause (condition : Expression) (body : list Statement)
| ElseifClause (condition : Expression) (body : list Statement)
| ElseClause (body : list Statement).

(** [LuaBlockNode]: the nodes a scope can wrap. *)
Inductive LuaBlockNode : Type :=
| Chunk (body : list Statement)
| FunctionNode (identifier : option Expression) (isLocal : bool)
    (parameters : list Expression) (body : list Statement)
| ClauseNode (clause : Clause)
| ForNumericNode (variable : Expression) (start : Expression)
    (stop : Expression) (step : option Expression) (body : list Statement)
| ForGenericNode (variables : list Expression) (iterators : list Expression)
    (body : list Statement)
| WhileNode (condition : Expression) (body : list Statement)
| DoNode (body : list Statement)
| RepeatNode (condition : Expression) (body : list Statement).

Definition clauseBody (c : Clause) : list Statement :=
  match c with
  | IfClause _ b | ElseifClause _ b | ElseClause b => b
  end.

(** [node.body] *)
Definition nodeBody (n : LuaBlockNode) : list Statement :=
  match n with
  | Chunk b | FunctionNode _ _ _ b | ForNumericNode _ _ _ _ b
  | ForGenericNode _ _ b | WhileNode _ b | DoNode b | RepeatNode _ b => b
  | ClauseNode c => clauseBody c
  end.

(** ** Induction over the expressions the walk descends into *)

Section ExpressionInduction.

Variable P : Expression -> Prop.

Definition fieldP (fld : TableField) : Prop :=
  match fld with
  | TableKey k v => P k /\ P v
  | TableKeyString _ v | TableValue v => P v
  end.

Hypothesis P_Identifier : forall n, P (Identifier n).
Hypothesis P_StringLiteral : forall v r, P (StringLiteral v r).
Hypothesis P_NumericLiteral : forall r, P (NumericLiteral r).
Hypothesis P_BooleanLiteral : forall b, P (BooleanLiteral b).
Hypothesis P_NilLiteral : P NilLiteral.
Hypothesis P_VarargLiteral : P VarargLiteral.
Hypothesis P_Member : forall b i n, P b -> P (MemberExpression b i n).
Hypothesis P_Index : forall b i, P b -> P i -> P (IndexExpression b i).
Hypothesis P_Call : forall b args, P b -> Forall P args -> P (CallExpression b args).
Hypothesis P_TableCall : forall b a, P b -> P a -> P (TableCallExpression b a).
Hypothesis P_StringCall : forall b a, P b -> P a -> P (StringCallExpression b a).
Hypothesis P_Table : forall fields, Forall fieldP fields -> P (TableConstructorExpression fields).
Hypothesis P_Function : forall i l ps body, P (FunctionDeclaration i l ps body).
Hypothesis P_Unary : forall o a, P a -> P (UnaryExpression o a).
Hypothesis P_Binary : forall o l r, P l -> P r -> P (BinaryExpression o l r).
Hypothesis P_Logical : forall o l r, P l -> P r -> P (LogicalExpression o l r).

Fixpoint Expression_walk_ind (e : Expression) : P e :=
  match e with
  | Identifier n => P_Identifier n
  | StringLiteral v r => P_StringLiteral v r
  | NumericLiteral r => P_NumericLiteral r
  | BooleanLiteral b => P_BooleanLiteral b
  | NilLiteral => P_NilLiteral
  | VarargLiteral => P_VarargLiteral
  | MemberExpression b i n => P_Member b i n (Expression_walk_ind b)
  | IndexExpression b i => P_Index b i (Expression_walk_ind b) (Expression_walk_ind i)
  | CallExpression b args =>
      P_Call b args (Expression_walk_ind b)
        ((fix all (l : list Expression) : Forall P l :=
            match l with
            | [] => @List.Forall_nil _ P
            | x :: l' => @List.Forall_cons _ P x l' (Expression_walk_ind x) (all l')
            end) args)
  | TableCallExpression b a => P_TableCall b a (Expression_walk_ind b) (Expression_walk_ind a)
  | StringCallExpression b a => P_StringCall b a (Expression_walk_ind b) (Expression_walk_ind a)
  | TableConstructorExpression fields =>
      P_Table fields
        ((fix all (l : list TableField) : Forall fieldP l :=
            match l with
            | [] => @List.Forall_nil _ fieldP
            | x :: l' =>
                @List.Forall_cons _ fieldP x l'
                  (match x return fieldP x with
                   | TableKey k v => conj (Expression_walk_ind k) (Expression_walk_ind v)
                   | TableKeyString _ v => Expression_walk_ind v
                   | TableValue v => Expression_walk_ind v
                   end) (all l')
            end) fields)
  | FunctionDeclaration i l ps body => P_Function i l ps body
  | UnaryExpression o a => P_Unary o a (Expression_walk_ind a)
  | BinaryExpression o l r => P_Binary o l r (Expression_walk_ind l) (Expression_walk_ind r)
  | LogicalExpression o l r => P_Logical o l r (Expression_walk_ind l) (Expression_walk_ind r)
  end.

End ExpressionInduction.

(** ** Scope blocks, locals, assignment records, file units *)

Inductive AnalysisPass : Type := DependencyResolution | TypeResolution.

Inductive LuaGameSubdirectory : Type := Shared | Server | Client.

Inductive LuaAssignmentType : Type :=
| ATLocal | ATGlobal | ATLocalReassign | ATSetField
| ATParameter | ATGenericFor | ATNumericFor.

Record LuaAssignment : Type := mkAssignment {
  assignTypes : list LuaAssignmentType;
  lhs : list Expression;
  rhs : list (option Expression)
}.

(** [assignments] holds references into the file's heap of assignment
    records: one record object is shared by the element list and by the
    history of every local it touches. *)
Record LuaLocal : Type := mkLocal {
  local_name : string;
  local_assignments : list nat
}.

Inductive LuaElement : Type :=
| AssignmentElement (ref : nat)
| CallElement (expression : Expression) (arguments : list Expression)
| BlockElement (ref : nat).

Record LuaBlock : Type := mkBlock {
  node : LuaBlockNode;
  parent : option nat;
  children : list nat;
  locals : gmap string LuaLocal;
  elements : list LuaElement;
  returns : list Statement
}.

(** A [LuaFile] is the root block (slot 0 of [blocks]) with the blocks and
    assignment records created under it, and the three pass-1 sets. *)
Record LuaFile : Type := mkFile {
  name : string;
  subdirectory : LuaGameSubdirectory;
  globalsSet : list string;
  globalDependencies : list string;
  fileDependencies : list string;
  blocks : list LuaBlock;
  assignmentHeap : list LuaAssignment
}.

#[global] Instance AnalysisPass_eq_dec : EqDecision AnalysisPass.
Proof. solve_decision. Defined.

#[global] Instance LuaGameSubdirectory_eq_dec : EqDecision LuaGameSubdirectory.
Proof. solve_decision. Defined.

#[global] Instance LuaAssignmentType_eq_dec : EqDecision LuaAssignmentType.
Proof. solve_decision. Defined.

(** *** Insertion-ordered sets of strings ([Set<string>]) *)

Definition setHas (x : string) (s : list string) : bool := bool_decide (x ∈ s).

Definition setAdd (x : string) (s : list string) : list string :=
  if setHas x s then s else s ++ [x].

Definition setDelete (x : string) (s : list string) : list string :=
  filter (fun y => y ≠ x) s.

(** *** Field updates *)

Definition withParent (p : option nat) (b : LuaBlock) : LuaBlock :=
  mkBlock (node b) p (children b) (locals b) (elements b) (returns b).
Definition withChildren (c : list nat) (b : LuaBlock) : LuaBlock :=
  mkBlock (node b) (parent b) c (locals b) (elements b) (returns b).
Definition withLocals (l : gmap string LuaLocal) (b : LuaBlock) : LuaBlock :=
  mkBlock (node b) (parent b) (children b) l (elements b) (returns b).
Definition withElements (e : list LuaElement) (b : LuaBlock) : LuaBlock :=
  mkBlock (node b) (parent b) (children b) (locals b) e (returns b).
Definition withReturns (r : list Statement) (b : LuaBlock) : LuaBlock :=
  mkBlock (node b) (parent b) (children b) (locals b) (elements b) r.

Definition withGlobalsSet (s : list string) (f : LuaFile) : LuaFile :=
  mkFile (name f) (subdirectory f) s (globalDependencies f) (fileDependencies f)
    (blocks f) (assignmentHeap f).
Definition withGlobalDependencies (s : list string) (f : LuaFile) : LuaFile :=
  mkFile (name f) (subdirectory f) (globalsSet f) s (fileDependencies f)
    (blocks f) (assignmentHeap f).
Definition withFileDependencies (s : list string) (f : LuaFile) : LuaFile :=
  mkFile (name f) (subdirectory f) (globalsSet f) (globalDependencies f) s
    (blocks f) (assignmentHeap f).
Definition withBlocks (bs : list LuaBlock) (f : LuaFile) : LuaFile :=
  mkFile (name f) (subdirectory f) (globalsSet f) (globalDependencies f)
    (fileDependencies f) bs (assignmentHeap f).
Definition withAssignmentHeap (h : list LuaAssignment) (f : LuaFile) : LuaFile :=
  mkFile (name f) (subdirectory f) (globalsSet f) (globalDependencies f)
    (fileDependencies f) (blocks f) h.

(** Mutate the block at reference [i]. *)
Definition onBlock (i : nat) (g : LuaBlock -> LuaBlock) (f : LuaFile) : LuaFile :=
  withBlocks (alter g i (blocks f)) f.

(** Allocate a fresh assignment record; returns its reference. *)
Definition allocAssignment (a : LuaAssignment) (f : LuaFile) : nat * LuaFile :=
  (length (assignmentHeap f), withAssignmentHeap (assignmentHeap f ++ [a]) f).

(** [ident.name]; a node without that field yields the key [undefined]. *)
Definition identName (e : Expression) : string :=
  match e with
  | Identifier n => n
  | _ => "undefined"
  end.

Definition isIdentifier (e : Expression) : bool :=
  match e with Identifier _ => true | _ => false end.

(** ** [LuaFile] methods ([lua-file.ts]) *)

Definition addFileDependency (pass : AnalysisPass) (name : string) (f : LuaFile) : LuaFile :=
  match pass with
  | DependencyResolution => withFileDependencies (setAdd name (fileDependencies f)) f
  | TypeResolution => f
  end.

Definition addGlobalDependency (pass : AnalysisPass) (name : string) (f : LuaFile) : LuaFile :=
  match pass with
  | DependencyResolution => withGlobalDependencies (setAdd name (globalDependencies f)) f
  | TypeResolution => f
  end.

Definition addGlobalSet (pass : AnalysisPass) (name : string) (f : LuaFile) : LuaFile :=
  match pass with
  | DependencyResolution => withGlobalsSet (setAdd name (globalsSet f)) f
  | TypeResolution => f
  end.

(** [for (const dep of this.globalsSet) this.globalDependencies.delete(dep)] *)
Definition dropOwnGlobals (f : LuaFile) : LuaFile :=
  withGlobalDependencies
    (fold_left (fun deps dep => setDelete dep deps) (globalsSet f) (globalDependencies f)) f.

Definition clearBlock (b : LuaBlock) : LuaBlock :=
  mkBlock (node b) None [] ∅ [] [].

(** [LuaFile.cleanup]: the root block is slot 0. *)
Definition cleanup (f : LuaFile) : LuaFile :=
  onBlock 0 clearBlock (dropOwnGlobals f).

(** [LuaFile.finalize], the earlier form of [cleanup]. *)
Definition finalize (f : LuaFile) : LuaFile := dropOwnGlobals f.

(** [new LuaFile(tree, subdir, name, analyzer)] *)
Definition newLuaFile (tree : list Statement) (subdir : LuaGameSubdirectory)
    (name : string) : LuaFile :=
  mkFile name subdir [] [] [] [mkBlock (Chunk tree) None [] ∅ [] []] [].

(** ** [LuaBlock] methods ([lua-block.ts]) *)

Definition getBody (this : nat) (f : LuaFile) : list Statement :=
  match blocks f !! this with
  | Some b => nodeBody (node b)
  | None => []
  end.

(** [getLocal]: walk the parent chain, innermost first.  The result names
    the block that owns the local: the block and the key are the reference
    through which the local's history is updated. *)
Fixpoint getLocalFrom (fuel : nat) (bs : list LuaBlock) (cur : option nat)
    (name : string) : option (nat * LuaLocal) :=
  match fuel, cur with
  | S fuel', Some i =>
      match bs !! i with
      | Some b =>
          match locals b !! name with
          | Some l => Some (i, l)
          | None => getLocalFrom fuel' bs (parent b) name
          end
      | None => None
      end
  | _, _ => None
  end.

Definition getLocal (this : nat) (name : string) (f : LuaFile) : option (nat * LuaLocal) :=
  getLocalFrom (S (length (blocks f))) (blocks f) (Some this) name.

(** [getTopAncestor]: [None] from the loop stands for [ancestor]
    undefined, so that the result is [ancestor ?? this]. *)
Fixpoint topAncestorFrom (fuel : nat) (bs : list LuaBlock) (cur : nat) : option nat :=
  match fuel with
  | S fuel' =>
      match bs !! cur ≫= parent with
      | Some ancestor =>
          match bs !! ancestor ≫= parent with
          | Some _ => topAncestorFrom fuel' bs ancestor
          | None => Some ancestor
          end
      | None => None
      end
  | 0 => None
  end.

Definition getTopAncestor (this : nat) (f : LuaFile) : nat :=
  default this (topAncestorFrom (S (length (blocks f))) (blocks f) this).

Definition pushElement (e : LuaElement) (b : LuaBlock) : LuaBlock :=
  withElements (elements b ++ [e]) b.

Definition setLocal (l : LuaLocal) (b : LuaBlock) : LuaBlock :=
  withLocals (<[local_name l := l]> (locals b)) b.

(** [local.assignments.push(assignment)] for the local [key] owned by block
    [owner]. *)
Definition pushLocalAssignment (owner : nat) (key : string) (a : nat) (f : LuaFile) : LuaFile :=
  onBlock owner
    (fun b => withLocals
       (alter (fun l => mkLocal (local_name l) (local_assignments l ++ [a])) key (locals b)) b)
    f.

(** [assignment.assignTypes[i] = t] and [assignment.assignTypes = ts] *)
Definition setAssignType (a i : nat) (t : LuaAssignmentType) (f : LuaFile) : LuaFile :=
  withAssignmentHeap
    (alter (fun r => mkAssignment (<[i := t]> (assignTypes r)) (lhs r) (rhs r)) a
       (assignmentHeap f)) f.

Definition setAssignTypes (a : nat) (ts : list LuaAssignmentType) (f : LuaFile) : LuaFile :=
  withAssignmentHeap
    (alter (fun r => mkAssignment ts (lhs r) (rhs r)) a (assignmentHeap f)) f.

Definition addChild (this child : nat) (f : LuaFile) : LuaFile :=
  let f := onBlock child (withParent (Some this)) f in
  let f := onBlock this (fun b => withChildren (children b ++ [child]) b) f in
  onBlock this (pushElement (BlockElement child)) f.

Definition isVararg (e : Expression) : bool :=
  match e with VarargLiteral => true | _ => false end.

(** [for (const ident of expr) this.locals[ident.name] = { name, assignments: [assignment] }] *)
Definition bindAll (this a : nat) (expr : list Expression) (f : LuaFile) : LuaFile :=
  fold_left (fun f ident => onBlock this (setLocal (mkLocal (identName ident) [a])) f) expr f.

Definition addBlockLocals (this : nat) (expressions : list Expression)
    (rhs : list (option Expression)) (type : LuaAssignmentType) (addSelf : bool)
    (f : LuaFile) : LuaFile :=
  let expr := (if addSelf then [Identifier "self"] else [])
              ++ filter (fun p => isVararg p = false) expressions in
  let '(a, f) := allocAssignment (mkAssignment (map (fun _ => type) expr) expr rhs) f in
  let f := bindAll this a expr f in
  onBlock this (pushElement (AssignmentElement a)) f.

Definition addLocalAssignment (pass : AnalysisPass) (this : nat) (lhs : list Expression)
    (rhs : list (option Expression)) (existingLocal : option (nat * string))
    (f : LuaFile) : LuaFile :=
  match pass, lhs with
  | DependencyResolution, ident :: _ =>
      (* the [return] sits inside the loop body *)
      onBlock this (setLocal (mkLocal (identName ident) [])) f
  | _, _ =>
      let '(a, f) := allocAssignment (mkAssignment (map (fun _ => ATLocal) lhs) lhs rhs) f in
      let f :=
        match existingLocal with
        | Some (owner, key) =>
            if bool_decide (length lhs = 1) && bool_decide (length rhs = 1) then
              pushLocalAssignment owner key a (setAssignTypes a [ATLocalReassign] f)
            else bindAll this a lhs f
        | None => bindAll this a lhs f
        end in
      onBlock this (pushElement (AssignmentElement a)) f
  end.

(** The loop of [addAssignment] over [lhs.entries()], from index [i]. *)
Fixpoint classifyTargets (pass : AnalysisPass) (this file a i : nat)
    (targets : list Expression) (f : LuaFile) : LuaFile :=
  match targets with
  | [] => f
  | target :: rest =>
      let f :=
        match target with
        | Identifier name =>
            match getLocal this name f with
            | Some (owner, _) =>
                let f := setAssignType a i ATLocalReassign f in
                match pass with
                | DependencyResolution => f
                | TypeResolution => pushLocalAssignment owner name a f
                end
            | None =>
                (* [file.addGlobalSet]: only the root, slot 0, is a [LuaFile] *)
                if bool_decide (file = 0) then addGlobalSet pass name f else f
            end
        | _ => setAssignType a i ATSetField f
        end in
      classifyTargets pass this file a (S i) rest f
  end.

Definition addAssignment (pass : AnalysisPass) (this : nat) (lhs : list Expression)
    (rhs : list (option Expression)) (f : LuaFile) : LuaFile :=
  let '(a, f) := allocAssignment (mkAssignment (map (fun _ => ATGlobal) lhs) lhs rhs) f in
  let file := getTopAncestor this f in
  let f := classifyTargets pass this file a 0 lhs f in
  match pass with
  | DependencyResolution => f
  | TypeResolution => onBlock this (pushElement (AssignmentElement a)) f
  end.

Definition addCall (pass : AnalysisPass) (this : nat) (base : Expression)
    (arguments : list Expression) (f : LuaFile) : LuaFile :=
  match pass with
  | DependencyResolution => f
  | TypeResolution => onBlock this (pushElement (CallElement base arguments)) f
  end.

Definition addReturn (pass : AnalysisPass) (this : nat) (statement : Statement)
    (f : LuaFile) : LuaFile :=
  match pass with
  | DependencyResolution => f
  | TypeResolution => onBlock this (fun b => withReturns (returns b ++ [statement]) b) f
  end.

(** ** The walk ([analyzer.ts]) *)

(** [stack] is [Analyzer.stack] (top first), [cur] is [Analyzer.curFileBlock];
    every block reference points into [cur]. *)
Record Walk : Type := mkWalk {
  stack : list nat;
  cur : LuaFile
}.

Definition onCur (g : LuaFile -> LuaFile) (w : Walk) : Walk :=
  mkWalk (stack w) (g (cur w)).

(** JavaScript truthiness of a string *)
Definition truthy (s : string) : bool := negb (String.eqb s "").

(** [tryReadRequire]; [arguments.at(1)] is the element at index 1. *)
Definition tryReadRequire (pass : AnalysisPass) (expression : Expression)
    (f : LuaFile) : bool * LuaFile :=
  let found (arg : option Expression) :=
    match arg with
    | Some (StringLiteral value raw) =>
        let requireName :=
          match value with
          | Some v => if truthy v then Some v
                      else if truthy raw then Some (Str.strip1 raw) else None
          | None => if truthy raw then Some (Str.strip1 raw) else None
          end in
        match requireName with
        | Some n =>
            if truthy n then (true, addFileDependency pass (getFileIdentifier n) f)
            else (false, f)
        | None => (false, f)
        end
    | _ => (false, f)
    end in
  match expression with
  | StringCallExpression (Identifier callee) argument =>
      if String.eqb callee "require" then found (Some argument) else (false, f)
  | CallExpression (Identifier callee) arguments =>
      if String.eqb callee "require" then found (arguments !! 1) else (false, f)
  | _ => (false, f)
  end.

Definition memberTarget (identifier : option Expression) : bool :=
  match identifier with
  | Some (MemberExpression _ _ _) => true
  | _ => false
  end.

(** [new LuaBlock(node, analyzer, parent)] for a nested scope: the block is
    created without a parent link, which [addChild] sets last. *)
Definition newLuaBlock (pass : AnalysisPass) (nd : LuaBlockNode) (parent : nat)
    (f : LuaFile) : nat * LuaFile :=
  let this := length (blocks f) in
  let f := withBlocks (blocks f ++ [mkBlock nd None [] ∅ [] []]) f in
  let f :=
    match nd with
    | FunctionNode identifier isLocal parameters body =>
        let f := addBlockLocals this parameters [] ATParameter (memberTarget identifier) f in
        match isLocal, identifier with
        | true, Some (Identifier fname) =>
            addLocalAssignment pass parent [Identifier fname]
              [Some (FunctionDeclaration identifier isLocal parameters body)]
              ((fun found => (found.1, fname)) <$> getLocal this fname f) f
        | _, _ => f
        end
    | ForGenericNode variables iterators _ =>
        addBlockLocals this variables (map Some iterators) ATGenericFor false f
    | ForNumericNode variable start stop step _ =>
        addBlockLocals this [variable] [Some start; Some stop; step] ATNumericFor false f
    | _ => f
    end in
  (this, addChild parent this f).

Definition pushBlock (pass : AnalysisPass) (nd : LuaBlockNode) (parent : nat) (w : Walk) : Walk :=
  let '(b, f) := newLuaBlock pass nd parent (cur w) in
  mkWalk (b :: stack w) f.

Fixpoint readExpression (pass : AnalysisPass) (expression : Expression) (block : nat)
    (w : Walk) {struct expression} : Walk :=
  match expression with
  | Identifier name =>
      match getLocal block name (cur w) with
      | Some _ => w
      | None => onCur (addGlobalDependency pass name) w
      end
  | MemberExpression base _ _ => readExpression pass base block w
  | IndexExpression base index =>
      readExpression pass index block (readExpression pass base block w)
  | CallExpression base arguments =>
      match tryReadRequire pass expression (cur w) with
      | (true, f) => mkWalk (stack w) f
      | (false, _) =>
          let w := readExpression pass base block w in
          let w := fold_left (fun w arg => readExpression pass arg block w) arguments w in
          onCur (addCall pass block base arguments) w
      end
  | TableCallExpression base arguments =>
      readExpression pass arguments block (readExpression pass base block w)
  | StringCallExpression base argument =>
      match tryReadRequire pass expression (cur w) with
      | (true, f) => mkWalk (stack w) f
      | (false, _) =>
          readExpression pass argument block (readExpression pass base block w)
      end
  | TableConstructorExpression fields =>
      fold_left
        (fun w field =>
           match field with
           | TableKey key value =>
               readExpression pass key block (readExpression pass value block w)
           | TableKeyString _ value | TableValue value =>
               readExpression pass value block w
           end) fields w
  | FunctionDeclaration identifier isLocal parameters body =>
      pushBlock pass (FunctionNode identifier isLocal parameters body) block w
  | UnaryExpression _ argument => readExpression pass argument block w
  | BinaryExpression _ l r | LogicalExpression _ l r =>
      readExpression pass r block (readExpression pass l block w)
  | _ => w
  end.

(** [variable.base] of a member or index target *)
Definition targetBase (variable : Expression) : option Expression :=
  match variable with
  | MemberExpression base _ _ | IndexExpression base _ => Some base
  | _ => None
  end.

(** [prepareAssignment]: returns [lhs], [rhs] and the walk after the reads. *)
Definition prepareAssignment (pass : AnalysisPass) (variables init : list Expression)
    (block : nat) (w : Walk) : list Expression * list (option Expression) * Walk :=
  let rhs := imap (fun i _ => init !! i) variables in
  let w :=
    fold_left
      (fun w r => match r with
                  | Some e => readExpression pass e block w
                  | None => w
                  end) rhs w in
  let w :=
    fold_left
      (fun w variable =>
         if isIdentifier variable then w
         else match targetBase variable with
              | Some base => readExpression pass base block w
              | None => w
              end) variables w in
  (variables, rhs, w).

Definition readLocalStatement (pass : AnalysisPass) (variables init : list Expression)
    (block : nat) (w : Walk) : Walk :=
  let '(lhs, rhs, w) := prepareAssignment pass variables init block w in
  onCur (addLocalAssignment pass block lhs rhs None) w.

Definition readAssignStatement (pass : AnalysisPass) (variables init : list Expression)
    (block : nat) (w : Walk) : Walk :=
  let '(lhs, rhs, w) := prepareAssignment pass variables init block w in
  onCur (addAssignment pass block lhs rhs) w.

(** One iteration of [for (const statement of block.getBody())]. *)
Definition readStatement (pass : AnalysisPass) (statement : Statement) (block : nat)
    (w : Walk) : Walk :=
  match statement with
  | LocalStatement variables init => readLocalStatement pass variables init block w
  | AssignmentStatement variables init => readAssignStatement pass variables init block w
  | CallStatement expression => readExpression pass expression block w
  | ReturnStatement arguments =>
      let w := fold_left (fun w arg => readExpression pass arg block w) arguments w in
      onCur (addReturn pass block statement) w
  | IfStatement clauses =>
      fold_left (fun w clause => pushBlock pass (ClauseNode clause) block w) clauses w
  | FunctionStatement identifier isLocal parameters body =>
      pushBlock pass (FunctionNode identifier isLocal parameters body) block w
  | DoStatement body => pushBlock pass (DoNode body) block w
  | WhileStatement condition body => pushBlock pass (WhileNode condition body) block w
  | RepeatStatement condition body => pushBlock pass (RepeatNode condition body) block w
  | ForNumericStatement variable start stop step body =>
      pushBlock pass (ForNumericNode variable start stop step body) block w
  | ForGenericStatement variables iterators body =>
      let w := fold_left (fun w iter => readExpression pass iter block w) iterators w in
      pushBlock pass (ForGenericNode variables iterators body) block w
  | BreakStatement | LabelStatement _ | GotoStatement _ => w
  end.

Definition readBody (pass : AnalysisPass) (block : nat) (w : Walk) : Walk :=
  fold_left (fun w statement => readStatement pass statement block w)
    (getBody block (cur w)) w.

(** [while (this.stack.length > 0) { const block = this.stack.pop()! ... }] *)
Fixpoint processLoop (pass : AnalysisPass) (fuel : nat) (w : Walk) : option LuaFile :=
  match stack w with
  | [] => Some (cur w)
  | block :: rest =>
      match fuel with
      | 0 => None
      | S fuel' => processLoop pass fuel' (readBody pass block (mkWalk rest (cur w)))
      end
  end.

(** The number of scope-introducing nodes in a tree bounds the number of
    blocks the walk can push, hence the iterations of [processLoop]. *)
Fixpoint scopesE (e : Expression) : nat :=
  match e with
  | MemberExpression b _ _ => scopesE b
  | IndexExpression b i => scopesE b + scopesE i
  | CallExpression b args => scopesE b + sum_list (map scopesE args)
  | TableCallExpression b a | StringCallExpression b a => scopesE b + scopesE a
  | TableConstructorExpression fields => sum_list (map scopesF fields)
  | FunctionDeclaration _ _ _ body => S (sum_list (map scopesS body))
  | UnaryExpression _ a => scopesE a
  | BinaryExpression _ l r | LogicalExpression _ l r => scopesE l + scopesE r
  | _ => 0
  end
with scopesF (fld : TableField) : nat :=
  match fld with
  | TableKey k v => scopesE k + scopesE v
  | TableKeyString _ v | TableValue v => scopesE v
  end
with scopesS (s : Statement) : nat :=
  match s with
  | LocalStatement vs init | AssignmentStatement vs init =>
      sum_list (map scopesE vs) + sum_list (map scopesE init)
  | CallStatement e => scopesE e
  | ReturnStatement args => sum_list (map scopesE args)
  | IfStatement clauses => sum_list (map scopesC clauses)
  | FunctionStatement _ _ _ body | DoStatement body | WhileStatement _ body
  | RepeatStatement _ body | ForNumericStatement _ _ _ _ body =>
      S (sum_list (map scopesS body))
  | ForGenericStatement _ iters body =>
      sum_list (map scopesE iters) + S (sum_list (map scopesS body))
  | BreakStatement | LabelStatement _ | GotoStatement _ => 0
  end
with scopesC (c : Clause) : nat :=
  match c with
  | IfClause _ body | ElseifClause _ body | ElseClause body =>
      S (sum_list (map scopesS body))
  end.

Definition scopesBody (body : list Statement) : nat := sum_list (map scopesS body).

(** [processFile]: seed the stack with the file and run the loop. *)
Definition processFile (pass : AnalysisPass) (file : LuaFile) : option LuaFile :=
  processLoop pass (S (scopesBody (getBody 0 file))) (mkWalk [0] file).

(** ** Reading the input tree *)

(** What reading and parsing one file yields; the parser and the file
    system are external, so their outcome is data. *)
Inductive FileContent : Type :=
| Unreadable (e : string)
| Unparsable (e : string)
| Parsed (tree : list Statement).

(** A directory lists its entries; [scanError] is an exception raised by
    [opendir] (then no entry is listed) or by the iteration (after the
    listed entries). *)
Inductive DirEntry : Type :=
| FileEntry (name : string) (content : FileContent)
| DirectoryEntry (name : string) (dir : Directory)
| OtherEntry (name : string)
with Directory : Type :=
| Dir (entries : list DirEntry) (scanError : option string).

Inductive Diagnostic : Type :=
| ScanFailed (dirPath : string) (e : string)
| ReadFailed (filePath : string) (e : string)
| AnalyzeFailed (filePath : string) (e : string).

(** [LuaFileRecord]: enumerated with [Object.keys], so insertion-ordered. *)
Definition LuaFileRecord : Type := list (string * LuaFile).

Fixpoint recGet (name : string) (rec : LuaFileRecord) : option LuaFile :=
  match rec with
  | [] => None
  | (k, v) :: rec' => if String.eqb k name then Some v else recGet name rec'
  end.

(** [rec[name] = file]: an existing key keeps its position. *)
Fixpoint recSet (name : string) (file : LuaFile) (rec : LuaFileRecord) : LuaFileRecord :=
  match rec with
  | [] => [(name, file)]
  | (k, v) :: rec' =>
      if String.eqb k name then (k, file) :: rec' else (k, v) :: recSet name file rec'
  end.

Definition recKeys (rec : LuaFileRecord) : list string := map fst rec.

Record Analyzer : Type := mkAnalyzer {
  pass : AnalysisPass;
  errors : list Diagnostic;
  globalSetters : gmap string (list string);
  fileAliases : gmap string (list string)
}.

Definition newAnalyzer : Analyzer := mkAnalyzer DependencyResolution [] ∅ ∅.

Definition pushError (d : Diagnostic) (an : Analyzer) : Analyzer :=
  mkAnalyzer (pass an) (errors an ++ [d]) (globalSetters an) (fileAliases an).

Definition startPass (p : AnalysisPass) (an : Analyzer) : Analyzer :=
  mkAnalyzer p (errors an) ∅ (fileAliases an).

(** [table[key].add(value)], creating the set when absent *)
Definition tableAdd (key value : string) (table : gmap string (list string))
    : gmap string (list string) :=
  <[key := setAdd value (default [] (table !! key))]> table.

Definition recordSetters (name : string) (globals : list string) (an : Analyzer) : Analyzer :=
  mkAnalyzer (pass an) (errors an)
    (fold_left (fun t x => tableAdd x name t) globals (globalSetters an))
    (fileAliases an).

Definition readFile (filePath : string) (content : FileContent)
    (subdir : LuaGameSubdirectory) (name : string) (an : Analyzer)
    : option LuaFile * Analyzer :=
  match content with
  | Unreadable e => (None, pushError (ReadFailed filePath e) an)
  | Unparsable e => (None, pushError (AnalyzeFailed filePath e) an)
  | Parsed tree =>
      match processFile (pass an) (newLuaFile tree subdir name) with
      | Some file =>
          let file := cleanup file in
          (Some file, recordSetters name (globalsSet file) an)
      | None => (None, an)
      end
  end.

(** The alias loop of [readDirectory]: every proper suffix of [name] that
    starts after a slash becomes an alias of [name]. *)
Fixpoint addAliases (fuel : nat) (name partialName : string)
    (aliases : gmap string (list string)) : gmap string (list string) :=
  match fuel, Str.indexOf "/" partialName with
  | S fuel', Some slash =>
      let partialName := Str.sliceFrom (S slash) partialName in
      addAliases fuel' name partialName (tableAdd partialName name aliases)
  | _, _ => aliases
  end.

Definition registerAliases (name : string) (an : Analyzer) : Analyzer :=
  mkAnalyzer (pass an) (errors an) (globalSetters an)
    (addAliases (String.length name) name name (fileAliases an)).

(** [path.join(dirPath, name)], relative to the group's start directory *)
Definition pathJoin (dirPath name : string) : string :=
  if String.eqb dirPath "" then name else dirPath ++ "/" ++ name.

(** [path.extname(childPath) === '.lua'] *)
Definition isLuaFile (name : string) : bool :=
  Str.endsWith name ".lua" && negb (String.eqb name ".lua").

(** State of one [readDirectory] call: the stack of pending directories
    (top first), the group's file map, the analyzer. *)
Record Scan : Type := mkScan {
  pending : list (string * Directory);
  fileMap : LuaFileRecord;
  analyzer : Analyzer
}.

(** The body of [for await (const fileOrDirectory of dir)]. *)
Definition readEntry (subdir : LuaGameSubdirectory) (dirPath : string)
    (entry : DirEntry) (s : Scan) : Scan :=
  match entry with
  | DirectoryEntry n d => mkScan ((pathJoin dirPath n, d) :: pending s) (fileMap s) (analyzer s)
  | FileEntry n content =>
      if isLuaFile n then
        let childPath := pathJoin dirPath n in
        let name := getFileIdentifier childPath in
        match readFile childPath content subdir name (analyzer s) with
        | (Some block, an) =>
            mkScan (pending s) (recSet name block (fileMap s)) (registerAliases name an)
        | (None, an) => mkScan (pending s) (fileMap s) an
        end
      else s
  | OtherEntry _ => s
  end.

Definition scanDirectory (subdir : LuaGameSubdirectory) (dirPath : string)
    (d : Directory) (s : Scan) : Scan :=
  match d with
  | Dir entries scanError =>
      let s := fold_left (fun s entry => readEntry subdir dirPath entry s) entries s in
      match scanError with
      | Some e => mkScan (pending s) (fileMap s) (pushError (ScanFailed dirPath e) (analyzer s))
      | None => s
      end
  end.

(** [while (stack.length > 0) { const dirPath = stack.pop()! ... }] *)
Fixpoint readDirectoryLoop (subdir : LuaGameSubdirectory) (fuel : nat) (s : Scan)
    : option (LuaFileRecord * Analyzer) :=
  match pending s with
  | [] => Some (fileMap s, analyzer s)
  | (dirPath, d) :: rest =>
      match fuel with
      | 0 => None
      | S fuel' =>
          readDirectoryLoop subdir fuel'
            (scanDirectory subdir dirPath d (mkScan rest (fileMap s) (analyzer s)))
      end
  end.

Fixpoint dirCount (d : Directory) : nat :=
  match d with
  | Dir entries _ => S (sum_list (map entryDirs entries))
  end
with entryDirs (e : DirEntry) : nat :=
  match e with
  | DirectoryEntry _ d => dirCount d
  | _ => 0
  end.

Definition readDirectory (subdir : LuaGameSubdirectory) (root : Directory)
    (fileMap : LuaFileRecord) (an : Analyzer) : option (LuaFileRecord * Analyzer) :=
  readDirectoryLoop subdir (dirCount root) (mkScan [("", root)] fileMap an).

(** ** Pass 1: dependency resolution *)

Definition gameFileDirectories : list LuaGameSubdirectory := [Shared; Server; Client].

(** [files: Record<LuaGameSubdirectory, LuaFileRecord>] *)
Definition Files : Type := LuaGameSubdirectory -> LuaFileRecord.

Definition noFiles : Files := fun _ => [].

Definition setGroup (subdir : LuaGameSubdirectory) (rec : LuaFileRecord) (files : Files) : Files :=
  fun sd => if bool_decide (sd = subdir) then rec else files sd.

(** The input directory: one tree per load-order group. *)
Definition Input : Type := LuaGameSubdirectory -> Directory.

Fixpoint readGroups (input : Input) (subdirs : list LuaGameSubdirectory)
    (files : Files) (an : Analyzer) : option (Files * Analyzer) :=
  match subdirs with
  | [] => Some (files, an)
  | subdir :: rest =>
      match readDirectory subdir (input subdir) (files subdir) an with
      | Some (rec, an) => readGroups input rest (setGroup subdir rec files) an
      | None => None
      end
  end.

(** "read all files" *)
Definition readAllFiles (input : Input) : option (Files * Analyzer) :=
  readGroups input gameFileDirectories noFiles (startPass DependencyResolution newAnalyzer).

Fixpoint getFileIn (subdirs : list LuaGameSubdirectory) (files : Files) (name : string)
    : option LuaFile :=
  match subdirs with
  | [] => None
  | subdir :: rest =>
      match recGet name (files subdir) with
      | Some file => Some file
      | None => getFileIn rest files name
      end
  end.

Definition getFile (files : Files) (name : string) : option LuaFile :=
  getFileIn gameFileDirectories files name.

(** [const [first] = aliasSet] *)
Definition getDependencyIdentifier (files : Files) (aliases : gmap string (list string))
    (name : string) : option string :=
  match getFile files name with
  | Some _ => Some name
  | None =>
      match aliases !! name with
      | Some aliasSet => head aliasSet
      | None => None
      end
  end.

(** The loose dependencies of one file: the first setter of every global it
    reads that has a setter. *)
Definition looseDepsOf (setters : gmap string (list string)) (file : LuaFile) : list string :=
  fold_left
    (fun acc x =>
       match setters !! x with
       | Some (setter :: _) => setAdd setter acc
       | _ => acc
       end) (globalDependencies file) [].

(** "modify dependencies": fills [looseDeps] and clears every file's
    [globalDependencies]. *)
Definition looseDepsOfGroup (setters : gmap string (list string)) (rec : LuaFileRecord)
    (looseDeps : gmap string (list string)) : gmap string (list string) :=
  fold_left (fun acc '(name, file) => <[name := looseDepsOf setters file]> acc) rec looseDeps.

Definition computeLooseDeps (setters : gmap string (list string)) (files : Files)
    : gmap string (list string) :=
  fold_left (fun acc subdir => looseDepsOfGroup setters (files subdir) acc)
    gameFileDirectories ∅.

Definition clearGlobalDependencies (files : Files) : Files :=
  fun subdir => map (fun '(name, file) => (name, withGlobalDependencies [] file)) (files subdir).

(** [keys.sort((a, b) => a.toLocaleUpperCase() < b.toLocaleUpperCase() ? 1 : -1)]:
    descending by upper-cased name.  For names equal up to case the
    comparator answers -1 both ways and the engine's order is unspecified;
    nothing below depends on more than the result being a permutation. *)
Fixpoint insertKey (a : string) (sorted : list string) : list string :=
  match sorted with
  | [] => [a]
  | b :: rest =>
      if Str.ltb (Str.toUpperCase a) (Str.toUpperCase b) then b :: insertKey a rest
      else a :: b :: rest
  end.

Definition sortKeys (keys : list string) : list string :=
  fold_right insertKey [] keys.

(** State of the ordering loop.  [keys] is the sorted array seen as a stack
    with its top (the array's last element) first. *)
Record Ordering : Type := mkOrdering {
  keys : list string;
  deque : list string;
  seen : list string;
  analysisOrder : list string
}.

(** [const nextKey = keys.pop(); if (nextKey) deque.push(nextKey)] *)
Definition advance (ks dq : list string) : list string * list string :=
  match ks with
  | [] => ([], dq)
  | nextKey :: ks' => (ks', if truthy nextKey then dq ++ [nextKey] else dq)
  end.

Definition pendingHard (files : Files) (aliases : gmap string (list string))
    (order : list string) (file : LuaFile) : list string :=
  omap (fun dep =>
          match getDependencyIdentifier files aliases dep with
          | Some depName =>
              if truthy depName && negb (setHas depName order) then Some depName else None
          | None => None
          end) (fileDependencies file).

Definition pendingLoose (files : Files) (aliases : gmap string (list string))
    (seen order : list string) (loose : list string) : list string :=
  omap (fun dep =>
          match getDependencyIdentifier files aliases dep with
          | Some depName =>
              if negb (truthy depName) || setHas depName seen || setHas depName order
              then None else Some depName
          | None => None
          end) loose.

(** One iteration of [while (deque.length > 0)], for a deque [key :: rest]. *)
Definition orderStep (files : Files) (aliases looseDeps : gmap string (list string))
    (key : string) (rest : list string) (o : Ordering) : Ordering :=
  let seen := setAdd key (seen o) in
  let file := if setHas key (analysisOrder o) then None else getFile files key in
  match file with
  | None =>
      let '(ks, dq) := advance (keys o) rest in
      mkOrdering ks dq seen (analysisOrder o)
  | Some file =>
      let depsToAdd :=
        pendingHard files aliases (analysisOrder o) file
        ++ pendingLoose files aliases seen (analysisOrder o) (default [] (looseDeps !! key)) in
      match depsToAdd with
      | _ :: _ => mkOrdering (keys o) (depsToAdd ++ key :: rest) seen (analysisOrder o)
      | [] =>
          let '(ks, dq) := advance (keys o) rest in
          mkOrdering ks dq seen (setAdd key (analysisOrder o))
      end
  end.

Fixpoint orderLoop (files : Files) (aliases looseDeps : gmap string (list string))
    (fuel : nat) (o : Ordering) : option Ordering :=
  match deque o with
  | [] => Some o
  | key :: rest =>
      match fuel with
      | 0 => None
      | S fuel' => orderLoop files aliases looseDeps fuel' (orderStep files aliases looseDeps key rest o)
      end
  end.

(** The body of [for (const subdir of gameFileDirectories)] in "determine
    order of analysis"; returns [seen] and [analysisOrder]. *)
Definition orderGroup (files : Files) (aliases looseDeps : gmap string (list string))
    (fuel : nat) (subdir : LuaGameSubdirectory) (acc : list string * list string)
    : option (list string * list string) :=
  match rev (sortKeys (recKeys (files subdir))) with
  | [] => Some acc
  | first :: ks =>
      match orderLoop files aliases looseDeps fuel (mkOrdering ks [first] (fst acc) (snd acc)) with
      | Some o => Some (seen o, analysisOrder o)
      | None => None
      end
  end.

Fixpoint orderGroups (files : Files) (aliases looseDeps : gmap string (list string))
    (fuel : nat) (subdirs : list LuaGameSubdirectory) (acc : list string * list string)
    : option (list string * list string) :=
  match subdirs with
  | [] => Some acc
  | subdir :: rest =>
      match orderGroup files aliases looseDeps fuel subdir acc with
      | Some acc => orderGroups files aliases looseDeps fuel rest acc
      | None => None
      end
  end.

(** [[...analysisOrder].map(k => { const file = getFile(k)!; file.fileDependencies.clear(); return file })] *)
Definition collect (files : Files) (order : list string) : list LuaFile :=
  omap (fun k => withFileDependencies [] <$> getFile files k) order.

(** Everything in [resolveDependencies] after the files are read. *)
Definition orderFiles (fuel : nat) (files : Files) (an : Analyzer) : option (list LuaFile) :=
  let looseDeps := computeLooseDeps (globalSetters an) files in
  let cleared := clearGlobalDependencies files in
  match orderGroups cleared (fileAliases an) looseDeps fuel gameFileDirectories ([], []) with
  | Some (_, order) => Some (collect cleared order)
  | None => None
  end.

(** [resolveDependencies]; [fuel] bounds the iterations of each ordering
    loop, which need not terminate. *)
Definition resolveDependencies (fuel : nat) (input : Input) : option (list LuaFile * Analyzer) :=
  match readAllFiles input with
  | Some (files, an) =>
      match orderFiles fuel files an with
      | Some out => Some (out, an)
      | None => None
      end
  | None => None
  end.

(** ** Pass 2: element extraction *)

Fixpoint resolveTypesLoop (files : list LuaFile) : option (list LuaFile) :=
  match files with
  | [] => Some []
  | file :: rest =>
      match processFile TypeResolution file, resolveTypesLoop rest with
      | Some file, Some rest => Some (cleanup file :: rest)
      | _, _ => None
      end
  end.

Definition resolveTypes (files : list LuaFile) (an : Analyzer) : option (list LuaFile * Analyzer) :=
  match resolveTypesLoop files with
  | Some out => Some (out, startPass TypeResolution an)
  | None => None
  end.

(** [analyze], up to the debug projection of its result. *)
Definition analyze (fuel : nat) (input : Input) : option (list LuaFile) :=
  match resolveDependencies fuel input with
  | Some (files, an) => fst <$> resolveTypes files an
  | None => None
  end.

(** ** The walk as a sequence of primitive steps *)

(** The updates of the current file that the walk performs on behalf of a
    block. *)
Inductive curOp (pass : AnalysisPass) (block : nat) : (LuaFile -> LuaFile) -> Prop :=
| op_globalDependency name : curOp pass block (addGlobalDependency pass name)
| op_fileDependency name : curOp pass block (addFileDependency pass name)
| op_call base arguments : curOp pass block (addCall pass block base arguments)
| op_local lhs rhs : curOp pass block (addLocalAssignment pass block lhs rhs None)
| op_assignment lhs rhs : curOp pass block (addAssignment pass block lhs rhs)
| op_return statement : curOp pass block (addReturn pass block statement).

(** [walkSteps pass block c w w']: [w'] is reached from [w] by updates of
    the current file and pushes of blocks whose nodes hold, with the blocks
    themselves, [c] scopes in all. *)
Inductive walkSteps (pass : AnalysisPass) (block : nat) : nat -> Walk -> Walk -> Prop :=
| ws_done w : walkSteps pass block 0 w w
| ws_cur g c w w' :
    curOp pass block g -> walkSteps pass block c (onCur g w) w' ->
    walkSteps pass block c w w'
| ws_push nd c w w' :
    walkSteps pass block c (pushBlock pass nd block w) w' ->
    walkSteps pass block (S (scopesBody (nodeBody nd)) + c) w w'.

(** ** Vocabulary of the properties *)

(** The tag [addAssignment] gives one left-hand target, as a function of the
    scope chain of block [this] in file [f]. *)
Definition targetKind (this : nat) (f : LuaFile) (target : Expression) : LuaAssignmentType :=
  match target with
  | Identifier x =>
      match getLocal this x f with
      | Some _ => ATLocalReassign
      | None => ATGlobal
      end
  | _ => ATSetField
  end.

(** The local stored under [key] in block [owner]. *)
Definition localAt (owner : nat) (key : string) (f : LuaFile) : option LuaLocal :=
  blocks f !! owner ≫= fun b => locals b !! key.

(** [a] hard-requires [b]: the file selected for the identity [a] records a
    required identity that resolves, directly or through an alias, to [b]. *)
Definition hardEdge (files : Files) (aliases : gmap string (list string))
    (a b : string) : Prop :=
  exists file dep,
    getFile files a = Some file
    /\ dep ∈ fileDependencies file
    /\ getDependencyIdentifier files aliases dep = Some b.

(** No identity reaches itself through hard requires. *)
Definition acyclic (files : Files) (aliases : gmap string (list string)) : Prop :=
  forall a, ~ tc (hardEdge files aliases) a a.

(** Every key of every group's table. *)
Definition allKeys (files : Files) : list string :=
  recKeys (files Shared) ++ recKeys (files Server) ++ recKeys (files Client).

(** [b] stands before [a] in [l]. *)
Definition precedes (b a : string) (l : list string) : Prop :=
  exists l1 l2 l3, l = l1 ++ b :: l2 ++ a :: l3.

(** The root scope of [f] holds nothing but its syntax node. *)
Definition cleared (root : LuaBlockNode) (f : LuaFile) : Prop :=
  blocks f !! 0 = Some (mkBlock root None [] ∅ [] []).

(** A file unit as pass 1 leaves it in a group's table: the cleaned-up
    result of walking some syntax tree under that key and group. *)
Definition producedByWalk (subdir : LuaGameSubdirectory) (key : string) (file : LuaFile) : Prop :=
  exists tree walked,
    processFile DependencyResolution (newLuaFile tree subdir key) = Some walked
    /\ file = cleanup walked.

(** What reading establishes about the tables: the pass, every entry of a
    group's table, every member of an alias set. *)
Definition tablesOk (files : Files) (an : Analyzer) : Prop :=
  pass an = DependencyResolution
  /\ (forall subdir key file,
        recGet key (files subdir) = Some file ->
        producedByWalk subdir key file /\ key <> "")
  /\ (forall alias aliasSet target,
        fileAliases an !! alias = Some aliasSet -> target ∈ aliasSet ->
        is_Some (getFile files target)).

(** A source file that cannot be read or parsed. *)
Definition failing (content : FileContent) : bool :=
  match content with
  | Parsed _ => false
  | _ => true
  end.

(** The input tree without its failing source files, and their number. *)
Fixpoint pruneDir (d : Directory) : Directory :=
  match d with
  | Dir entries scanError => Dir (omap pruneEntry entries) scanError
  end
with pruneEntry (e : DirEntry) : option DirEntry :=
  match e with
  | FileEntry n content => if isLuaFile n && failing content then None else Some e
  | DirectoryEntry n d => Some (DirectoryEntry n (pruneDir d))
  | OtherEntry _ => Some e
  end.

Fixpoint failuresDir (d : Directory) : nat :=
  match d with
  | Dir entries _ => sum_list (map failuresEntry entries)
  end
with failuresEntry (e : DirEntry) : nat :=
  match e with
  | FileEntry n content => if isLuaFile n && failing content then 1 else 0
  | DirectoryEntry _ d => failuresDir d
  | OtherEntry _ => 0
  end.

(** Two analyzers that differ at most in their diagnostics. *)
Definition sameTables (an an' : Analyzer) : Prop :=
  pass an = pass an' /\ globalSetters an = globalSetters an'
  /\ fileAliases an = fileAliases an'.

(** The assignment record [a] is in the history of that local. *)
Definition recorded (owner : nat) (key : string) (a : nat) (f : LuaFile) : Prop :=
  exists l, localAt owner key f = Some l /\ a ∈ local_assignments l.

(** Parent link and bound names of every block: all that name lookup
    depends on. *)
Definition scopeShape (f : LuaFile) : list (option nat * gset string) :=
  (fun b => (parent b, dom (locals b))) <$> blocks f.

(** The parent links of a file's blocks, in allocation order. *)
Definition parents (f : LuaFile) : list (option nat) := parent <$> blocks f.

(** The root has no parent; every other block has one, created before it. *)
Definition parentsOk (f : LuaFile) : Prop :=
  forall i p, parents f !! i = Some p ->
    match i with
    | 0 => p = None
    | S _ => exists q, p = Some q /\ q < i
    end.

(** The scope [c] lies directly in the scope [p]. *)
Definition childOf (f : LuaFile) (c p : nat) : Prop := blocks f !! c ≫= parent = Some p.

(** ** What the walk leaves alone *)

(** The syntax nodes of a file's blocks, in allocation order. *)
Definition nodes (f : LuaFile) : list LuaBlockNode := node <$> blocks f.

(** Identity, group and the three pass-1 sets. *)
Definition headerOf (f : LuaFile)
    : string * LuaGameSubdirectory * list string * list string * list string :=
  (name f, subdirectory f, globalsSet f, globalDependencies f, fileDependencies f).

(** Work left on the stack: each pending block and the scopes under it. *)
Definition pendingScopes (w : Walk) : nat :=
  sum_list (map (fun b => S (scopesBody (getBody b (cur w)))) (stack w)).

Definition stackValid (w : Walk) : Prop :=
  Forall (fun b => b < length (blocks (cur w))) (stack w).

(** ** Vocabulary of the proofs *)

(** A step count may be replaced by any greater one only through the
    bound it is compared with; the lemmas below therefore speak of
    "some count at most [n]". *)
Definition within (pass : AnalysisPass) (block : nat) (n : nat) (w w' : Walk) : Prop :=
  exists c, c <= n /\ walkSteps pass block c w w'.

(** What a scope-tree update leaves alone: the nodes and the header. *)
Definition frameOf (f : LuaFile) := (nodes f, headerOf f).

(** Identity and group are never touched. *)
Definition identityOf (f : LuaFile) : string * LuaGameSubdirectory := (name f, subdirectory f).

(** One iteration of the loop of [addAssignment]. *)
Definition classifyTarget (pass : AnalysisPass) (this file a i : nat)
    (target : Expression) (f : LuaFile) : LuaFile :=
  classifyTargets pass this file a i [target] f.

Definition pendingDirs (pending : list (string * Directory)) : nat :=
  sum_list (map (fun pd => dirCount pd.2) pending).

Definition pendingFailures (pending : list (string * Directory)) : nat :=
  sum_list (map (fun pd => failuresDir pd.2) pending).

(** Two scans in step: the second runs on the pruned tree. *)
Definition scansAgree (s s' : Scan) : Prop :=
  pending s' = map (fun pd => (pd.1, pruneDir pd.2)) (pending s)
  /\ fileMap s = fileMap s'
  /\ sameTables (analyzer s) (analyzer s').

(** A file unit as pass 1 hands it to pass 2. *)
Definition passOneUnit (f : LuaFile) : Prop :=
  exists subdir key g,
    producedByWalk subdir key g
    /\ f = withFileDependencies [] (withGlobalDependencies [] g).

(** What pass 2 makes of one unit of pass 1. *)
Definition passTwoOf (f1 f : LuaFile) : Prop :=
  (exists tree walked,
      processFile DependencyResolution (newLuaFile tree (subdirectory f) (name f)) = Some walked
      /\ globalsSet f = globalsSet walked
      /\ cleared (Chunk tree) f)
  /\ name f = name f1 /\ subdirectory f = subdirectory f1
  /\ globalDependencies f = [] /\ fileDependencies f = [].

(** The names of [universe] that are not in [s] yet. *)
Definition missing (universe s : list string) : nat :=
  length (filter (fun n => n ∉ s) universe).

(** The tables as seen during the scan of group [subdir]. *)
Definition during (Inv : Files -> Analyzer -> Prop) (subdir : LuaGameSubdirectory)
    (files : Files) (s : Scan) : Prop :=
  Inv (setGroup subdir (fileMap s) files) (analyzer s).

(** Every name waiting in the deque or on the key stack is a known file. *)
Definition queued (files : Files) (o : Ordering) : Prop :=
  (forall k, k ∈ deque o -> k ∈ allKeys files) /\ (forall k, k ∈ keys o -> k ∈ allKeys files).

(** The loop comes to an end from [o]. *)
Definition halts (files : Files) (aliases looseDeps : gmap string (list string))
    (o : Ordering) : Prop :=
  exists fuel o', orderLoop files aliases looseDeps fuel o = Some o'.

(** The order so far: no name twice, known files only, and every name
    after all the names it hard-requires. *)
Definition ordered (files : Files) (aliases : gmap string (list string))
    (order : list string) : Prop :=
  NoDup order
  /\ (forall k, k ∈ order -> k ∈ allKeys files)
  /\ (forall l1 a l2, order = l1 ++ a :: l2 -> forall b, hardEdge files aliases a b -> b ∈ l1).

(** The names of [group] are all accounted for, and the deque only runs
    empty once the key stack has. *)
Definition covers (group : list string) (o : Ordering) : Prop :=
  (forall k, k ∈ group -> k ∈ keys o \/ k ∈ deque o \/ k ∈ analysisOrder o)
  /\ (deque o = [] -> keys o = []).

(** The tables pass 1 reads from an input tree. *)
Definition tablesOf (input : Input) : Files * Analyzer :=
  default (noFiles, newAnalyzer) (readAllFiles input).

(** ** Vocabulary of the further properties *)

Definition isCall (e : LuaElement) : bool :=
  match e with CallElement _ _ => true | _ => false end.

Definition isReturn (s : Statement) : bool :=
  match s with ReturnStatement _ => true | _ => false end.

(** The call records among the elements of a block. *)
Definition callsOf (b : LuaBlock) : list LuaElement := List.filter isCall (elements b).

(** [w'] is [w] after some blocks were created and pushed, with no return
    recorded anywhere. *)
Definition grown (w w' : Walk) : Prop :=
  exists k,
    stack w' = reverse (seq (length (blocks (cur w))) k) ++ stack w
    /\ returns <$> blocks (cur w') = (returns <$> blocks (cur w)) ++ replicate k [].

(** The same, with the return statements [extra] recorded in [block]. *)
Definition readAs (block : nat) (extra : list Statement) (w w' : Walk) : Prop :=
  exists k,
    stack w' = reverse (seq (length (blocks (cur w))) k) ++ stack w
    /\ returns <$> blocks (cur w')
       = alter (fun r => r ++ extra) block (returns <$> blocks (cur w)) ++ replicate k [].

(** Among the root and the blocks from [base] on, those still on the stack
    hold no return and the others hold the returns of their body. *)
Definition returnsDone (base : nat) (w : Walk) : Prop :=
  NoDup (stack w) /\ stackValid w
  /\ forall i b,
       blocks (cur w) !! i = Some b -> i = 0 \/ base <= i ->
       returns b = if bool_decide (i ∈ stack w) then []
                   else List.filter isReturn (nodeBody (node b)).

(** The child lists and the parent links say the same. *)
Definition linksOk (f : LuaFile) : Prop :=
  forall p c,
    c ∈ default [] ((children <$> blocks f) !! p) <-> parents f !! c = Some (Some p).

(** The diagnostics a directory tree gives rise to: one for each [.lua]
    file that cannot be read or parsed, one for each directory that cannot
    be listed. *)
Fixpoint diagnosticsDir (dirPath : string) (d : Directory) : list Diagnostic :=
  match d with
  | Dir entries scanError =>
      concat (map (diagnosticsEntry dirPath) entries)
      ++ match scanError with
         | Some e => [ScanFailed dirPath e]
         | None => []
         end
  end
with diagnosticsEntry (dirPath : string) (e : DirEntry) : list Diagnostic :=
  match e with
  | FileEntry n content =>
      if isLuaFile n then
        match content with
        | Unreadable e => [ReadFailed (pathJoin dirPath n) e]
        | Unparsable e => [AnalyzeFailed (pathJoin dirPath n) e]
        | Parsed _ => []
        end
      else []
  | DirectoryEntry n d => diagnosticsDir (pathJoin dirPath n) d
  | OtherEntry _ => []
  end.

(** The diagnostics of the directories still to be scanned. *)
Definition pendingDiagnostics (pending : list (string * Directory)) : list Diagnostic :=
  concat (map (fun pd => diagnosticsDir pd.1 pd.2) pending).

(** The [.lua] files of a directory tree, each with its path. *)
Fixpoint sourcesDir (dirPath : string) (d : Directory) : list (string * FileContent) :=
  match d with
  | Dir entries _ => concat (map (sourcesEntry dirPath) entries)
  end
with sourcesEntry (dirPath : string) (e : DirEntry) : list (string * FileContent) :=
  match e with
  | FileEntry n content => if isLuaFile n then [(pathJoin dirPath n, content)] else []
  | DirectoryEntry n d => sourcesDir (pathJoin dirPath n) d
  | OtherEntry _ => []
  end.

(** The [.lua] files of the directories still to be scanned. *)
Definition pendingSources (pending : list (string * Directory)) : list (string * FileContent) :=
  concat (map (fun pd => sourcesDir pd.1 pd.2) pending).

(** [k] is the identity of a file of [sources] that was parsed. *)
Definition parsedIdentity (sources : list (string * FileContent)) (k : string) : Prop :=
  exists p tree, (p, Parsed tree) ∈ sources /\ getFileIdentifier p = k.

(** [alias] is what follows one of the slashes of [target]. *)
Definition aliasOf (alias target : string) : Prop :=
  exists pre, target = (pre ++ "/" ++ alias)%string.

(** The alias table lists, under each name, the known identities the name
    is a suffix of, and holds no empty set. *)
Definition aliasTableOk (files : Files) (an : Analyzer) : Prop :=
  (forall k n,
      n ∈ default [] (fileAliases an !! k) <-> is_Some (getFile files n) /\ aliasOf k n)
  /\ forall k s, fileAliases an !! k = Some s -> s <> [].

(** [a] reads a global whose first setter resolves to [b]. *)
Definition looseEdge (files : Files) (aliases looseDeps : gmap string (list string))
    (a b : string) : Prop :=
  is_Some (getFile files a)
  /\ exists dep,
       dep ∈ default [] (looseDeps !! a)
       /\ getDependencyIdentifier files aliases dep = Some b.

(** A require or an inferred dependency. *)
Definition anyEdge (files : Files) (aliases looseDeps : gmap string (list string))
    (a b : string) : Prop :=
  hardEdge files aliases a b \/ looseEdge files aliases looseDeps a b.

(** Every known name that was seen and is not ordered yet waits in the
    deque, and reaches whatever stands before it there. *)
Definition waiting (files : Files) (aliases looseDeps : gmap string (list string))
    (o : Ordering) : Prop :=
  forall k,
    k ∈ seen o -> k ∉ analysisOrder o -> is_Some (getFile files k) ->
    exists d1 d2,
      deque o = d1 ++ k :: d2
      /\ forall d, d ∈ d1 -> tc (anyEdge files aliases looseDeps) k d.

(** Every name of [order] stands after its inferred dependencies. *)
Definition looseOrdered (files : Files) (aliases looseDeps : gmap string (list string))
    (order : list string) : Prop :=
  forall l1 a l2,
    order = l1 ++ a :: l2 -> forall b, looseEdge files aliases looseDeps a b -> b ∈ l1.

(** Every known name that was seen is ordered. *)
Definition settled (files : Files) (seen order : list string) : Prop :=
  forall k, k ∈ seen -> is_Some (getFile files k) -> k ∈ order.

(** ** Sample inputs *)

Module Sample.

(** [require("a/b/c")] and [require "a/b/c"] *)
Definition requireCall : Expression :=
  CallExpression (Identifier "require") [StringLiteral (Some "a/b/c") "'a/b/c'"].
Definition requireString : Expression :=
  StringCallExpression (Identifier "require") (StringLiteral (Some "a/b/c") "'a/b/c'").

(** [print(x)] *)
Definition printOf (x : string) : Statement :=
  CallStatement (CallExpression (Identifier "print") [Identifier x]).

(** [x = 1] *)
Definition assign (x : string) : Statement :=
  AssignmentStatement [Identifier x] [NumericLiteral "1"].

(** [require "x"] as a statement *)
Definition requires (x : string) : Statement :=
  CallStatement
    (StringCallExpression (Identifier "require") (StringLiteral (Some x) ("'" ++ x ++ "'"))).

(** [local a, b = 1, 2] followed by [print(b)] *)
Definition twoLocals : list Statement :=
  [LocalStatement [Identifier "a"; Identifier "b"] [NumericLiteral "1"; NumericLiteral "2"];
   printOf "b"].

(** One file, [shared/main.lua], holding [X = 1] and [print(X)]. *)
Definition globalWriter : Input := fun subdir =>
  match subdir with
  | Shared => Dir [FileEntry "main.lua" (Parsed [assign "X"; printOf "X"])] None
  | _ => Dir [] None
  end.

(** [shared/a.lua] requires [b], writes [A] and reads [B];
    [shared/b.lua] writes [B] and reads [A]: one hard edge, and a cycle
    of inferred edges. *)
Definition looseCycle : Input := fun subdir =>
  match subdir with
  | Shared =>
      Dir [FileEntry "a.lua" (Parsed [requires "b"; assign "A"; printOf "B"]);
           FileEntry "b.lua" (Parsed [assign "B"; printOf "A"])] None
  | _ => Dir [] None
  end.

(** [shared/foo.lua] and [server/foo.lua]: one identity in two groups. *)
Definition sameIdentity : Input := fun subdir =>
  match subdir with
  | Shared => Dir [FileEntry "foo.lua" (Parsed [assign "X"])] None
  | Server => Dir [FileEntry "foo.lua" (Parsed [printOf "X"])] None
  | Client => Dir [] None
  end.

(** A file whose root scope binds [x] (as after [local x = 1] in pass 2). *)
Definition withLocalX : LuaFile :=
  addLocalAssignment TypeResolution 0 [Identifier "x"] [Some (NumericLiteral "1")] None
    (newLuaFile [] Shared "main").

(** The targets of [x, t.k, y = 1, 2, 3] *)
Definition threeTargets : list Expression :=
  [Identifier "x"; MemberExpression (Identifier "t") "." "k"; Identifier "y"].
Definition threeValues : list (option Expression) :=
  [Some (NumericLiteral "1"); Some (NumericLiteral "2"); Some (NumericLiteral "3")].

(** [shared/a.lua] requires [b] and [shared/b.lua] requires [a]. *)
Definition hardCycle : Input := fun subdir =>
  match subdir with
  | Shared =>
      Dir [FileEntry "a.lua" (Parsed [requires "b"]);
           FileEntry "b.lua" (Parsed [requires "a"])] None
  | _ => Dir [] None
  end.

(** [shared/a.lua] reads [B]; [shared/b.lua] requires [c] and writes [B];
    [shared/c.lua] is empty. *)
Definition looseChain : Input := fun subdir =>
  match subdir with
  | Shared =>
      Dir [FileEntry "a.lua" (Parsed [printOf "B"]);
           FileEntry "b.lua" (Parsed [requires "c"; assign "B"]);
           FileEntry "c.lua" (Parsed [])] None
  | _ => Dir [] None
  end.

(** The distance of a file of [looseChain] from the end of the chain. *)
Definition chainRank (k : string) : nat :=
  if decide (k = "a") then 2 else if decide (k = "b") then 1 else 0.

(** [local x = 1], [function f() return x end] and [return f] *)
Definition scoped : list Statement :=
  [LocalStatement [Identifier "x"] [NumericLiteral "1"];
   FunctionStatement (Some (Identifier "f")) false [] [ReturnStatement [Identifier "x"]];
   ReturnStatement [Identifier "f"]].

(** The file of [scoped] after the walk of the type-resolution pass. *)
Definition walkedScoped : LuaFile :=
  let file := newLuaFile scoped Shared "main" in
  default file (processFile TypeResolution file).

End Sample.

(** * Properties *)

#[local] Arguments tryReadRequire : simpl never.
#[local] Arguments getLocal : simpl never.
#[local] Arguments pushBlock : simpl never.
#[local] Arguments newLuaBlock : simpl never.

(** ** Insertion-ordered sets *)

Lemma setHas_true x s : setHas x s = true <-> x ∈ s.
Proof. unfold setHas. apply bool_decide_eq_true. Qed.

Lemma setHas_false x s : setHas x s = false <-> x ∉ s.
Proof. unfold setHas. apply bool_decide_eq_false. Qed.

Lemma setAdd_old x s : x ∈ s -> setAdd x s = s.
Proof. unfold setAdd. intros H. apply setHas_true in H. by rewrite H. Qed.

Lemma setAdd_new x s : x ∉ s -> setAdd x s = s ++ [x].
Proof. unfold setAdd. intros H. apply setHas_false in H. by rewrite H. Qed.

Lemma setAdd_here x s : x ∈ setAdd x s.
Proof.
  unfold setAdd, setHas. case_bool_decide; [done |]. apply elem_of_app. right. by left.
Qed.

Lemma setAdd_mono x y s : y ∈ s -> y ∈ setAdd x s.
Proof.
  unfold setAdd. destruct (setHas x s); [done |]. intros H. apply elem_of_app. by left.
Qed.

Lemma setAdd_elem x y s : y ∈ setAdd x s <-> y = x \/ y ∈ s.
Proof.
  split.
  - unfold setAdd. destruct (setHas x s); [by right |].
    rewrite elem_of_app, list_elem_of_singleton. tauto.
  - intros [-> | H]; [apply setAdd_here | by apply setAdd_mono].
Qed.

Lemma setAdd_NoDup x s : NoDup s -> NoDup (setAdd x s).
Proof.
  unfold setAdd, setHas. case_bool_decide as Hin; [done |]. intros Hnd.
  apply NoDup_app. split; [done |]. split; [| apply NoDup_singleton].
  intros y Hy Hy'. apply list_elem_of_singleton in Hy'. by subst.
Qed.

(** ** The walk decomposes into primitive steps *)

Section WalkSteps.

Variables (pass : AnalysisPass) (block : nat).

Lemma walkSteps_trans c1 c2 w1 w2 w3 :
  walkSteps pass block c1 w1 w2 -> walkSteps pass block c2 w2 w3 ->
  walkSteps pass block (c1 + c2) w1 w3.
Proof.
  induction 1 as [w | g c w w' Hg _ IH | nd c w w' _ IH]; intros H23.
  - exact H23.
  - eapply ws_cur; eauto.
  - rewrite <- Nat.add_assoc. apply ws_push. auto.
Qed.


Lemma within_refl n w : within pass block n w w.
Proof. exists 0. split; [lia | constructor]. Qed.

Lemma within_trans n1 n2 w1 w2 w3 :
  within pass block n1 w1 w2 -> within pass block n2 w2 w3 -> within pass block (n1 + n2) w1 w3.
Proof.
  intros (c1 & H1 & S1) (c2 & H2 & S2). exists (c1 + c2).
  split; [lia | eapply walkSteps_trans; eauto].
Qed.

Lemma within_weaken n m w w' : n <= m -> within pass block n w w' -> within pass block m w w'.
Proof. intros Hle (c & Hc & S). exists c. split; [lia | done]. Qed.

Lemma within_cur g w : curOp pass block g -> within pass block 0 w (onCur g w).
Proof. intros Hg. exists 0. split; [lia |]. eapply ws_cur; [done | constructor]. Qed.

Lemma within_push nd w :
  within pass block (S (scopesBody (nodeBody nd))) w (pushBlock pass nd block w).
Proof.
  exists (S (scopesBody (nodeBody nd)) + 0). split; [lia |].
  apply ws_push. constructor.
Qed.

Lemma within_fold {A} (step : Walk -> A -> Walk) (cost : A -> nat) (l : list A) :
  Forall (fun a => forall w, within pass block (cost a) w (step w a)) l ->
  forall w, within pass block (sum_list (map cost l)) w (fold_left step l w).
Proof.
  induction 1 as [| a l Ha _ IH]; intros w; simpl.
  - apply within_refl.
  - eapply within_trans; [apply Ha | apply IH].
Qed.

Lemma tryReadRequire_cases e f :
  tryReadRequire pass e f = (false, f) \/
  exists n, tryReadRequire pass e f = (true, addFileDependency pass n f).
Proof.
  unfold tryReadRequire.
  repeat (case_match; simplify_eq; eauto).
Qed.

Lemma readExpression_within e :
  forall w, within pass block (scopesE e) w (readExpression pass e block w).
Proof.
  induction e using Expression_walk_ind; intros w; simpl;
    try apply within_refl.
  - destruct (getLocal block n (cur w)); [apply within_refl |].
    apply (within_cur (addGlobalDependency pass n)). constructor.
  - auto.
  - eapply within_trans; [apply IHe1 | apply IHe2].
  - destruct (tryReadRequire_cases (CallExpression e args) (cur w)) as [-> | [n ->]].
    + replace (scopesE e + sum_list (map scopesE args))
        with ((scopesE e + sum_list (map scopesE args)) + 0) by lia.
      eapply within_trans; [eapply within_trans; [apply IHe |] |].
      * apply (within_fold (fun w arg => readExpression pass arg block w) scopesE). done.
      * apply (within_cur (addCall pass block e args)). constructor.
    + eapply within_weaken; [| apply (within_cur (addFileDependency pass n))].
      * lia.
      * constructor.
  - eapply within_trans; [apply IHe1 | apply IHe2].
  - destruct (tryReadRequire_cases (StringCallExpression e1 e2) (cur w)) as [-> | [n ->]].
    + eapply within_trans; [apply IHe1 | apply IHe2].
    + eapply within_weaken; [| apply (within_cur (addFileDependency pass n))].
      * lia.
      * constructor.
  - apply (within_fold _ scopesF).
    eapply Forall_impl; [exact H |]. intros [k v | k v | v]; simpl.
    + intros [Hk Hv] w'. rewrite Nat.add_comm.
      eapply within_trans; [apply Hv | apply Hk].
    + auto.
    + auto.
  - apply (within_push (FunctionNode i l ps body)).
  - auto.
  - eapply within_trans; [apply IHe1 | apply IHe2].
  - eapply within_trans; [apply IHe1 | apply IHe2].
Qed.

Lemma readExpressions_within (es : list Expression) w :
  within pass block (sum_list (map scopesE es)) w
    (fold_left (fun w e => readExpression pass e block w) es w).
Proof.
  apply (within_fold (fun w e => readExpression pass e block w) scopesE).
  apply Forall_forall. intros e _. apply readExpression_within.
Qed.

Lemma sum_initializers (variables init : list Expression) :
  sum_list (map (from_option scopesE 0) (imap (fun i _ => init !! i) variables))
  <= sum_list (map scopesE init).
Proof.
  revert init. induction variables as [| v vs IH]; intros init; simpl; [lia |].
  destruct init as [| e init]; simpl.
  - specialize (IH []). simpl in IH.
    erewrite imap_ext; [exact IH |]. done.
  - specialize (IH init).
    erewrite imap_ext; [apply Nat.add_le_mono_l, IH |]. done.
Qed.

Lemma prepareAssignment_within variables init w :
  within pass block (sum_list (map scopesE variables) + sum_list (map scopesE init)) w
    (prepareAssignment pass variables init block w).2.
Proof.
  unfold prepareAssignment. simpl. rewrite Nat.add_comm.
  set (readInit := fun (w : Walk) (r : option Expression) =>
                     match r with
                     | Some e => readExpression pass e block w
                     | None => w
                     end).
  set (readBase := fun (w : Walk) (variable : Expression) =>
                     if isIdentifier variable then w
                     else match targetBase variable with
                          | Some base => readExpression pass base block w
                          | None => w
                          end).
  apply within_trans with (w2 := fold_left readInit (imap (fun i _ => init !! i) variables) w).
  - eapply within_weaken; [apply (sum_initializers variables) |].
    apply (within_fold readInit (from_option scopesE 0)).
    apply Forall_forall. intros [e |] _ w'; simpl.
    + apply readExpression_within.
    + apply within_refl.
  - apply (within_fold readBase scopesE).
    apply Forall_forall. intros v _ w'.
    destruct v; simpl; try apply within_refl.
    + apply readExpression_within.
    + eapply within_weaken; [| apply readExpression_within]. lia.
Qed.

Lemma prepareAssignment_fst variables init w :
  (prepareAssignment pass variables init block w).1
  = (variables, imap (fun i _ => init !! i) variables).
Proof. reflexivity. Qed.

Lemma readStatement_within s w :
  within pass block (scopesS s) w (readStatement pass s block w).
Proof.
  destruct s; simpl; try apply within_refl.
  - unfold readLocalStatement.
    pose proof (prepareAssignment_within variables init w) as H.
    destruct (prepareAssignment pass variables init block w) as [[l r] w'].
    replace (sum_list (map scopesE variables) + sum_list (map scopesE init))
      with (sum_list (map scopesE variables) + sum_list (map scopesE init) + 0) by lia.
    eapply within_trans; [exact H |].
    apply (within_cur (addLocalAssignment pass block l r None)). constructor.
  - unfold readAssignStatement.
    pose proof (prepareAssignment_within variables init w) as H.
    destruct (prepareAssignment pass variables init block w) as [[l r] w'].
    replace (sum_list (map scopesE variables) + sum_list (map scopesE init))
      with (sum_list (map scopesE variables) + sum_list (map scopesE init) + 0) by lia.
    eapply within_trans; [exact H |].
    apply (within_cur (addAssignment pass block l r)). constructor.
  - apply readExpression_within.
  - replace (sum_list (map scopesE arguments))
      with (sum_list (map scopesE arguments) + 0) by lia.
    eapply within_trans; [apply readExpressions_within |].
    apply (within_cur (addReturn pass block (ReturnStatement arguments))). constructor.
  - apply (within_fold _ scopesC).
    apply Forall_forall. intros c _ w'.
    eapply within_weaken; [| apply (within_push (ClauseNode c))].
    destruct c; simpl; unfold scopesBody; lia.
  - apply (within_push (FunctionNode identifier isLocal parameters body)).
  - apply (within_push (DoNode body)).
  - apply (within_push (WhileNode condition body)).
  - apply (within_push (RepeatNode condition body)).
  - apply (within_push (ForNumericNode variable start stop step body)).
  - eapply within_trans; [apply readExpressions_within |].
    apply (within_push (ForGenericNode variables iterators body)).
Qed.

Lemma readBody_within w :
  within pass block (scopesBody (getBody block (cur w))) w (readBody pass block w).
Proof.
  unfold readBody, scopesBody.
  apply (within_fold (fun w s => readStatement pass s block w) scopesS).
  apply Forall_forall. intros s _ w'. apply readStatement_within.
Qed.

End WalkSteps.

(** ** Frame properties of the block and file methods *)


Lemma frame_onBlock i g f :
  (forall b, node (g b) = node b) -> frameOf (onBlock i g f) = frameOf f.
Proof.
  intros Hg. unfold frameOf, nodes, onBlock. simpl. f_equal.
  rewrite (list_fmap_alter node g id).
  - apply list_alter_id. done.
  - apply Forall_forall. intros b _. apply Hg.
Qed.

Lemma frame_heap h f : frameOf (withAssignmentHeap h f) = frameOf f.
Proof. reflexivity. Qed.

Lemma frame_fold {A} (step : LuaFile -> A -> LuaFile) (l : list A) f :
  (forall a f, frameOf (step f a) = frameOf f) ->
  frameOf (fold_left step l f) = frameOf f.
Proof.
  intros Hstep. revert f. induction l as [| a l IH]; intros f; simpl; [done |].
  rewrite IH. apply Hstep.
Qed.

Lemma frame_pushLocalAssignment owner key a f :
  frameOf (pushLocalAssignment owner key a f) = frameOf f.
Proof. apply frame_onBlock. done. Qed.

Lemma frame_setAssignType a i t f : frameOf (setAssignType a i t f) = frameOf f.
Proof. reflexivity. Qed.

Lemma frame_setAssignTypes a ts f : frameOf (setAssignTypes a ts f) = frameOf f.
Proof. reflexivity. Qed.

Lemma frame_bindAll this a expr f : frameOf (bindAll this a expr f) = frameOf f.
Proof.
  unfold bindAll. apply frame_fold. intros ident f'. apply frame_onBlock. done.
Qed.

Lemma frame_pushElement this e f : frameOf (onBlock this (pushElement e) f) = frameOf f.
Proof. apply frame_onBlock. done. Qed.

Lemma frame_addChild this child f : frameOf (addChild this child f) = frameOf f.
Proof.
  unfold addChild. rewrite frame_pushElement.
  rewrite !frame_onBlock; done.
Qed.

Lemma frame_addBlockLocals this expressions rhs type addSelf f :
  frameOf (addBlockLocals this expressions rhs type addSelf f) = frameOf f.
Proof.
  unfold addBlockLocals, allocAssignment.
  by rewrite frame_pushElement, frame_bindAll, frame_heap.
Qed.

Lemma frame_addLocalAssignment pass this lhs rhs existingLocal f :
  frameOf (addLocalAssignment pass this lhs rhs existingLocal f) = frameOf f.
Proof.
  unfold addLocalAssignment, allocAssignment.
  destruct pass, lhs as [| ident lhs'], existingLocal as [[owner key] |];
    try (apply frame_onBlock; done);
    rewrite frame_pushElement;
    repeat case_match;
    rewrite ?frame_pushLocalAssignment, ?frame_setAssignTypes, ?frame_bindAll, ?frame_heap;
    done.
Qed.

Lemma frame_addCall pass this base arguments f :
  frameOf (addCall pass this base arguments f) = frameOf f.
Proof. destruct pass; [done | apply frame_pushElement]. Qed.

Lemma frame_addReturn pass this statement f :
  frameOf (addReturn pass this statement f) = frameOf f.
Proof. destruct pass; [done | apply frame_onBlock; done]. Qed.

(** In the type-resolution pass the three [LuaFile] methods do nothing. *)
Lemma addGlobalSet_gated name f : addGlobalSet TypeResolution name f = f.
Proof. reflexivity. Qed.

Lemma nodes_addGlobalSet pass name f : nodes (addGlobalSet pass name f) = nodes f.
Proof. by destruct pass. Qed.

Lemma classifyTargets_nodes pass this file a targets :
  forall i f, nodes (classifyTargets pass this file a i targets f) = nodes f.
Proof.
  induction targets as [| target rest IH]; intros i f; simpl; [done |].
  rewrite IH.
  destruct target as [x | | | | | | | | | | | | | | |]; try done.
  destruct (getLocal this x f) as [[owner l] |].
  - destruct pass; [done |].
    change (nodes ?x) with (frameOf x).1.
    by rewrite frame_pushLocalAssignment.
  - case_bool_decide; [apply nodes_addGlobalSet | done].
Qed.

Lemma classifyTargets_frame this file a targets :
  forall i f, frameOf (classifyTargets TypeResolution this file a i targets f) = frameOf f.
Proof.
  induction targets as [| target rest IH]; intros i f; simpl; [done |].
  rewrite IH.
  destruct target as [x | | | | | | | | | | | | | | |]; try done.
  destruct (getLocal this x f) as [[owner l] |].
  - by rewrite frame_pushLocalAssignment.
  - by case_bool_decide.
Qed.

Lemma addAssignment_nodes pass this lhs rhs f :
  nodes (addAssignment pass this lhs rhs f) = nodes f.
Proof.
  unfold addAssignment, allocAssignment.
  destruct pass.
  - by rewrite classifyTargets_nodes.
  - change (nodes ?x) with (frameOf x).1.
    by rewrite frame_pushElement, classifyTargets_frame.
Qed.

Lemma addAssignment_frame this lhs rhs f :
  frameOf (addAssignment TypeResolution this lhs rhs f) = frameOf f.
Proof.
  unfold addAssignment, allocAssignment.
  by rewrite frame_pushElement, classifyTargets_frame.
Qed.

(** Every update of the current file keeps the nodes; in the
    type-resolution pass it keeps the header as well. *)
Lemma curOp_nodes pass block g f : curOp pass block g -> nodes (g f) = nodes f.
Proof.
  intros [n | n | b a | l r | l r | s].
  - by destruct pass.
  - by destruct pass.
  - apply (f_equal fst (frame_addCall pass block b a f)).
  - apply (f_equal fst (frame_addLocalAssignment pass block l r None f)).
  - apply addAssignment_nodes.
  - apply (f_equal fst (frame_addReturn pass block s f)).
Qed.

Lemma curOp_frame block g f : curOp TypeResolution block g -> frameOf (g f) = frameOf f.
Proof.
  intros [n | n | b a | l r | l r | s].
  - done.
  - done.
  - apply frame_addCall.
  - apply frame_addLocalAssignment.
  - apply addAssignment_frame.
  - apply frame_addReturn.
Qed.

Lemma newLuaBlock_fst pass nd parent f : (newLuaBlock pass nd parent f).1 = length (blocks f).
Proof. reflexivity. Qed.

Lemma newLuaBlock_frame pass nd parent f :
  frameOf (newLuaBlock pass nd parent f).2 = (nodes f ++ [nd], headerOf f).
Proof.
  unfold newLuaBlock. cbn [snd]. rewrite frame_addChild.
  set (f1 := withBlocks _ f).
  assert (H1 : frameOf f1 = (nodes f ++ [nd], headerOf f)).
  { unfold frameOf, nodes, f1. simpl. by rewrite fmap_app. }
  destruct nd; try done.
  - destruct isLocal; [| by rewrite frame_addBlockLocals].
    destruct identifier as [[] |];
      rewrite ?frame_addLocalAssignment, frame_addBlockLocals; done.
  - by rewrite frame_addBlockLocals.
  - by rewrite frame_addBlockLocals.
Qed.

Lemma pushBlock_stack pass nd parent w :
  stack (pushBlock pass nd parent w) = length (blocks (cur w)) :: stack w.
Proof.
  unfold pushBlock. pose proof (newLuaBlock_fst pass nd parent (cur w)) as H.
  destruct (newLuaBlock pass nd parent (cur w)) as [b f]. simpl in *. by subst.
Qed.

Lemma pushBlock_frame pass nd parent w :
  frameOf (cur (pushBlock pass nd parent w)) = (nodes (cur w) ++ [nd], headerOf (cur w)).
Proof.
  unfold pushBlock. rewrite <- newLuaBlock_frame with (pass := pass) (parent := parent).
  by destruct (newLuaBlock pass nd parent (cur w)).
Qed.

(** ** The walk terminates within its allotted iterations *)

Lemma getBody_nodes b f : getBody b f = from_option nodeBody [] (nodes f !! b).
Proof.
  unfold getBody, nodes. rewrite list_lookup_fmap. by destruct (blocks f !! b).
Qed.

Lemma nodes_length f : length (nodes f) = length (blocks f).
Proof. apply length_fmap. Qed.

Lemma pendingScopes_nodes s f f' :
  Forall (fun b => nodes f' !! b = nodes f !! b) s ->
  sum_list (map (fun b => S (scopesBody (getBody b f'))) s)
  = sum_list (map (fun b => S (scopesBody (getBody b f))) s).
Proof.
  induction 1 as [| b s Hb _ IH]; simpl; [done |].
  rewrite IH, !getBody_nodes, Hb. done.
Qed.

Lemma walkSteps_pending pass block c w w' :
  walkSteps pass block c w w' ->
  stackValid w -> stackValid w' /\ pendingScopes w' <= pendingScopes w + c.
Proof.
  induction 1 as [w | g c w w' Hg _ IH | nd c w w' _ IH]; intros Hv.
  - split; [done | lia].
  - assert (Hn : nodes (g (cur w)) = nodes (cur w)) by (by apply curOp_nodes with (1 := Hg)).
    destruct IH as [Hv' Hle].
    + unfold stackValid in *. simpl. rewrite <- nodes_length, Hn, nodes_length. done.
    + split; [done |].
      rewrite Hle. apply Nat.add_le_mono_r. apply Nat.eq_le_incl.
      unfold pendingScopes. simpl. apply pendingScopes_nodes.
      apply Forall_forall. intros b _. by rewrite Hn.
  - pose proof (pushBlock_frame pass nd block w) as Hf.
    apply (f_equal fst) in Hf. cbn [fst frameOf] in Hf.
    destruct IH as [Hv' Hle].
    + unfold stackValid in *. rewrite pushBlock_stack, <- nodes_length, Hf.
      rewrite length_app, nodes_length. simpl. constructor; [lia |].
      eapply Forall_impl; [exact Hv |]. simpl. lia.
    + split; [done |]. rewrite Hle.
      unfold pendingScopes. rewrite pushBlock_stack. cbn [map sum_list].
      rewrite getBody_nodes, Hf, lookup_app_r, nodes_length by (rewrite nodes_length; lia).
      rewrite Nat.sub_diag. cbn [lookup list_lookup from_option].
      rewrite (pendingScopes_nodes (stack w) (cur w)).
      * simpl. lia.
      * eapply Forall_impl; [exact Hv |]. cbn beta. intros b Hb.
        rewrite Hf. apply lookup_app_l. by rewrite nodes_length.
Qed.

Lemma processLoop_total pass fuel :
  forall w, stackValid w -> pendingScopes w <= fuel -> is_Some (processLoop pass fuel w).
Proof.
  induction fuel as [| fuel IH]; intros [s f] Hv Hle; destruct s as [| block rest]; simpl; eauto.
  - unfold pendingScopes in Hle. simpl in Hle. lia.
  - destruct (readBody_within pass block (mkWalk rest f)) as (c & Hc & Hsteps).
    apply walkSteps_pending in Hsteps as [Hv' Hle'].
    + apply IH; [done |].
      unfold pendingScopes in Hle, Hle' |- *. simpl in *. lia.
    + by inversion Hv.
Qed.

Lemma processFile_total pass file : is_Some (processFile pass file).
Proof.
  unfold processFile. simpl.
  destruct (readBody_within pass 0 (mkWalk [] file)) as (c & Hc & Hsteps).
  apply walkSteps_pending in Hsteps as [Hv' Hle']; [| constructor].
  apply processLoop_total; [done |].
  unfold pendingScopes in Hle' at 2. simpl in *. lia.
Qed.

(** ** What a whole walk preserves *)

Section WalkPreserves.

Context {A : Type} (view : LuaFile -> A) (pass : AnalysisPass).

Hypothesis view_curOp : forall block g f, curOp pass block g -> view (g f) = view f.
Hypothesis view_newLuaBlock :
  forall nd block f, view (newLuaBlock pass nd block f).2 = view f.

Lemma walkSteps_preserves block c w w' :
  walkSteps pass block c w w' -> view (cur w') = view (cur w).
Proof.
  induction 1 as [w | g c w w' Hg _ IH | nd c w w' _ IH]; [done | |].
  - rewrite IH. simpl. by apply view_curOp with (block := block).
  - rewrite IH. unfold pushBlock.
    rewrite <- (view_newLuaBlock nd block (cur w)).
    by destruct (newLuaBlock pass nd block (cur w)).
Qed.

Lemma processLoop_preserves fuel :
  forall w f, processLoop pass fuel w = Some f -> view f = view (cur w).
Proof.
  induction fuel as [| fuel IH]; intros [s f0] f; destruct s as [| block rest]; simpl;
    intros H; simplify_eq; try done.
  apply IH in H. rewrite H.
  destruct (readBody_within pass block (mkWalk rest f0)) as (c & _ & Hsteps).
  apply (walkSteps_preserves _ _ _ _ Hsteps).
Qed.

Lemma processFile_preserves file f :
  processFile pass file = Some f -> view f = view file.
Proof. apply processLoop_preserves. Qed.

End WalkPreserves.


Lemma frame_identity f f' : frameOf f' = frameOf f -> identityOf f' = identityOf f.
Proof.
  intros H. apply (f_equal (fun p => (p.2.1.1.1.1, p.2.1.1.1.2))) in H. exact H.
Qed.

Lemma classifyTargets_identity pass this file a targets :
  forall i f, identityOf (classifyTargets pass this file a i targets f) = identityOf f.
Proof.
  induction targets as [| target rest IH]; intros i f; simpl; [done |].
  rewrite IH.
  destruct target as [x | | | | | | | | | | | | | | |]; try done.
  destruct (getLocal this x f) as [[owner l] |].
  - by destruct pass.
  - case_bool_decide; [by destruct pass | done].
Qed.

Lemma curOp_identity pass block g f : curOp pass block g -> identityOf (g f) = identityOf f.
Proof.
  intros [n | n | b a | l r | l r | s].
  - by destruct pass.
  - by destruct pass.
  - apply frame_identity, frame_addCall.
  - apply frame_identity, frame_addLocalAssignment.
  - unfold addAssignment, allocAssignment.
    destruct pass; [| rewrite (frame_identity _ _ (frame_pushElement _ _ _))];
      by rewrite classifyTargets_identity.
  - apply frame_identity, frame_addReturn.
Qed.

Lemma newLuaBlock_identity pass nd parent f :
  identityOf (newLuaBlock pass nd parent f).2 = identityOf f.
Proof.
  pose proof (newLuaBlock_frame pass nd parent f) as H.
  apply (f_equal (fun p => (p.2.1.1.1.1, p.2.1.1.1.2))) in H. exact H.
Qed.

Lemma processFile_identity pass file f :
  processFile pass file = Some f -> identityOf f = identityOf file.
Proof.
  apply (processFile_preserves identityOf pass).
  - intros block g f0. apply curOp_identity.
  - intros nd block f0. apply newLuaBlock_identity.
Qed.

(** The type-resolution walk changes none of the three sets. *)
Lemma newLuaBlock_header pass nd parent f :
  headerOf (newLuaBlock pass nd parent f).2 = headerOf f.
Proof. apply (f_equal snd (newLuaBlock_frame pass nd parent f)). Qed.

Lemma processFile_header file f :
  processFile TypeResolution file = Some f -> headerOf f = headerOf file.
Proof.
  apply (processFile_preserves headerOf TypeResolution).
  - intros block g f0 Hg. apply (f_equal snd (curOp_frame block g f0 Hg)).
  - intros nd block f0. apply newLuaBlock_header.
Qed.

(** The root block stays in slot 0 with its node. *)
Lemma curOp_root pass block g f : curOp pass block g -> nodes (g f) !! 0 = nodes f !! 0.
Proof. intros Hg. by rewrite (curOp_nodes _ _ _ _ Hg). Qed.

Lemma newLuaBlock_root pass nd parent f :
  blocks f <> [] -> nodes (newLuaBlock pass nd parent f).2 !! 0 = nodes f !! 0.
Proof.
  intros Hne. pose proof (f_equal fst (newLuaBlock_frame pass nd parent f)) as H.
  cbn [fst frameOf] in H. rewrite H.
  apply lookup_app_l. rewrite nodes_length. destruct (blocks f); simpl; [done | lia].
Qed.

(** ** Invariants of a whole walk *)

Section WalkInvariant.

Context (Q : LuaFile -> Prop) (pass : AnalysisPass).

Hypothesis Q_curOp :
  forall block g f, curOp pass block g -> block < length (blocks f) -> Q f -> Q (g f).
Hypothesis Q_newLuaBlock :
  forall nd block f, block < length (blocks f) -> Q f -> Q (newLuaBlock pass nd block f).2.

Lemma walkSteps_invariant block c w w' :
  walkSteps pass block c w w' -> block < length (blocks (cur w)) -> Q (cur w) -> Q (cur w').
Proof.
  induction 1 as [w | g c w w' Hg _ IH | nd c w w' _ IH]; intros Hb H; [done | |].
  - apply IH; simpl.
    + by rewrite <- nodes_length, (curOp_nodes _ _ _ _ Hg), nodes_length.
    + by eapply Q_curOp.
  - apply IH.
    + pose proof (f_equal fst (pushBlock_frame pass nd block w)) as Hf.
      cbn [fst frameOf] in Hf. rewrite <- nodes_length, Hf, length_app, nodes_length. lia.
    + unfold pushBlock.
      pose proof (Q_newLuaBlock nd block (cur w) Hb H) as H'.
      by destruct (newLuaBlock pass nd block (cur w)).
Qed.

Lemma processLoop_invariant fuel :
  forall w f, processLoop pass fuel w = Some f -> stackValid w -> Q (cur w) -> Q f.
Proof.
  induction fuel as [| fuel IH]; intros [s f0] f; destruct s as [| block rest]; simpl;
    intros H Hv HQ; simplify_eq; try done.
  destruct (readBody_within pass block (mkWalk rest f0)) as (c & _ & Hsteps).
  inversion Hv as [| ? ? Hb Hrest]; subst. simpl in Hb.
  eapply IH; [exact H | |].
  - by apply (walkSteps_pending _ _ _ _ _ Hsteps).
  - by apply (walkSteps_invariant _ _ _ _ Hsteps).
Qed.

Lemma processFile_invariant file f :
  processFile pass file = Some f -> blocks file <> [] -> Q file -> Q f.
Proof.
  intros H Hne. apply (processLoop_invariant _ _ _ H).
  constructor; [| constructor]. simpl. destruct (blocks file); simpl; [done | lia].
Qed.

End WalkInvariant.

(** The root block stays in slot 0. *)
Lemma processFile_root pass file f root :
  processFile pass file = Some f -> nodes file !! 0 = Some root -> nodes f !! 0 = Some root.
Proof.
  intros H Hroot.
  eapply (processFile_invariant (fun f => nodes f !! 0 = Some root) pass);
    [| | exact H | | exact Hroot].
  - intros block g f0 Hg _. by rewrite (curOp_nodes _ _ _ _ Hg).
  - intros nd block f0 _ H0. rewrite newLuaBlock_root; [done |].
    unfold nodes in H0. by destruct (blocks f0).
  - unfold nodes in Hroot. by destruct (blocks file).
Qed.

(** ** Parent links *)

(** Only [addChild] writes a parent link, and only that of the block just
    created. *)
Lemma parents_length f : length (parents f) = length (blocks f).
Proof. apply length_fmap. Qed.

Lemma parents_onBlock i g f :
  (forall b, parent (g b) = parent b) -> parents (onBlock i g f) = parents f.
Proof.
  intros Hg. unfold parents, onBlock. simpl.
  rewrite (list_fmap_alter parent g id).
  - apply list_alter_id. done.
  - apply Forall_forall. intros b _. apply Hg.
Qed.

Lemma parents_fold {A} (step : LuaFile -> A -> LuaFile) (l : list A) f :
  (forall a f, parents (step f a) = parents f) ->
  parents (fold_left step l f) = parents f.
Proof.
  intros Hstep. revert f. induction l as [| a l IH]; intros f; simpl; [done |].
  rewrite IH. apply Hstep.
Qed.

Lemma parents_pushLocalAssignment owner key a f :
  parents (pushLocalAssignment owner key a f) = parents f.
Proof. apply parents_onBlock. done. Qed.

Lemma parents_bindAll this a expr f : parents (bindAll this a expr f) = parents f.
Proof.
  unfold bindAll. apply parents_fold. intros ident f'. apply parents_onBlock. done.
Qed.

Lemma parents_pushElement this e f : parents (onBlock this (pushElement e) f) = parents f.
Proof. apply parents_onBlock. done. Qed.

Lemma parents_addBlockLocals this expressions rhs type addSelf f :
  parents (addBlockLocals this expressions rhs type addSelf f) = parents f.
Proof.
  unfold addBlockLocals, allocAssignment.
  by rewrite parents_pushElement, parents_bindAll.
Qed.

Lemma parents_addLocalAssignment pass this lhs rhs existingLocal f :
  parents (addLocalAssignment pass this lhs rhs existingLocal f) = parents f.
Proof.
  unfold addLocalAssignment, allocAssignment.
  destruct pass, lhs as [| ident lhs'], existingLocal as [[owner key] |];
    try (apply parents_onBlock; done);
    rewrite parents_pushElement;
    repeat case_match;
    rewrite ?parents_pushLocalAssignment, ?parents_bindAll;
    done.
Qed.

Lemma parents_classifyTargets pass this file a targets :
  forall i f, parents (classifyTargets pass this file a i targets f) = parents f.
Proof.
  induction targets as [| target rest IH]; intros i f; simpl; [done |].
  rewrite IH.
  destruct target as [x | | | | | | | | | | | | | | |]; try done.
  destruct (getLocal this x f) as [[owner l] |].
  - destruct pass; [done |]. by rewrite parents_pushLocalAssignment.
  - case_bool_decide; [by destruct pass | done].
Qed.

Lemma parents_addAssignment pass this lhs rhs f :
  parents (addAssignment pass this lhs rhs f) = parents f.
Proof.
  unfold addAssignment, allocAssignment.
  destruct pass; rewrite ?parents_pushElement; by rewrite parents_classifyTargets.
Qed.

Lemma curOp_parents pass block g f : curOp pass block g -> parents (g f) = parents f.
Proof.
  intros [n | n | b a | l r | l r | s].
  - by destruct pass.
  - by destruct pass.
  - destruct pass; [done | apply parents_pushElement].
  - apply parents_addLocalAssignment.
  - apply parents_addAssignment.
  - destruct pass; [done | by apply parents_onBlock].
Qed.

Lemma parents_addChild this child f :
  parents (addChild this child f) = alter (fun _ => Some this) child (parents f).
Proof.
  unfold addChild. rewrite parents_pushElement, parents_onBlock by done.
  unfold parents, onBlock. simpl. apply list_fmap_alter.
  apply Forall_forall. done.
Qed.

Lemma newLuaBlock_parents pass nd parent f :
  parents (newLuaBlock pass nd parent f).2 = parents f ++ [Some parent].
Proof.
  unfold newLuaBlock. cbn [snd]. rewrite parents_addChild.
  set (f1 := withBlocks _ f).
  assert (H1 : parents f1 = parents f ++ [None]).
  { unfold parents, f1. simpl. by rewrite fmap_app. }
  assert (H2 : alter (fun _ : option nat => Some parent) (length (blocks f)) (parents f ++ [None])
               = parents f ++ [Some parent]).
  { rewrite <- parents_length. by rewrite (alter_app_r_alt _ _ _ (length (parents f))), Nat.sub_diag. }
  destruct nd; rewrite ?parents_addBlockLocals, ?H1, ?H2; try done.
  destruct isLocal; [| by rewrite parents_addBlockLocals, H1, H2].
  destruct identifier as [[] |];
    rewrite ?parents_addLocalAssignment, parents_addBlockLocals, H1, H2; done.
Qed.

(** The root has no parent and every other block hangs under an older
    one, throughout a walk: the top ancestor of every block is the root,
    and name lookup does not depend on the bound put on its loop. *)
Lemma parentsOk_snoc f f' q :
  parentsOk f -> parents f' = parents f ++ [Some q] -> q < length (blocks f) -> parentsOk f'.
Proof.
  intros Hok Hp Hq i p. rewrite Hp. intros Hi.
  destruct (decide (i < length (parents f))) as [Hlt | Hge].
  - rewrite lookup_app_l in Hi by done. by apply Hok.
  - rewrite lookup_app_r in Hi by lia.
    destruct (i - length (parents f)) as [| k] eqn:Hk; simpl in Hi; [| done].
    simplify_eq. rewrite parents_length in *.
    destruct i as [| i]; [lia |]. exists q. split; [done | lia].
Qed.

Lemma processFile_parentsOk pass file f :
  processFile pass file = Some f -> blocks file <> [] -> parentsOk file -> parentsOk f.
Proof.
  apply (processFile_invariant parentsOk pass).
  - intros block g f0 Hg _ H. unfold parentsOk. by rewrite (curOp_parents _ _ _ _ Hg).
  - intros nd block f0 Hb H.
    eapply parentsOk_snoc; [exact H | apply newLuaBlock_parents | done].
Qed.

Lemma newLuaFile_parentsOk tree subdir name : parentsOk (newLuaFile tree subdir name).
Proof. intros [| [| i]] p H; simpl in H; by simplify_eq. Qed.

Lemma cleanup_parentsOk f : parentsOk f -> parentsOk (cleanup f).
Proof.
  intros Hok i p. unfold cleanup, parents, onBlock. simpl.
  rewrite list_lookup_fmap. destruct i as [| i].
  - rewrite list_lookup_alter_eq. destruct (blocks f !! 0); simpl; intros H; by simplify_eq.
  - rewrite list_lookup_alter_ne by done. intros H. apply (Hok (S i) p).
    unfold parents. by rewrite list_lookup_fmap.
Qed.

Lemma parent_lookup f i : blocks f !! i ≫= parent = parents f !! i ≫= id.
Proof. unfold parents. rewrite list_lookup_fmap. by destruct (blocks f !! i). Qed.

Lemma topAncestorFrom_root f :
  parentsOk f ->
  forall fuel i, i < fuel -> i < length (blocks f) ->
    topAncestorFrom fuel (blocks f) i = match i with 0 => None | S _ => Some 0 end.
Proof.
  intros Hok. induction fuel as [| fuel IH]; intros i Hfuel Hi; [lia |].
  simpl. rewrite !parent_lookup.
  destruct (lookup_lt_is_Some_2 (parents f) i) as [p Hp]; [by rewrite parents_length |].
  rewrite Hp. pose proof (Hok i p Hp) as Hi'. destruct i as [| i].
  - by subst p.
  - destruct Hi' as (q & -> & Hq). simpl. rewrite parent_lookup.
    destruct (lookup_lt_is_Some_2 (parents f) q) as [p' Hp']; [rewrite parents_length; lia |].
    rewrite Hp'. pose proof (Hok q p' Hp') as Hq'. destruct q as [| q].
    + by subst p'.
    + destruct Hq' as (q' & -> & _). simpl. apply (IH (S q)); lia.
Qed.

Lemma parentsOk_topAncestor f this :
  parentsOk f -> this < length (blocks f) -> getTopAncestor this f = 0.
Proof.
  intros Hok Hi. unfold getTopAncestor.
  rewrite (topAncestorFrom_root f Hok) by lia. by destruct this.
Qed.

Lemma getLocalFrom_fuel f x :
  parentsOk f ->
  forall fuel fuel' i, i < fuel -> i < fuel' ->
    getLocalFrom fuel (blocks f) (Some i) x = getLocalFrom fuel' (blocks f) (Some i) x.
Proof.
  intros Hok. induction fuel as [| fuel IH]; intros fuel' i H1 H2; [lia |].
  destruct fuel' as [| fuel']; [lia |]. simpl.
  destruct (blocks f !! i) as [b |] eqn:Hb; [| done].
  destruct (locals b !! x); [done |].
  assert (Hp : parents f !! i = Some (parent b)).
  { unfold parents. by rewrite list_lookup_fmap, Hb. }
  pose proof (Hok i _ Hp) as Hi. destruct i as [| i].
  - rewrite Hi. by destruct fuel, fuel'.
  - destruct Hi as (q & -> & Hq). apply IH; lia.
Qed.

Lemma getLocal_step f c b x :
  parentsOk f -> blocks f !! c = Some b ->
  getLocal c x f
  = match locals b !! x with
    | Some l => Some (c, l)
    | None => parent b ≫= fun p => getLocal p x f
    end.
Proof.
  intros Hok Hb. unfold getLocal at 1. simpl. rewrite Hb.
  destruct (locals b !! x); [done |].
  assert (Hp : parents f !! c = Some (parent b)).
  { unfold parents. by rewrite list_lookup_fmap, Hb. }
  pose proof (Hok c _ Hp) as Hc. apply lookup_lt_Some in Hb.
  destruct c as [| c].
  - rewrite Hc. simpl. by destruct (length (blocks f)).
  - destruct Hc as (q & -> & Hq). simpl. unfold getLocal.
    apply getLocalFrom_fuel; [done | lia | lia].
Qed.

(** Every block of a file under a walk has the file root as top ancestor. *)
Lemma processFile_topAncestor pass tree subdir name f this :
  processFile pass (newLuaFile tree subdir name) = Some f ->
  this < length (blocks f) -> getTopAncestor this f = 0.
Proof.
  intros H. apply parentsOk_topAncestor.
  apply (processFile_parentsOk _ _ _ H); [done | apply newLuaFile_parentsOk].
Qed.

(** ** Require calls *)

(** C1 (defect in the code).  [tryReadRequire] reads [arguments.at(1)], the
    second argument: a call [require(arg)] with a single argument is never
    recognised, whatever the argument, and is walked as an ordinary call,
    while a call with two arguments is recognised by its second one.  The
    string-call form does what is expected of both: its argument is
    normalised by [getFileIdentifier] and recorded.  For [require("a/b/c")]
    the enclosing file ends up with no file dependency and with a global
    dependency on the name [require]; for [require "a/b/c"] it records the
    identity [a/b/c]. *)
Theorem require_call_with_one_argument_is_not_recorded :
  (forall pass arg f,
      tryReadRequire pass (CallExpression (Identifier "require") [arg]) f = (false, f))
  /\ (forall pass first v raw f,
        truthy v = true ->
        tryReadRequire pass
          (CallExpression (Identifier "require") [first; StringLiteral (Some v) raw]) f
        = (true, addFileDependency pass (getFileIdentifier v) f))
  /\ (forall pass v raw f,
        truthy v = true ->
        tryReadRequire pass
          (StringCallExpression (Identifier "require") (StringLiteral (Some v) raw)) f
        = (true, addFileDependency pass (getFileIdentifier v) f))
  /\ getFileIdentifier "a/b/c" = "a/b/c"
  /\ getFileIdentifier "a\b.c.lua" = "a/b/c"
  /\ (fileDependencies <$>
        processFile DependencyResolution
          (newLuaFile [CallStatement Sample.requireCall] Shared "main")) = Some []
  /\ (globalDependencies <$>
        processFile DependencyResolution
          (newLuaFile [CallStatement Sample.requireCall] Shared "main")) = Some ["require"]
  /\ (fileDependencies <$>
        processFile DependencyResolution
          (newLuaFile [CallStatement Sample.requireString] Shared "main")) = Some ["a/b/c"].
Proof.
  split; [intros pass arg f; reflexivity |].
  split; [intros pass first v raw f Hv; unfold tryReadRequire; simpl; by repeat (rewrite Hv; simpl) |].
  split; [intros pass v raw f Hv; unfold tryReadRequire; simpl; by repeat (rewrite Hv; simpl) |].
  repeat split; vm_compute; reflexivity.
Qed.

(** ** Local declarations *)

(** A name bound in a block is found there, and a name bound in a scope is
    found from every scope nested in it. *)
Lemma getLocal_own f this b x l :
  blocks f !! this = Some b -> locals b !! x = Some l -> getLocal this x f = Some (this, l).
Proof. intros Hb Hl. unfold getLocal. simpl. by rewrite Hb, Hl. Qed.

Lemma getLocal_nested f c a x :
  parentsOk f -> rtc (childOf f) c a -> is_Some (getLocal a x f) -> is_Some (getLocal c x f).
Proof.
  intros Hok Hrtc Ha. induction Hrtc as [a | c p a Hcp _ IH]; [done |].
  specialize (IH Ha). unfold childOf in Hcp.
  destruct (blocks f !! c) as [b |] eqn:Hb; simpl in Hcp; [| done].
  rewrite (getLocal_step f c b x Hok Hb). destruct (locals b !! x); [done |].
  by rewrite Hcp.
Qed.

Lemma setLocal_keeps this l k f :
  is_Some (localAt this k f) -> is_Some (localAt this k (onBlock this (setLocal l) f)).
Proof.
  unfold localAt, onBlock. simpl. rewrite list_lookup_alter_eq.
  destruct (blocks f !! this) as [b |]; simpl; [| done].
  intros H. destruct (decide (local_name l = k)) as [<- | Hne].
  - by rewrite lookup_insert_eq.
  - by rewrite lookup_insert_ne.
Qed.

Lemma setLocal_binds this l f :
  this < length (blocks f) ->
  is_Some (localAt this (local_name l) (onBlock this (setLocal l) f)).
Proof.
  intros Hlt. destruct (lookup_lt_is_Some_2 _ _ Hlt) as [b Hb].
  unfold localAt, onBlock. simpl. rewrite list_lookup_alter_eq, Hb. simpl.
  by rewrite lookup_insert_eq.
Qed.

Lemma bindAll_keeps this a expr k :
  forall f, is_Some (localAt this k f) -> is_Some (localAt this k (bindAll this a expr f)).
Proof.
  unfold bindAll. induction expr as [| y expr IH]; intros f H; simpl; [done |].
  apply IH. by apply setLocal_keeps.
Qed.

Lemma bindAll_binds this a expr x :
  forall f, this < length (blocks f) -> x ∈ expr ->
    is_Some (localAt this (identName x) (bindAll this a expr f)).
Proof.
  induction expr as [| y expr IH]; intros f Hlt Hin; [by apply not_elem_of_nil in Hin |].
  apply elem_of_cons in Hin as [-> | Hin].
  - apply (bindAll_keeps this a expr (identName y)).
    by apply (setLocal_binds this (mkLocal (identName y) [a])).
  - apply (IH (onBlock this (setLocal (mkLocal (identName y) [a])) f)); [| done].
    unfold onBlock. simpl. by rewrite length_alter.
Qed.

Lemma localAt_getLocal this k f :
  is_Some (localAt this k f) -> fst <$> getLocal this k f = Some this.
Proof.
  unfold localAt. destruct (blocks f !! this) as [b |] eqn:Hb; simpl; [| by intros []].
  intros [l Hl]. by rewrite (getLocal_own f this b k l).
Qed.

(** C3 (defect in the code).  In the dependency-resolution pass
    [addLocalAssignment] returns from inside its loop, so only the first
    name of [local a, b = 1, 2] is bound: the later read of [b] is recorded
    as a global dependency.  What the claim says does hold of the first
    name in that pass and of every name in the type-resolution pass: the
    name is bound in the scope of the declaration, a name bound in a scope
    is found from every scope nested in it, and reading a name that is
    found records nothing. *)
Theorem second_local_name_is_read_as_global :
  (globalDependencies <$>
     processFile DependencyResolution (newLuaFile Sample.twoLocals Shared "main"))
  = Some ["print"; "b"]
  /\ (forall this a b rest rhs existingLocal f,
        addLocalAssignment DependencyResolution this (a :: b :: rest) rhs existingLocal f
        = onBlock this (setLocal (mkLocal (identName a) [])) f)
  /\ (forall this a rest rhs existingLocal f,
        this < length (blocks f) ->
        fst <$> getLocal this (identName a)
                  (addLocalAssignment DependencyResolution this (a :: rest) rhs existingLocal f)
        = Some this)
  /\ (forall this lhs rhs x f,
        this < length (blocks f) -> x ∈ lhs ->
        fst <$> getLocal this (identName x)
                  (addLocalAssignment TypeResolution this lhs rhs None f)
        = Some this)
  /\ (forall f c a x,
        parentsOk f -> rtc (childOf f) c a ->
        is_Some (getLocal a x f) -> is_Some (getLocal c x f))
  /\ (forall pass x block w,
        is_Some (getLocal block x (cur w)) ->
        readExpression pass (Identifier x) block w = w)
  /\ ((fun f => (fst <$> getLocal 0 "a" f, fst <$> getLocal 0 "b" f)) <$>
        processFile TypeResolution (newLuaFile Sample.twoLocals Shared "main"))
     = Some (Some 0, Some 0).
Proof.
  split; [vm_compute; reflexivity |].
  split; [reflexivity |].
  split.
  { intros this a rest rhs existingLocal f Hlt. apply localAt_getLocal.
    by apply (setLocal_binds this (mkLocal (identName a) [])). }
  split.
  { intros this lhs rhs x f Hlt Hin. apply localAt_getLocal.
    unfold addLocalAssignment, allocAssignment.
    unfold localAt, onBlock at 1. cbn [blocks withBlocks].
    rewrite list_lookup_alter_eq.
    pose proof (bindAll_binds this (length (assignmentHeap f)) lhs x
                  (withAssignmentHeap
                     (assignmentHeap f ++ [mkAssignment (map (fun _ => ATLocal) lhs) lhs rhs]) f)
                  Hlt Hin) as H.
    unfold localAt in H.
    destruct (blocks (bindAll _ _ _ _) !! this) as [b |]; simpl in *; done. }
  split; [intros f c a x; apply getLocal_nested |].
  split.
  { intros pass x block w [l Hl]. simpl. by rewrite Hl. }
  vm_compute. reflexivity.
Qed.

(** ** Pass gates *)

(** C10.  In the type-resolution pass [addFileDependency],
    [addGlobalDependency] and [addGlobalSet] return the file unchanged,
    and a whole walk of a file in that pass leaves its identity, group and
    three dependency sets as they were; in the dependency-resolution pass
    [addCall] and [addReturn] return the file, hence the block's element
    and return lists, unchanged. *)
Theorem passes_are_gated :
  (forall name f, addFileDependency TypeResolution name f = f)
  /\ (forall name f, addGlobalDependency TypeResolution name f = f)
  /\ (forall name f, addGlobalSet TypeResolution name f = f)
  /\ (forall file f, processFile TypeResolution file = Some f -> headerOf f = headerOf file)
  /\ (forall this base arguments f, addCall DependencyResolution this base arguments f = f)
  /\ (forall this statement f, addReturn DependencyResolution this statement f = f).
Proof.
  split; [| split; [| split; [| split; [| split]]]]; try reflexivity.
  apply processFile_header.
Qed.

(** ** Own globals *)

Lemma setDelete_not_in x d deps : x ∉ deps -> x ∉ setDelete d deps.
Proof. unfold setDelete. rewrite list_elem_of_filter. tauto. Qed.

Lemma setDelete_removed x deps : x ∉ setDelete x deps.
Proof. unfold setDelete. rewrite list_elem_of_filter. tauto. Qed.

Lemma dropOwnGlobals_fold x gs :
  forall deps,
    x ∈ gs \/ x ∉ deps ->
    x ∉ fold_left (fun deps dep => setDelete dep deps) gs deps.
Proof.
  induction gs as [| g gs IH]; intros deps H; simpl.
  - destruct H as [H | H]; [by apply not_elem_of_nil in H | done].
  - apply IH. destruct (decide (x = g)) as [-> | Hne].
    + right. apply setDelete_removed.
    + destruct H as [H | H].
      * left. apply elem_of_cons in H as [? | ?]; [done | done].
      * right. by apply setDelete_not_in.
Qed.

Lemma dropOwnGlobals_disjoint f x :
  x ∈ globalsSet (dropOwnGlobals f) -> x ∉ globalDependencies (dropOwnGlobals f).
Proof. simpl. intros H. apply dropOwnGlobals_fold. by left. Qed.

Lemma looseDepsOf_fold (setters : gmap string (list string)) d gs :
  forall acc,
    d ∈ fold_left
          (fun acc x =>
             match setters !! x with
             | Some (setter :: _) => setAdd setter acc
             | _ => acc
             end) gs acc ->
    d ∈ acc \/ exists x rest, x ∈ gs /\ setters !! x = Some (d :: rest).
Proof.
  induction gs as [| g gs IH]; intros acc H; simpl in H; [by left |].
  apply IH in H as [H | (x & rest & Hx & Hs)].
  - destruct (setters !! g) as [[| setter rest] |] eqn:Hg; try by left.
    apply setAdd_elem in H as [-> | H]; [| by left].
    right. exists g, rest. split; [by left | done].
  - right. exists x, rest. split; [by right | done].
Qed.

Lemma looseDepsOf_elem setters file d :
  d ∈ looseDepsOf setters file ->
  exists x rest, x ∈ globalDependencies file /\ setters !! x = Some (d :: rest).
Proof.
  intros H. apply looseDepsOf_fold in H as [H | H]; [by apply not_elem_of_nil in H | done].
Qed.

(** C9.  After [cleanup] (and after its earlier form [finalize]) no global
    the file writes is left among its global dependencies; this holds of
    every file unit [readFile] produces, so every loose dependency later
    derived for the file comes from a global that the file reads and does
    not write: none comes from a global the file defines itself. *)
Theorem own_globals_are_not_dependencies :
  (forall f x, x ∈ globalsSet (cleanup f) -> x ∉ globalDependencies (cleanup f))
  /\ (forall f x, x ∈ globalsSet (finalize f) -> x ∉ globalDependencies (finalize f))
  /\ (forall filePath content subdir name an file an',
        readFile filePath content subdir name an = (Some file, an') ->
        (forall x, x ∈ globalsSet file -> x ∉ globalDependencies file)
        /\ (forall setters d,
              d ∈ looseDepsOf setters file ->
              exists x rest,
                x ∈ globalDependencies file /\ (x ∉ globalsSet file)
                /\ setters !! x = Some (d :: rest))).
Proof.
  split; [| split].
  - intros f x. apply dropOwnGlobals_disjoint.
  - intros f x. apply dropOwnGlobals_disjoint.
  - intros filePath content subdir name an file an' H.
    assert (Hdis : forall x, x ∈ globalsSet file -> x ∉ globalDependencies file).
    { unfold readFile in H. destruct content as [e | e | tree]; try done.
      destruct (processFile (pass an) (newLuaFile tree subdir name)) as [f0 |]; [| done].
      inversion H; subst. intros x. apply dropOwnGlobals_disjoint. }
    split; [exact Hdis |].
    intros setters d Hd. apply looseDepsOf_elem in Hd as (x & rest & Hx & Hs).
    exists x, rest. split; [done |]. split; [| done].
    intros Hw. by apply (Hdis x Hw).
Qed.

(** ** Classification of assignment targets *)

Lemma scopeShape_onBlock i g f :
  (forall b, parent (g b) = parent b /\ dom (locals (g b)) = dom (locals b)) ->
  scopeShape (onBlock i g f) = scopeShape f.
Proof.
  intros Hg. unfold scopeShape, onBlock. simpl.
  rewrite (list_fmap_alter _ g id).
  - apply list_alter_id. done.
  - apply Forall_forall. intros b _. simpl. destruct (Hg b) as [-> ->]. done.
Qed.

Lemma scopeShape_pushLocalAssignment owner key a f :
  scopeShape (pushLocalAssignment owner key a f) = scopeShape f.
Proof.
  apply scopeShape_onBlock. intros b. split; [done |]. simpl.
  apply dom_alter_L.
Qed.

Lemma getLocalFrom_shape fuel bs bs' cur x :
  (fun b => (parent b, dom (locals b))) <$> bs = (fun b => (parent b, dom (locals b))) <$> bs' ->
  fst <$> getLocalFrom fuel bs cur x = fst <$> getLocalFrom fuel bs' cur x.
Proof.
  intros Hs. revert cur. induction fuel as [| fuel IH]; intros [i |]; simpl; try done.
  pose proof (f_equal (fun l => l !! i) Hs) as Hi. simpl in Hi.
  rewrite !list_lookup_fmap in Hi.
  destruct (bs !! i) as [b |], (bs' !! i) as [b' |]; simpl in Hi; try done.
  injection Hi as Hp Hd.
  destruct (locals b !! x) as [l |] eqn:El, (locals b' !! x) as [l' |] eqn:El'; simpl.
  - done.
  - apply (elem_of_dom_2 (D := gset string)) in El. rewrite Hd in El.
    apply elem_of_dom in El as [? El]. congruence.
  - apply (elem_of_dom_2 (D := gset string)) in El'. rewrite <- Hd in El'.
    apply elem_of_dom in El' as [? El']. congruence.
  - rewrite Hp. apply IH.
Qed.

Lemma getLocal_shape this x f f' :
  scopeShape f = scopeShape f' -> fst <$> getLocal this x f = fst <$> getLocal this x f'.
Proof.
  intros Hs. unfold getLocal.
  assert (length (blocks f) = length (blocks f')) as ->.
  { apply (f_equal length) in Hs. unfold scopeShape in Hs. by rewrite !length_fmap in Hs. }
  by apply getLocalFrom_shape.
Qed.

Lemma targetKind_shape this f f' target :
  scopeShape f = scopeShape f' -> targetKind this f target = targetKind this f' target.
Proof.
  intros Hs. destruct target as [x | | | | | | | | | | | | | | |]; try done. simpl.
  pose proof (getLocal_shape this x f f' Hs) as H.
  destruct (getLocal this x f), (getLocal this x f'); done.
Qed.

(** The reference [getLocal] returns is where the local is stored. *)
Lemma getLocalFrom_localAt fuel bs cur x owner l :
  getLocalFrom fuel bs cur x = Some (owner, l) ->
  bs !! owner ≫= (fun b => locals b !! x) = Some l.
Proof.
  revert cur. induction fuel as [| fuel IH]; intros [i |]; simpl; try done.
  destruct (bs !! i) as [b |] eqn:Eb; [| done].
  destruct (locals b !! x) as [l0 |] eqn:El.
  - intros H. simplify_eq. rewrite Eb. done.
  - apply IH.
Qed.

Lemma getLocal_localAt this x f owner l :
  getLocal this x f = Some (owner, l) -> localAt owner x f = Some l.
Proof. apply getLocalFrom_localAt. Qed.


Lemma classifyTargets_cons pass this file a i target rest f :
  classifyTargets pass this file a i (target :: rest) f
  = classifyTargets pass this file a (S i) rest (classifyTarget pass this file a i target f).
Proof. reflexivity. Qed.

Lemma classifyTarget_shape pass this file a i target f :
  scopeShape (classifyTarget pass this file a i target f) = scopeShape f.
Proof.
  unfold classifyTarget. simpl.
  destruct target as [x | | | | | | | | | | | | | | |]; try done.
  destruct (getLocal this x f) as [[owner l] |].
  - destruct pass; [done |]. by rewrite scopeShape_pushLocalAssignment.
  - case_bool_decide; [by destruct pass | done].
Qed.

Lemma classifyTarget_heap pass this file a i target f r :
  assignmentHeap f !! a = Some r ->
  assignmentHeap (classifyTarget pass this file a i target f) !! a
  = Some (mkAssignment
            (match targetKind this f target with
             | ATGlobal => assignTypes r
             | t => <[i := t]> (assignTypes r)
             end) (lhs r) (rhs r)).
Proof.
  intros Hr. unfold classifyTarget. simpl.
  assert (Hset : forall t f0, assignmentHeap f0 = assignmentHeap f ->
            assignmentHeap (setAssignType a i t f0) !! a
            = Some (mkAssignment (<[i := t]> (assignTypes r)) (lhs r) (rhs r))).
  { intros t f0 E. unfold setAssignType. simpl.
    rewrite list_lookup_alter_eq, E, Hr. done. }
  destruct target as [x | | | | | | | | | | | | | | |]; simpl; try (by apply Hset).
  destruct (getLocal this x f) as [[owner l] |].
  - destruct pass; [by apply Hset |].
    unfold pushLocalAssignment, onBlock. simpl. rewrite list_lookup_alter_eq, Hr. done.
  - destruct r. case_bool_decide; [by destruct pass | done].
Qed.

Lemma classifyTargets_tags pass this file a L R targets :
  forall i f finished,
    length finished = i ->
    assignmentHeap f !! a
    = Some (mkAssignment (finished ++ map (fun _ => ATGlobal) targets) L R) ->
    assignmentHeap (classifyTargets pass this file a i targets f) !! a
    = Some (mkAssignment (finished ++ map (targetKind this f) targets) L R).
Proof.
  induction targets as [| target rest IH]; intros i f finished Hlen Hheap; [done |].
  rewrite classifyTargets_cons.
  pose proof (classifyTarget_shape pass this file a i target f) as Hshape.
  pose proof (classifyTarget_heap pass this file a i target f _ Hheap) as Hstep.
  simpl in Hstep.
  assert (Hnext : assignmentHeap (classifyTarget pass this file a i target f) !! a
            = Some (mkAssignment
                      ((finished ++ [targetKind this f target])
                       ++ map (fun _ => ATGlobal) rest) L R)).
  { rewrite Hstep. f_equal. f_equal. rewrite <- app_assoc. simpl.
    destruct (targetKind this f target) eqn:Ek; try done;
      subst i; rewrite insert_app_r_alt by lia;
      rewrite Nat.sub_diag; done. }
  specialize (IH (S i) (classifyTarget pass this file a i target f)
                (finished ++ [targetKind this f target])).
  rewrite IH; [| rewrite length_app; simpl; lia | exact Hnext].
  rewrite <- app_assoc. simpl. f_equal. f_equal. f_equal. f_equal.
  apply map_ext. intros t. symmetry. by apply targetKind_shape.
Qed.

Lemma localAt_pushLocalAssignment owner x o k a f :
  localAt owner x (pushLocalAssignment o k a f)
  = if decide (o = owner /\ k = x)
    then (fun l => mkLocal (local_name l) (local_assignments l ++ [a])) <$> localAt owner x f
    else localAt owner x f.
Proof.
  unfold localAt, pushLocalAssignment, onBlock. simpl.
  destruct (decide (o = owner)) as [-> | Hne].
  - rewrite list_lookup_alter_eq. destruct (blocks f !! owner) as [b |]; simpl.
    + destruct (decide (k = x)) as [-> | Hk].
      * rewrite lookup_alter_eq. by rewrite decide_True.
      * rewrite lookup_alter_ne by done. by rewrite decide_False by tauto.
    + by case_decide.
  - rewrite list_lookup_alter_ne by done. by rewrite decide_False by tauto.
Qed.

Lemma recorded_pushLocalAssignment owner x a o k a' f :
  recorded owner x a f -> recorded owner x a (pushLocalAssignment o k a' f).
Proof.
  intros (l & Hl & Ha). unfold recorded. rewrite localAt_pushLocalAssignment.
  case_decide; [| by exists l]. rewrite Hl. simpl. eexists. split; [done |].
  simpl. apply elem_of_app. by left.
Qed.

Lemma classifyTarget_keeps_recorded pass this file a i target owner x a0 f :
  recorded owner x a0 f -> recorded owner x a0 (classifyTarget pass this file a i target f).
Proof.
  intros H. unfold classifyTarget. simpl.
  destruct target as [y | | | | | | | | | | | | | | |]; try done.
  destruct (getLocal this y f) as [[o l] |].
  - destruct pass; [done |]. by apply recorded_pushLocalAssignment.
  - case_bool_decide; [by destruct pass | done].
Qed.

Lemma classifyTargets_keep_recorded pass this file a owner x a0 targets :
  forall i f, recorded owner x a0 f ->
              recorded owner x a0 (classifyTargets pass this file a i targets f).
Proof.
  induction targets as [| target rest IH]; intros i f H; [done |].
  rewrite classifyTargets_cons. by apply IH, classifyTarget_keeps_recorded.
Qed.

Lemma classifyTargets_shape pass this file a targets :
  forall i f, scopeShape (classifyTargets pass this file a i targets f) = scopeShape f.
Proof.
  induction targets as [| target rest IH]; intros i f; [done |].
  rewrite classifyTargets_cons, IH. apply classifyTarget_shape.
Qed.

Lemma classifyTargets_recorded this file a x owner targets :
  forall i f,
    In (Identifier x) targets ->
    fst <$> getLocal this x f = Some owner ->
    recorded owner x a (classifyTargets TypeResolution this file a i targets f).
Proof.
  induction targets as [| target rest IH]; intros i f Hin Hbound; [done |].
  rewrite classifyTargets_cons.
  destruct Hin as [-> | Hin].
  - apply classifyTargets_keep_recorded.
    unfold classifyTarget. simpl.
    destruct (getLocal this x f) as [[o l] |] eqn:E; [| done].
    simpl in Hbound. simplify_eq.
    apply getLocal_localAt in E.
    unfold recorded. rewrite localAt_pushLocalAssignment, decide_True by done.
    unfold localAt in *. simpl. rewrite E. simpl. eexists. split; [done |].
    simpl. apply elem_of_app. right. by left.
  - apply IH; [done |].
    rewrite <- Hbound. apply getLocal_shape, classifyTarget_shape.
Qed.

Lemma classifyTarget_globals_mono pass this file a i target x f :
  x ∈ globalsSet f -> x ∈ globalsSet (classifyTarget pass this file a i target f).
Proof.
  intros H. unfold classifyTarget. simpl.
  destruct target as [y | | | | | | | | | | | | | | |]; try done.
  destruct (getLocal this y f) as [[o l] |].
  - by destruct pass.
  - case_bool_decide; [| done]. destruct pass; [by apply setAdd_mono | done].
Qed.

Lemma classifyTargets_globals_mono pass this file a x targets :
  forall i f, x ∈ globalsSet f -> x ∈ globalsSet (classifyTargets pass this file a i targets f).
Proof.
  induction targets as [| target rest IH]; intros i f H; [done |].
  rewrite classifyTargets_cons. by apply IH, classifyTarget_globals_mono.
Qed.

Lemma classifyTargets_global_write this a x targets :
  forall i f,
    In (Identifier x) targets ->
    getLocal this x f = None ->
    x ∈ globalsSet (classifyTargets DependencyResolution this 0 a i targets f).
Proof.
  induction targets as [| target rest IH]; intros i f Hin Hfree; [done |].
  rewrite classifyTargets_cons.
  destruct Hin as [-> | Hin].
  - apply classifyTargets_globals_mono.
    unfold classifyTarget. simpl. rewrite Hfree. simpl. apply setAdd_here.
  - apply IH; [done |].
    pose proof (getLocal_shape this x _ _
                  (classifyTarget_shape DependencyResolution this 0 a i target f)) as H.
    rewrite Hfree in H. by destruct (getLocal this x (classifyTarget _ _ _ _ _ _ _)).
Qed.

Lemma classifyTargets_blocks this file a targets :
  forall i f, blocks (classifyTargets DependencyResolution this file a i targets f) = blocks f.
Proof.
  induction targets as [| target rest IH]; intros i f; [done |].
  rewrite classifyTargets_cons, IH. unfold classifyTarget. simpl.
  destruct target as [y | | | | | | | | | | | | | | |]; try done.
  destruct (getLocal this y f) as [[o l] |]; [done |]. by case_bool_decide.
Qed.

Lemma localAt_pushElement owner x this e f :
  localAt owner x (onBlock this (pushElement e) f) = localAt owner x f.
Proof.
  unfold localAt, onBlock. simpl.
  destruct (decide (this = owner)) as [-> | Hne].
  - rewrite list_lookup_alter_eq. by destruct (blocks f !! owner).
  - by rewrite list_lookup_alter_ne.
Qed.

Lemma scopeShape_pushElement this e f :
  scopeShape (onBlock this (pushElement e) f) = scopeShape f.
Proof. by apply scopeShape_onBlock. Qed.

Lemma fold_left_ext {A B} (g h : A -> B -> A) l a :
  (forall a b, g a b = h a b) -> fold_left g l a = fold_left h l a.
Proof. intros E. revert a. induction l as [| b l IH]; intros a; simpl; [done |]. by rewrite E, IH. Qed.

(** The initializers are read first, then the base of every target that is
    not an identifier. *)
Lemma prepareAssignment_reads pass variables init block w :
  (prepareAssignment pass variables init block w).2
  = fold_left
      (fun w variable =>
         match variable with
         | MemberExpression base _ _ | IndexExpression base _ =>
             readExpression pass base block w
         | _ => w
         end) variables
      (fold_left
         (fun w r => from_option (fun e => readExpression pass e block w) w r)
         (imap (fun i _ => init !! i) variables) w).
Proof.
  unfold prepareAssignment. simpl.
  rewrite (fold_left_ext _
             (fun w variable =>
                match variable with
                | MemberExpression base _ _ | IndexExpression base _ =>
                    readExpression pass base block w
                | _ => w
                end) variables); [| intros w' v; by destruct v].
  reflexivity.
Qed.




(** ** Reading the input tree *)


Lemma readEntry_pending subdir dirPath entry s :
  pending (readEntry subdir dirPath entry s)
  = match entry with
    | DirectoryEntry n d => (pathJoin dirPath n, d) :: pending s
    | _ => pending s
    end.
Proof.
  destruct entry as [n content | n d | n]; simpl; try done.
  destruct (isLuaFile n); [| done].
  by destruct (readFile _ _ _ _ _) as [[block |] an].
Qed.

Lemma readEntries_pendingDirs subdir dirPath entries :
  forall s,
    pendingDirs (pending (fold_left (fun s entry => readEntry subdir dirPath entry s) entries s))
    = sum_list (map entryDirs entries) + pendingDirs (pending s).
Proof.
  induction entries as [| entry entries IH]; intros s; simpl; [done |].
  rewrite IH, readEntry_pending.
  destruct entry; unfold pendingDirs; simpl; lia.
Qed.

Lemma scanDirectory_pendingDirs subdir dirPath d s :
  S (pendingDirs (pending (scanDirectory subdir dirPath d s)))
  = dirCount d + pendingDirs (pending s).
Proof.
  destruct d as [entries scanError]. simpl.
  rewrite <- readEntries_pendingDirs with (subdir := subdir) (dirPath := dirPath).
  by destruct scanError.
Qed.

Lemma readDirectoryLoop_total subdir fuel :
  forall s, pendingDirs (pending s) <= fuel -> is_Some (readDirectoryLoop subdir fuel s).
Proof.
  induction fuel as [| fuel IH]; intros [pd fm an]; destruct pd as [| [dirPath d] rest]; simpl;
    intros Hle; eauto.
  - unfold pendingDirs in Hle. simpl in Hle. destruct d. simpl in Hle. lia.
  - apply IH.
    pose proof (scanDirectory_pendingDirs subdir dirPath d (mkScan rest fm an)) as H.
    unfold pendingDirs in Hle, H |- *. simpl in *. lia.
Qed.

Lemma readDirectory_total subdir root fileMap an :
  is_Some (readDirectory subdir root fileMap an).
Proof.
  apply readDirectoryLoop_total. unfold pendingDirs. simpl. lia.
Qed.

Lemma readGroups_total input subdirs :
  forall files an, is_Some (readGroups input subdirs files an).
Proof.
  induction subdirs as [| subdir rest IH]; intros files an; simpl; [eauto |].
  destruct (readDirectory_total subdir (input subdir) (files subdir) an) as [[rec an'] ->].
  apply IH.
Qed.

(** Every input tree is read to the end. *)
Lemma readAllFiles_total input : is_Some (readAllFiles input).
Proof. apply readGroups_total. Qed.

(** *** A failing file changes nothing but the diagnostics *)

Lemma sameTables_refl an : sameTables an an.
Proof. done. Qed.

Lemma sameTables_pushError d an an' : sameTables an an' -> sameTables (pushError d an) an'.
Proof. done. Qed.

Lemma sameTables_pushError_both d d' an an' :
  sameTables an an' -> sameTables (pushError d an) (pushError d' an').
Proof. done. Qed.

Lemma readFile_failing filePath content subdir name an :
  failing content = true ->
  exists d, readFile filePath content subdir name an = (None, pushError d an).
Proof. destruct content; simpl; [eauto | eauto | done]. Qed.

Lemma readFile_parsed filePath tree subdir name an :
  exists file,
    readFile filePath (Parsed tree) subdir name an
    = (Some file, recordSetters name (globalsSet file) an).
Proof.
  simpl. destruct (processFile_total (pass an) (newLuaFile tree subdir name)) as [f ->].
  by exists (cleanup f).
Qed.

Lemma readFile_sameTables filePath tree subdir name an an' :
  sameTables an an' ->
  (readFile filePath (Parsed tree) subdir name an).1
  = (readFile filePath (Parsed tree) subdir name an').1
  /\ sameTables (readFile filePath (Parsed tree) subdir name an).2
       (readFile filePath (Parsed tree) subdir name an').2
  /\ errors (readFile filePath (Parsed tree) subdir name an).2 = errors an
  /\ errors (readFile filePath (Parsed tree) subdir name an').2 = errors an'.
Proof.
  intros (Hp & Hg & Ha). simpl. rewrite <- Hp.
  destruct (processFile (pass an) (newLuaFile tree subdir name)) as [f |]; simpl; [| done].
  repeat split; try done. simpl. by rewrite Hg.
Qed.



Lemma readEntries_agree subdir dirPath total total' entries :
  forall s s',
    scansAgree s s' ->
    length (errors (analyzer s)) + pendingFailures (pending s)
      + sum_list (map failuresEntry entries) + total'
    = length (errors (analyzer s')) + total ->
    let r := fold_left (fun s entry => readEntry subdir dirPath entry s) entries s in
    let r' := fold_left (fun s entry => readEntry subdir dirPath entry s)
                (omap pruneEntry entries) s' in
    scansAgree r r'
    /\ length (errors (analyzer r)) + pendingFailures (pending r) + total'
       = length (errors (analyzer r')) + total.
Proof.
  induction entries as [| entry entries IH]; intros s s' Hs Hcount.
  - simpl in *. split; [done | lia].
  - destruct Hs as (Hpend & Hmap & Htab).
    destruct entry as [n content | n d | n].
    + (* a file *)
      cbn [omap list_omap pruneEntry fold_left map sum_list failuresEntry] in *.
      destruct (isLuaFile n) eqn:Hlua; rewrite ?Hlua in Hcount; cbn [andb] in *.
      * destruct (failing content) eqn:Hfail; rewrite ?Hfail in Hcount.
        -- destruct (readFile_failing (pathJoin dirPath n) content subdir
                       (getFileIdentifier (pathJoin dirPath n)) (analyzer s) Hfail) as [dg Hr].
           apply IH.
           ++ unfold scansAgree, readEntry. rewrite Hlua, Hr. simpl. done.
           ++ unfold readEntry. rewrite Hlua, Hr. simpl. rewrite length_app. simpl. unfold id in *. lia.
        -- destruct content as [e | e | tree]; try done.
           cbn [fold_left].
           destruct (readFile_sameTables (pathJoin dirPath n) tree subdir
                       (getFileIdentifier (pathJoin dirPath n)) _ _ Htab)
             as (Hfst & Hsame & He & He').
           apply IH.
           ++ unfold scansAgree, readEntry. rewrite Hlua.
              destruct (readFile _ (Parsed tree) _ _ (analyzer s)) as [[b |] an1],
                       (readFile _ (Parsed tree) _ _ (analyzer s')) as [[b' |] an1'];
                simpl in *; simplify_eq; try done.
              rewrite Hmap. destruct Hsame as (? & ? & Hal). repeat split; try done.
              simpl. by rewrite Hal.
           ++ unfold readEntry. rewrite Hlua.
              destruct (readFile _ (Parsed tree) _ _ (analyzer s)) as [[b |] an1],
                       (readFile _ (Parsed tree) _ _ (analyzer s')) as [[b' |] an1'];
                simpl in *; simplify_eq; rewrite ?He, ?He'; unfold id in *; lia.
      * cbn [fold_left]. apply IH.
        -- unfold readEntry. rewrite Hlua. done.
        -- unfold readEntry. rewrite Hlua. unfold id in *. lia.
    + (* a directory *)
      cbn [omap list_omap pruneEntry fold_left map sum_list failuresEntry] in *.
      apply IH.
      * unfold scansAgree. simpl. rewrite Hpend. done.
      * unfold pendingFailures in *. simpl in *. unfold id in *. lia.
    + cbn [omap list_omap pruneEntry fold_left map sum_list failuresEntry] in *.
      apply IH; [done | simpl; unfold id in *; lia].
Qed.

Lemma scanDirectory_agree subdir dirPath total total' d s s' :
  scansAgree s s' ->
  length (errors (analyzer s)) + pendingFailures (pending s) + failuresDir d + total'
  = length (errors (analyzer s')) + total ->
  scansAgree (scanDirectory subdir dirPath d s) (scanDirectory subdir dirPath (pruneDir d) s')
  /\ length (errors (analyzer (scanDirectory subdir dirPath d s)))
     + pendingFailures (pending (scanDirectory subdir dirPath d s)) + total'
     = length (errors (analyzer (scanDirectory subdir dirPath (pruneDir d) s'))) + total.
Proof.
  intros Hs Hcount. destruct d as [entries scanError]. cbn [pruneDir scanDirectory].
  cbn [failuresDir] in Hcount.
  destruct (readEntries_agree subdir dirPath total total' entries s s' Hs Hcount) as [Hr Hc].
  destruct scanError as [e |]; [| done].
  destruct Hr as (Hp & Hm & Ht). split.
  - done.
  - simpl in *. rewrite !length_app. simpl. lia.
Qed.

Lemma readDirectoryLoop_agree subdir total total' fuel :
  forall fuel' s s',
    scansAgree s s' ->
    length (errors (analyzer s)) + pendingFailures (pending s) + total'
    = length (errors (analyzer s')) + total ->
    pendingDirs (pending s) <= fuel ->
    pendingDirs (pending s') <= fuel' ->
    exists rec an an',
      readDirectoryLoop subdir fuel s = Some (rec, an)
      /\ readDirectoryLoop subdir fuel' s' = Some (rec, an')
      /\ sameTables an an'
      /\ length (errors an) + total' = length (errors an') + total.
Proof.
  induction fuel as [| fuel IH]; intros fuel' [pd fm an] [pd' fm' an'] Hs Hcount Hf Hf';
    destruct Hs as (Hp & Hm & Ht); simpl in Hp, Hm, Ht; subst fm';
    destruct pd as [| [dirPath d] rest]; simpl in Hp; subst pd'.
  - exists fm, an, an'. destruct fuel'; simpl; repeat split; try apply Ht; try done;
      unfold pendingFailures in Hcount; simpl in Hcount; lia.
  - unfold pendingDirs in Hf. simpl in Hf. destruct d. simpl in Hf. lia.
  - exists fm, an, an'. destruct fuel'; simpl; repeat split; try apply Ht; try done;
      unfold pendingFailures in Hcount; simpl in Hcount; lia.
  - destruct fuel' as [| fuel'].
    { unfold pendingDirs in Hf'. simpl in Hf'. destruct d. simpl in Hf'. lia. }
    cbn [readDirectoryLoop pending fileMap analyzer].
    destruct (scanDirectory_agree subdir dirPath total total' d
                (mkScan rest fm an)
                (mkScan (map (fun pd => (pd.1, pruneDir pd.2)) rest) fm an'))
      as [Hs1 Hc1].
    + done.
    + unfold pendingFailures in *. simpl in *. lia.
    + apply IH; try done.
      * pose proof (scanDirectory_pendingDirs subdir dirPath d (mkScan rest fm an)) as H.
        unfold pendingDirs in Hf, H |- *. simpl in *. lia.
      * pose proof (scanDirectory_pendingDirs subdir dirPath (pruneDir d)
                      (mkScan (map (fun pd => (pd.1, pruneDir pd.2)) rest) fm an')) as H.
        unfold pendingDirs in Hf', H |- *. simpl in *. lia.
Qed.

Lemma readDirectory_agree subdir root fileMap an an' :
  sameTables an an' ->
  exists rec an1 an1',
    readDirectory subdir root fileMap an = Some (rec, an1)
    /\ readDirectory subdir (pruneDir root) fileMap an' = Some (rec, an1')
    /\ sameTables an1 an1'
    /\ length (errors an1) + length (errors an')
       = length (errors an1') + length (errors an) + failuresDir root.
Proof.
  intros Ht. unfold readDirectory.
  destruct (readDirectoryLoop_agree subdir
              (length (errors an) + failuresDir root) (length (errors an'))
              (dirCount root) (dirCount (pruneDir root))
              (mkScan [("", root)] fileMap an)
              (mkScan [("", pruneDir root)] fileMap an'))
    as (rec & an1 & an1' & H1 & H2 & Hs & Hc).
  - done.
  - unfold pendingFailures. simpl. lia.
  - unfold pendingDirs. simpl. lia.
  - unfold pendingDirs. simpl. lia.
  - exists rec, an1, an1'. split; [done |]. split; [done |]. split; [done |]. lia.
Qed.

Lemma readGroups_agree input subdirs :
  forall files an an',
    sameTables an an' ->
    exists files1 an1 an1',
      readGroups input subdirs files an = Some (files1, an1)
      /\ readGroups (fun sd => pruneDir (input sd)) subdirs files an' = Some (files1, an1')
      /\ sameTables an1 an1'
      /\ length (errors an1) + length (errors an')
         = length (errors an1') + length (errors an)
           + sum_list (map (fun sd => failuresDir (input sd)) subdirs).
Proof.
  induction subdirs as [| subdir rest IH]; intros files an an' Ht.
  - exists files, an, an'. simpl. split; [done |]. split; [done |]. split; [done |]. lia.
  - destruct (readDirectory_agree subdir (input subdir) (files subdir) an an' Ht)
      as (rec & an1 & an1' & H1 & H2 & Ht1 & Hc1).
    destruct (IH (setGroup subdir rec files) an1 an1' Ht1)
      as (files2 & an2 & an2' & H3 & H4 & Ht2 & Hc2).
    exists files2, an2, an2'. simpl. rewrite H1, H2.
    split; [done |]. split; [done |]. split; [done |].
    unfold sum_list, id in *. lia.
Qed.


(** *** What reading establishes *)

Section ReadingInvariant.

Variable Inv : Files -> Analyzer -> Prop.

Hypothesis Inv_ext :
  forall files files' an, (forall subdir, files subdir = files' subdir) ->
                          Inv files an -> Inv files' an.
Hypothesis Inv_error : forall files an d, Inv files an -> Inv files (pushError d an).
Hypothesis Inv_file :
  forall files an subdir dirPath n tree walked,
    isLuaFile n = true ->
    processFile (pass an) (newLuaFile tree subdir (getFileIdentifier (pathJoin dirPath n)))
    = Some walked ->
    Inv files an ->
    Inv (setGroup subdir
           (recSet (getFileIdentifier (pathJoin dirPath n)) (cleanup walked) (files subdir))
           files)
        (registerAliases (getFileIdentifier (pathJoin dirPath n))
           (recordSetters (getFileIdentifier (pathJoin dirPath n))
              (globalsSet (cleanup walked)) an)).


Lemma setGroup_same subdir rec files sd : 
  setGroup subdir rec files sd = if bool_decide (sd = subdir) then rec else files sd.
Proof. reflexivity. Qed.

Lemma readEntry_during subdir files dirPath entry s :
  during Inv subdir files s -> during Inv subdir files (readEntry subdir dirPath entry s).
Proof.
  unfold during. intros H.
  destruct entry as [n content | n d | n]; simpl; try done.
  destruct (isLuaFile n) eqn:Hlua; [| done].
  destruct content as [e | e | tree]; simpl.
  - by apply Inv_error.
  - by apply Inv_error.
  - destruct (processFile (pass (analyzer s)) _) as [walked |] eqn:Hw; simpl; [| done].
    eapply Inv_ext; [| eapply (Inv_file _ _ subdir dirPath n tree walked Hlua Hw H)].
    intros sd. rewrite !setGroup_same. case_bool_decide; [| done].
    rewrite bool_decide_true by done. done.
Qed.

Lemma scanDirectory_during subdir files dirPath d s :
  during Inv subdir files s -> during Inv subdir files (scanDirectory subdir dirPath d s).
Proof.
  intros H. destruct d as [entries scanError]. simpl.
  assert (Hfold : during Inv subdir files
            (fold_left (fun s entry => readEntry subdir dirPath entry s) entries s)).
  { revert s H. induction entries as [| entry entries IH]; intros s H; simpl; [done |].
    apply IH. by apply readEntry_during. }
  destruct scanError as [e |]; [| done].
  unfold during in *. simpl. by apply Inv_error.
Qed.

Lemma readDirectoryLoop_during subdir files fuel :
  forall s rec an,
    during Inv subdir files s ->
    readDirectoryLoop subdir fuel s = Some (rec, an) ->
    Inv (setGroup subdir rec files) an.
Proof.
  induction fuel as [| fuel IH]; intros [pd fm an0] rec an H;
    destruct pd as [| [dirPath d] rest]; simpl; intros Hr; simplify_eq; try done.
  eapply IH; [| exact Hr]. by apply (scanDirectory_during subdir files dirPath d (mkScan rest fm an0)).
Qed.

Lemma readGroups_invariant input subdirs :
  forall files an files' an',
    Inv files an ->
    readGroups input subdirs files an = Some (files', an') ->
    Inv files' an'.
Proof.
  induction subdirs as [| subdir rest IH]; intros files an files' an' H Hr; simpl in Hr.
  - by simplify_eq.
  - destruct (readDirectory subdir (input subdir) (files subdir) an) as [[rec an1] |] eqn:Hd;
      [| done].
    eapply IH; [| exact Hr].
    eapply readDirectoryLoop_during; [| exact Hd].
    unfold during. simpl. eapply Inv_ext; [| exact H].
    intros sd. rewrite setGroup_same. case_bool_decide; by subst.
Qed.

End ReadingInvariant.

(** *** File identities are not empty *)

Lemma endsWith_suffix s suffix : Str.endsWith s suffix = true -> exists p, s = (p ++ suffix)%string.
Proof.
  induction s as [| c s IH]; cbn [Str.endsWith].
  - destruct (String.eqb "" suffix) eqn:E; [| intros; discriminate].
    apply String.eqb_eq in E. subst. by exists ""%string.
  - destruct (String.eqb (String c s) suffix) eqn:E.
    + apply String.eqb_eq in E. subst. by exists ""%string.
    + intros H. destruct (IH H) as [p ->]. by exists (String c p).
Qed.

Lemma endsWith_append p suffix : Str.endsWith (p ++ suffix)%string suffix = true.
Proof.
  induction p as [| c p IH].
  - change (Str.endsWith suffix suffix = true).
    destruct suffix; cbn [Str.endsWith]; by rewrite ?String.eqb_refl.
  - change (Str.endsWith (String c (p ++ suffix)%string) suffix = true).
    cbn [Str.endsWith]. by destruct (String.eqb _ _).
Qed.

Lemma string_app_cons c p s : (String c p ++ s)%string = String c (p ++ s)%string.
Proof. reflexivity. Qed.

Lemma string_app_nil s : ("" ++ s)%string = s.
Proof. reflexivity. Qed.

Lemma string_length_app p s :
  String.length (p ++ s)%string = String.length p + String.length s.
Proof.
  induction p as [| c p IH]; [done |].
  rewrite string_app_cons. simpl. by rewrite IH.
Qed.

Lemma string_app_assoc a b c : ((a ++ b) ++ c)%string = (a ++ (b ++ c))%string.
Proof.
  induction a as [| x a IH]; [done |].
  rewrite !string_app_cons. by rewrite IH.
Qed.

Lemma dropLast_append p suffix :
  Str.dropLast (String.length suffix) (p ++ suffix)%string = p.
Proof.
  unfold Str.dropLast. rewrite string_length_app.
  replace (String.length p + String.length suffix - String.length suffix)
    with (String.length p) by lia.
  induction p as [| c p IH].
  - rewrite string_app_nil. by destruct suffix.
  - rewrite string_app_cons. simpl. by rewrite IH.
Qed.

Lemma getFileIdentifier_lua dirPath n :
  isLuaFile n = true -> getFileIdentifier (pathJoin dirPath n) <> "".
Proof.
  unfold isLuaFile. intros H. apply andb_true_iff in H as [Hend Hne].
  apply endsWith_suffix in Hend as [p ->].
  assert (Hp : p <> ""%string).
  { intros ->. by rewrite string_app_nil in Hne. }
  assert (Hjoin : exists q, q <> ""%string /\ pathJoin dirPath (p ++ ".lua") = (q ++ ".lua")%string).
  { unfold pathJoin. destruct (String.eqb dirPath ""); [by exists p |].
    exists (dirPath ++ "/" ++ p)%string. split.
    - by destruct dirPath.
    - by rewrite string_app_assoc. }
  destruct Hjoin as (q & Hq & ->).
  unfold getFileIdentifier. rewrite endsWith_append.
  change 4 with (String.length ".lua"). rewrite dropLast_append.
  by destruct q.
Qed.

(** *** Tables *)

Lemma recGet_recSet_eq name file rec : recGet name (recSet name file rec) = Some file.
Proof.
  induction rec as [| [k v] rec IH]; simpl.
  - by rewrite String.eqb_refl.
  - destruct (String.eqb k name) eqn:E; simpl; rewrite E; [done | exact IH].
Qed.

Lemma recGet_recSet_ne name name' file rec :
  name <> name' -> recGet name' (recSet name file rec) = recGet name' rec.
Proof.
  intros Hne. induction rec as [| [k v] rec IH]; simpl.
  - destruct (String.eqb name name') eqn:E; [| done]. by apply String.eqb_eq in E.
  - destruct (String.eqb k name) eqn:E; simpl.
    + apply String.eqb_eq in E. subst k.
      destruct (String.eqb name name') eqn:E'; [| done]. by apply String.eqb_eq in E'.
    + by rewrite IH.
Qed.

Lemma recGet_In name file rec : recGet name rec = Some file -> In (name, file) rec.
Proof.
  induction rec as [| [k v] rec IH]; simpl; [done |].
  destruct (String.eqb k name) eqn:E.
  - apply String.eqb_eq in E. intros H. simplify_eq. by left.
  - intros H. right. by apply IH.
Qed.

Lemma recGet_keys name rec : is_Some (recGet name rec) <-> In name (recKeys rec).
Proof.
  induction rec as [| [k v] rec IH]; simpl.
  - split; [by intros [? ?] | done].
  - destruct (String.eqb k name) eqn:E.
    + apply String.eqb_eq in E. split; [by left | eauto].
    + rewrite IH. split; [by right |]. intros [-> | H]; [| done].
      by rewrite String.eqb_refl in E.
Qed.

Lemma getFile_Some files name file :
  getFile files name = Some file ->
  exists subdir, recGet name (files subdir) = Some file.
Proof.
  unfold getFile. simpl.
  destruct (recGet name (files Shared)) eqn:E1; [intros; simplify_eq; eauto |].
  destruct (recGet name (files Server)) eqn:E2; [intros; simplify_eq; eauto |].
  destruct (recGet name (files Client)) eqn:E3; [intros; simplify_eq; eauto | done].
Qed.

Lemma getFile_is_Some files name :
  is_Some (getFile files name) <-> exists subdir, is_Some (recGet name (files subdir)).
Proof.
  split.
  - intros [file H]. apply getFile_Some in H as [sd H]. exists sd. eauto.
  - intros [sd [file H]]. unfold getFile. simpl.
    destruct (recGet name (files Shared)) eqn:E1; [eauto |].
    destruct (recGet name (files Server)) eqn:E2; [eauto |].
    destruct (recGet name (files Client)) eqn:E3; [eauto |].
    destruct sd; congruence.
Qed.

Lemma tableAdd_members key value table k s n :
  tableAdd key value table !! k = Some s -> n ∈ s ->
  n = value \/ exists s0, table !! k = Some s0 /\ n ∈ s0.
Proof.
  unfold tableAdd. intros H Hn.
  destruct (decide (key = k)) as [-> | Hne].
  - rewrite lookup_insert_eq in H. simplify_eq.
    apply setAdd_elem in Hn as [-> | Hn]; [by left |].
    right. destruct (table !! k) as [s0 |]; simpl in Hn; [eauto |].
    by apply not_elem_of_nil in Hn.
  - rewrite lookup_insert_ne in H by done. eauto.
Qed.

Lemma addAliases_members name fuel :
  forall partialName aliases k s n,
    addAliases fuel name partialName aliases !! k = Some s -> n ∈ s ->
    n = name \/ exists s0, aliases !! k = Some s0 /\ n ∈ s0.
Proof.
  induction fuel as [| fuel IH]; intros partialName aliases k s n H Hn; simpl in H; [eauto |].
  destruct (Str.indexOf "/" partialName) as [slash |]; [| eauto].
  destruct (IH _ _ _ _ _ H Hn) as [-> | (s0 & H0 & Hn0)]; [by left |].
  eapply tableAdd_members; eauto.
Qed.

Lemma tablesOk_start : tablesOk noFiles (startPass DependencyResolution newAnalyzer).
Proof.
  split; [done |]. split; [done |]. intros alias aliasSet target H.
  simpl in H. by rewrite lookup_empty in H.
Qed.

(** Reading establishes [tablesOk]. *)
Lemma readAllFiles_tablesOk input files an :
  readAllFiles input = Some (files, an) -> tablesOk files an.
Proof.
  apply (readGroups_invariant tablesOk); [| | | apply tablesOk_start].
  - intros fs fs' a Hext (Hp & Hf & Ha). split; [done |]. split.
    + intros sd key file. rewrite <- Hext. apply Hf.
    + intros alias aliasSet target H Hin.
      apply getFile_is_Some. destruct (Ha _ _ _ H Hin) as [file Hfile].
      apply getFile_Some in Hfile as [sd Hsd]. exists sd. rewrite <- Hext. eauto.
  - intros fs a d (Hp & Hf & Ha). done.
  - intros fs a subdir dirPath n tree walked Hlua Hw (Hp & Hf & Ha).
    set (key := getFileIdentifier (pathJoin dirPath n)) in *.
    split; [done |]. split.
    + intros sd k file. rewrite setGroup_same. case_bool_decide as Hsd; [subst sd |].
      * destruct (decide (key = k)) as [<- | Hne].
        -- rewrite recGet_recSet_eq. intros H. simplify_eq. split.
           ++ exists tree, walked. by rewrite <- Hp.
           ++ by apply getFileIdentifier_lua.
        -- rewrite recGet_recSet_ne by done. apply Hf.
      * apply Hf.
    + intros alias aliasSet target H Hin. simpl in H.
      apply getFile_is_Some.
      destruct (addAliases_members key _ _ _ _ _ _ H Hin) as [-> | (s0 & H0 & Hin0)].
      * exists subdir. rewrite setGroup_same, bool_decide_true by done.
        rewrite recGet_recSet_eq. eauto.
      * destruct (Ha _ _ _ H0 Hin0) as [file Hfile].
        apply getFile_Some in Hfile as [sd Hsd]. exists sd.
        rewrite setGroup_same. case_bool_decide; [subst sd |]; [| eauto].
        destruct (decide (key = target)) as [<- | Hne].
        -- rewrite recGet_recSet_eq. eauto.
        -- rewrite recGet_recSet_ne by done. eauto.
Qed.

(** *** What [cleanup] leaves *)

Lemma cleanup_cleared f root : nodes f !! 0 = Some root -> cleared root (cleanup f).
Proof.
  unfold cleared, cleanup, onBlock, nodes. simpl. rewrite list_lookup_alter_eq.
  rewrite list_lookup_fmap. destruct (blocks f !! 0) as [b |]; simpl; [| done].
  intros H. by simplify_eq.
Qed.

Lemma cleanup_identity f : identityOf (cleanup f) = identityOf f.
Proof. reflexivity. Qed.

Lemma cleanup_nodes f : nodes (cleanup f) = nodes f.
Proof.
  unfold cleanup. change (nodes ?x) with (frameOf x).1. by rewrite frame_onBlock.
Qed.

Lemma producedByWalk_facts subdir key file :
  producedByWalk subdir key file ->
  name file = key /\ subdirectory file = subdir
  /\ exists tree, nodes file !! 0 = Some (Chunk tree) /\ cleared (Chunk tree) file.
Proof.
  intros (tree & walked & Hw & ->).
  pose proof (processFile_identity _ _ _ Hw) as Hid.
  pose proof (processFile_root _ _ _ (Chunk tree) Hw eq_refl) as Hroot.
  unfold identityOf in Hid. simpl in Hid. injection Hid as Hn Hs.
  split; [done |]. split; [done |]. exists tree. split.
  - by rewrite cleanup_nodes.
  - by apply cleanup_cleared.
Qed.

(** ** The output of the two passes *)

Lemma recGet_clear files subdir key :
  recGet key (clearGlobalDependencies files subdir)
  = withGlobalDependencies [] <$> recGet key (files subdir).
Proof.
  unfold clearGlobalDependencies.
  induction (files subdir) as [| [k v] rec IH]; simpl; [done |].
  by destruct (String.eqb k key).
Qed.

Lemma getFile_clear files key :
  getFile (clearGlobalDependencies files) key = withGlobalDependencies [] <$> getFile files key.
Proof.
  unfold getFile. simpl. rewrite !recGet_clear.
  destruct (recGet key (files Shared)); [done |].
  destruct (recGet key (files Server)); [done |].
  by destruct (recGet key (files Client)).
Qed.

Lemma collect_elem files order f :
  f ∈ collect files order ->
  exists key g, key ∈ order /\ getFile files key = Some g /\ f = withFileDependencies [] g.
Proof.
  unfold collect. rewrite list_elem_of_omap. intros (key & Hin & H).
  destruct (getFile files key) as [g |] eqn:Hg; simpl in H; [| done].
  simplify_eq. by exists key, g.
Qed.


Lemma orderFiles_units fuel files an out :
  tablesOk files an -> orderFiles fuel files an = Some out -> Forall passOneUnit out.
Proof.
  intros (_ & Hfiles & _). unfold orderFiles.
  destruct (orderGroups _ _ _ _ _ _) as [[seen order] |]; [| done].
  intros H. simplify_eq. apply Forall_forall. intros f Hf.
  apply collect_elem in Hf as (key & g & _ & Hg & ->).
  rewrite getFile_clear in Hg.
  destruct (getFile files key) as [g0 |] eqn:Hg0; simpl in Hg; [| done].
  simplify_eq. apply getFile_Some in Hg0 as [sd Hsd].
  exists sd, key, g0. split; [| done]. by apply Hfiles.
Qed.

Lemma resolveDependencies_units fuel input out an :
  resolveDependencies fuel input = Some (out, an) -> Forall passOneUnit out.
Proof.
  unfold resolveDependencies.
  destruct (readAllFiles input) as [[files an0] |] eqn:Hread; [| done].
  destruct (orderFiles fuel files an0) as [out0 |] eqn:Hord; [| done].
  intros H. simplify_eq.
  eapply orderFiles_units; [| exact Hord]. by apply (readAllFiles_tablesOk input).
Qed.

Lemma dropOwnGlobals_none gs :
  fold_left (fun deps dep => setDelete dep deps) gs [] = [].
Proof. induction gs as [| g gs IH]; simpl; [done | exact IH]. Qed.


Lemma passTwo_unit f1 :
  passOneUnit f1 ->
  exists f2, processFile TypeResolution f1 = Some f2 /\ passTwoOf f1 (cleanup f2).
Proof.
  intros (sd & key & g & Hg & ->).
  set (f1 := withFileDependencies [] (withGlobalDependencies [] g)).
  destruct (processFile_total TypeResolution f1) as [f2 Hf2].
  exists f2. split; [done |].
  destruct (producedByWalk_facts _ _ _ Hg) as (Hn & Hs & tree & Hroot & _).
  destruct Hg as (tree' & walked & Hw & Hgw).
  assert (tree' = tree) as ->.
  { pose proof (processFile_root _ _ _ (Chunk tree') Hw eq_refl) as H.
    rewrite Hgw, cleanup_nodes, H in Hroot. by simplify_eq. }
  pose proof (processFile_header _ _ Hf2) as Hh.
  pose proof (processFile_root _ _ _ (Chunk tree) Hf2 Hroot) as Hroot2.
  unfold headerOf in Hh. simpl in Hh. injection Hh as Hn2 Hs2 Hgs2 Hgd2 Hfd2.
  split; [| split; [| split; [| split]]].
  - exists tree, walked. simpl. rewrite Hn2, Hs2, Hn, Hs, Hgs2, Hgw.
    split; [done |]. split; [done |]. by apply cleanup_cleared.
  - done.
  - done.
  - simpl. rewrite Hgd2. apply dropOwnGlobals_none.
  - done.
Qed.

(** In pass 2 as well, every block of a file under the walk has the file
    root as top ancestor. *)
Lemma passTwo_topAncestor f1 f2 this :
  passOneUnit f1 -> processFile TypeResolution f1 = Some f2 ->
  this < length (blocks f2) -> getTopAncestor this f2 = 0.
Proof.
  intros (sd & key & g & (tree & walked & Hw & ->) & ->) H2.
  apply parentsOk_topAncestor.
  pose proof (processFile_root _ _ _ (Chunk tree) Hw eq_refl) as Hroot.
  apply (processFile_parentsOk _ _ _ H2).
  - rewrite <- cleanup_nodes in Hroot. unfold nodes in Hroot. simpl in *.
    intros Hnil. by rewrite Hnil in Hroot.
  - apply (cleanup_parentsOk walked).
    apply (processFile_parentsOk _ _ _ Hw); [done | apply newLuaFile_parentsOk].
Qed.

Lemma resolveTypesLoop_units files1 :
  Forall passOneUnit files1 ->
  exists out, resolveTypesLoop files1 = Some out /\ Forall2 passTwoOf files1 out.
Proof.
  induction 1 as [| f1 files1 Hf1 _ (out & Hout & IH)]; simpl.
  - exists []. by split.
  - destruct (passTwo_unit f1 Hf1) as (f2 & -> & H2). rewrite Hout.
    exists (cleanup f2 :: out). split; [done |]. by constructor.
Qed.




(** ** The ordering loop *)

Lemma truthy_true n : n <> "" -> truthy n = true.
Proof.
  unfold truthy. intros H. destruct (String.eqb n "") eqn:E; [| done].
  by apply String.eqb_eq in E.
Qed.

Lemma filter_length_le {A} (P Q : A -> Prop)
    `{!forall x, Decision (P x)} `{!forall x, Decision (Q x)} (l : list A) :
  (forall y, Q y -> P y) -> length (filter Q l) <= length (filter P l).
Proof.
  intros Himp. induction l as [| y l IH]; [done |].
  rewrite !filter_cons. destruct (decide (Q y)) as [Hq | Hq].
  - rewrite decide_True by auto. simpl. lia.
  - destruct (decide (P y)); simpl; lia.
Qed.

Lemma filter_length_lt {A} (P Q : A -> Prop)
    `{!forall x, Decision (P x)} `{!forall x, Decision (Q x)} (l : list A) x :
  (forall y, Q y -> P y) -> x ∈ l -> P x -> ~ Q x ->
  length (filter Q l) < length (filter P l).
Proof.
  intros Himp Hin Hp Hq. induction l as [| y l IH]; [by apply not_elem_of_nil in Hin |].
  rewrite !filter_cons. apply elem_of_cons in Hin as [<- | Hin].
  - rewrite decide_False, decide_True by done. simpl.
    pose proof (filter_length_le P Q l Himp). lia.
  - specialize (IH Hin). destruct (decide (Q y)) as [Hqy | Hqy].
    + rewrite decide_True by auto. simpl. lia.
    + destruct (decide (P y)); simpl; lia.
Qed.


Lemma missing_setAdd universe x s :
  x ∈ universe -> x ∉ s -> missing universe (setAdd x s) < missing universe s.
Proof.
  intros Hin Hx. unfold missing.
  apply (filter_length_lt (fun n => n ∉ s) (fun n => n ∉ setAdd x s) universe x); try done.
  - intros y Hy Hy'. apply Hy. by apply setAdd_mono.
  - intros H. apply H. apply setAdd_here.
Qed.

Section OrderingLoop.

Variables (files : Files) (aliases looseDeps : gmap string (list string)).

Hypothesis aliasesOk :
  forall alias aliasSet target,
    aliases !! alias = Some aliasSet -> target ∈ aliasSet -> is_Some (getFile files target).
Hypothesis keysOk : forall n, is_Some (getFile files n) -> n <> "".

#[local] Abbreviation E := (hardEdge files aliases).
#[local] Abbreviation U := (allKeys files).

Lemma known_allKeys n : is_Some (getFile files n) <-> n ∈ U.
Proof.
  rewrite getFile_is_Some. unfold allKeys. rewrite !elem_of_app.
  rewrite !list_elem_of_In, <- !recGet_keys.
  split.
  - intros [[] H]; tauto.
  - intros [H | [H | H]]; eauto.
Qed.

Lemma resolved_known dep b :
  getDependencyIdentifier files aliases dep = Some b -> is_Some (getFile files b).
Proof.
  unfold getDependencyIdentifier.
  destruct (getFile files dep) as [f |] eqn:Ef.
  - intros H. simplify_eq. eauto.
  - destruct (aliases !! dep) as [s |] eqn:Es; [| done].
    intros H. eapply aliasesOk; [exact Es |].
    destruct s; simpl in H; simplify_eq. by left.
Qed.

Lemma pendingHard_elem order file d :
  d ∈ pendingHard files aliases order file <->
  exists dep, dep ∈ fileDependencies file
              /\ getDependencyIdentifier files aliases dep = Some d
              /\ d ∉ order.
Proof.
  unfold pendingHard. rewrite list_elem_of_omap. split.
  - intros (dep & Hin & H).
    destruct (getDependencyIdentifier files aliases dep) as [d' |] eqn:Hd; [| done].
    destruct (truthy d' && negb (setHas d' order)) eqn:Hc; [| done].
    simplify_eq. apply andb_true_iff in Hc as [_ Hc].
    apply negb_true_iff, setHas_false in Hc. eauto.
  - intros (dep & Hin & Hd & Ho). exists dep. split; [done |]. rewrite Hd.
    rewrite truthy_true by (eapply keysOk, resolved_known; eauto).
    apply setHas_false in Ho. by rewrite Ho.
Qed.

Lemma pendingLoose_elem seen order loose d :
  d ∈ pendingLoose files aliases seen order loose ->
  is_Some (getFile files d) /\ (d ∉ seen) /\ (d ∉ order).
Proof.
  unfold pendingLoose. rewrite list_elem_of_omap.
  intros (dep & Hin & H).
  destruct (getDependencyIdentifier files aliases dep) as [d' |] eqn:Hd; [| done].
  destruct ((negb (truthy d') || setHas d' seen) || setHas d' order) eqn:Hc; [done |].
  simplify_eq. apply orb_false_iff in Hc as [Hc Ho]. apply orb_false_iff in Hc as [_ Hs].
  apply setHas_false in Hs, Ho. split; [| done]. by eapply resolved_known.
Qed.

#[local] Abbreviation stepOf := (orderStep files aliases looseDeps).
#[local] Abbreviation loopOf := (orderLoop files aliases looseDeps).


Lemma advance_cases ks dq :
  (ks = [] /\ advance ks dq = ([], dq))
  \/ (exists nextKey ks', ks = nextKey :: ks'
        /\ advance ks dq = (ks', if truthy nextKey then dq ++ [nextKey] else dq)).
Proof. destruct ks as [| k ks']; [by left | right; eauto]. Qed.

Lemma depsToAdd_elem seen order key file d :
  getFile files key = Some file ->
  d ∈ pendingHard files aliases order file
      ++ pendingLoose files aliases seen order (default [] (looseDeps !! key)) ->
  d ∈ U /\ (d ∉ order) /\ (d ∉ seen \/ E key d).
Proof.
  intros Hfile. rewrite elem_of_app. intros [H | H].
  - apply pendingHard_elem in H as (dep & Hin & Hd & Ho).
    split; [eapply known_allKeys, resolved_known; eauto |].
    split; [done |]. right. by exists file, dep.
  - apply pendingLoose_elem in H as (Hk & Hs & Ho).
    split; [by apply known_allKeys |]. split; [done |]. by left.
Qed.

Lemma queued_step o key rest :
  queued files o -> deque o = key :: rest -> queued files (stepOf key rest o).
Proof.
  intros [Hd Hk] Hdq. rewrite Hdq in Hd.
  assert (Hrest : forall k, k ∈ rest -> k ∈ U) by (intros; apply Hd; by right).
  assert (Hadv : forall ks dq, advance (keys o) rest = (ks, dq) ->
            (forall k, k ∈ dq -> k ∈ U) /\ (forall k, k ∈ ks -> k ∈ U)).
  { intros ks dq Ha.
    destruct (advance_cases (keys o) rest) as [[Hks H] | (nk & ks' & Hks & H)];
      rewrite H in Ha; simplify_eq.
    - split; [done |]. intros k Hin. by apply not_elem_of_nil in Hin.
    - split.
      + intros k Hin. destruct (truthy nk); [| by apply Hrest].
        apply elem_of_app in Hin as [Hin | Hin]; [by apply Hrest |].
        apply list_elem_of_singleton in Hin. subst. apply Hk. rewrite Hks. by left.
      + intros k Hin. apply Hk. rewrite Hks. by right. }
  unfold orderStep.
  destruct (if setHas key (analysisOrder o) then None else getFile files key)
    as [file |] eqn:Hfile.
  - assert (Hf : getFile files key = Some file)
      by (destruct (setHas key (analysisOrder o)); done).
    destruct (pendingHard _ _ _ _ ++ pendingLoose _ _ _ _ _) as [| d deps] eqn:Hdeps.
    + destruct (advance (keys o) rest) as [ks dq] eqn:Ha. by apply Hadv.
    + split; [| done]. simpl. intros k Hin.
      rewrite app_comm_cons in Hin. apply elem_of_app in Hin as [Hin | Hin].
      * rewrite <- Hdeps in Hin. by eapply depsToAdd_elem.
      * apply Hd. done.
  - destruct (advance (keys o) rest) as [ks dq] eqn:Ha. by apply Hadv.
Qed.

(** How one iteration moves the state. *)
Lemma orderStep_progress o key rest :
  queued files o -> deque o = key :: rest ->
  let o' := stepOf key rest o in
  missing U (analysisOrder o') < missing U (analysisOrder o)
  \/ (analysisOrder o' = analysisOrder o /\ missing U (seen o') < missing U (seen o))
  \/ (analysisOrder o' = analysisOrder o /\ seen o' = seen o /\ key ∈ seen o
      /\ (length (keys o') < length (keys o)
          \/ (keys o' = keys o /\ deque o' = rest
              /\ (key ∈ analysisOrder o \/ getFile files key = None))
          \/ (keys o' = keys o /\ (key ∉ analysisOrder o)
              /\ exists d more,
                  deque o' = d :: more /\ d ∈ U /\ (d ∉ analysisOrder o)
                  /\ (d ∉ seen o \/ E key d)))).
Proof.
  intros [Hd Hk] Hdq o'.
  assert (HkeyU : key ∈ U) by (apply Hd; rewrite Hdq; by left).
  destruct (decide (key ∈ seen o)) as [Hseen | Hseen].
  2: { (* a name seen for the first time *)
    pose proof (missing_setAdd U key (seen o) HkeyU Hseen) as Hlt.
    unfold o', orderStep.
    destruct (if setHas key (analysisOrder o) then None else getFile files key)
      as [file |] eqn:Hfile.
    - assert (Hno : key ∉ analysisOrder o).
      { apply setHas_false. by destruct (setHas key (analysisOrder o)). }
      destruct (pendingHard _ _ _ _ ++ pendingLoose _ _ _ _ _) as [| d deps].
      + destruct (advance (keys o) rest) as [ks dq]. left. simpl.
        by apply missing_setAdd.
      + right. left. by split.
    - destruct (advance (keys o) rest) as [ks dq]. right. left. by split. }
  assert (Hsame : setAdd key (seen o) = seen o) by (by apply setAdd_old).
  unfold o', orderStep. rewrite Hsame.
  destruct (setHas key (analysisOrder o)) eqn:Hord.
  - (* already finalized: dropped *)
    apply setHas_true in Hord. right. right.
    destruct (advance_cases (keys o) rest) as [[Hks ->] | (nk & ks' & Hks & ->)]; simpl.
    + repeat split; try done. right. left. rewrite Hks. repeat split; try done. by left.
    + repeat split; try done. left. rewrite Hks. simpl. lia.
  - apply setHas_false in Hord.
    destruct (getFile files key) as [file |] eqn:Hfile.
    + destruct (pendingHard _ _ _ _ ++ pendingLoose _ _ _ _ _) as [| d deps] eqn:Hdeps.
      * (* finalized *)
        destruct (advance (keys o) rest) as [ks dq]. left. simpl.
        by apply missing_setAdd.
      * (* requeued behind its dependencies *)
        right. right. simpl. repeat split; try done. right. right.
        repeat split; try done. exists d, (deps ++ key :: rest). split; [done |].
        assert (Hin : d ∈ pendingHard files aliases (analysisOrder o) file
                        ++ pendingLoose files aliases (seen o) (analysisOrder o)
                             (default [] (looseDeps !! key)))
          by (rewrite Hdeps; by left).
        destruct (depsToAdd_elem _ _ _ _ _ Hfile Hin) as (HdU & Hdo & Hds). done.
    + (* not a file: dropped *)
      right. right.
      destruct (advance_cases (keys o) rest) as [[Hks ->] | (nk & ks' & Hks & ->)]; simpl.
      * repeat split; try done. right. left. rewrite Hks. repeat split; try done. by right.
      * repeat split; try done. left. rewrite Hks. simpl. lia.
Qed.

Lemma hardEdge_known a b : E a b -> a ∈ U /\ b ∈ U.
Proof.
  intros (file & dep & Hf & Hin & Hd). split.
  - apply known_allKeys. eauto.
  - eapply known_allKeys, resolved_known; eauto.
Qed.

(** In a finite graph without cycles every chain of requires ends. *)
Lemma acyclic_Acc n :
  acyclic files aliases ->
  forall a path,
    NoDup path -> (forall p, p ∈ path -> p ∈ U) -> (forall p, p ∈ path -> tc E p a) ->
    a ∈ U -> length U <= length path + n ->
    Acc (flip E) a.
Proof.
  intros Hacyc. induction n as [| n IH]; intros a path Hnd Hsub Hreach HaU Hlen.
  - assert (Ha : a ∉ path) by (intros Hin; by apply (Hacyc a), Hreach).
    assert (Hle : length (a :: path) <= length U).
    { apply submseteq_length, NoDup_submseteq.
      - by apply NoDup_cons.
      - intros x Hx. apply elem_of_cons in Hx as [-> | Hx]; auto. }
    simpl in Hle. lia.
  - constructor. intros b Hab. unfold flip in Hab.
    assert (Ha : a ∉ path) by (intros Hin; by apply (Hacyc a), Hreach).
    apply (IH b (a :: path)).
    + by apply NoDup_cons.
    + intros x Hx. apply elem_of_cons in Hx as [-> | Hx]; auto.
    + intros x Hx. apply elem_of_cons in Hx as [-> | Hx].
      * by apply tc_once.
      * eapply tc_r; [by apply Hreach | done].
    + by apply hardEdge_known in Hab as [_ ?].
    + simpl. lia.
Qed.

Lemma acyclic_wf : acyclic files aliases -> well_founded (flip E).
Proof.
  intros Hacyc a. constructor. intros b Hab. unfold flip in Hab.
  apply (acyclic_Acc (length U) Hacyc b []).
  - constructor.
  - intros p Hp. by apply not_elem_of_nil in Hp.
  - intros p Hp. by apply not_elem_of_nil in Hp.
  - by apply hardEdge_known in Hab as [_ ?].
  - simpl. lia.
Qed.


Lemma halts_done o : deque o = [] -> halts files aliases looseDeps o.
Proof. intros H. exists 0, o. simpl. by rewrite H. Qed.

Lemma halts_step o key rest : deque o = key :: rest -> halts files aliases looseDeps (stepOf key rest o) -> halts files aliases looseDeps o.
Proof. intros H (fuel & o' & Hl). exists (S fuel), o'. simpl. by rewrite H. Qed.

Lemma ordering_eta o : o = mkOrdering (keys o) (deque o) (seen o) (analysisOrder o).
Proof. by destruct o. Qed.

Hypothesis E_wf : well_founded (flip E).

Lemma ordering_halts :
  forall na nb nc o,
    queued files o ->
    missing U (analysisOrder o) = na -> missing U (seen o) = nb -> length (keys o) = nc ->
    halts files aliases looseDeps o.
Proof.
  induction na as [na IHa] using lt_wf_ind.
  induction nb as [nb IHb] using lt_wf_ind.
  induction nc as [nc IHc] using lt_wf_ind.
  intros o Hq Ha Hb Hc.
  assert (Hsmall : forall o',
            queued files o' ->
            missing U (analysisOrder o') < missing U (analysisOrder o)
            \/ (analysisOrder o' = analysisOrder o /\ missing U (seen o') < missing U (seen o))
            \/ (analysisOrder o' = analysisOrder o /\ seen o' = seen o
                /\ length (keys o') < length (keys o)) ->
            halts files aliases looseDeps o').
  { intros o' Hq' [H | [[H1 H2] | (H1 & H2 & H3)]].
    - eapply (IHa (missing U (analysisOrder o'))); [lia | done | done | done | done].
    - eapply (IHb (missing U (seen o'))); [lia | done | by rewrite H1 | done | done].
    - eapply (IHc (length (keys o'))); [lia | done | by rewrite H1 | by rewrite H2 | done]. }
  set (at_ := fun dq => mkOrdering (keys o) dq (seen o) (analysisOrder o)).
  assert (Hqat : forall dq, (forall k, k ∈ dq -> k ∈ U) -> queued files (at_ dq)).
  { intros dq Hdq. split; [done |]. apply Hq. }
  (* a name seen for the first time *)
  assert (Hfresh : forall d more,
            (forall k, k ∈ d :: more -> k ∈ U) -> d ∉ seen o -> halts files aliases looseDeps (at_ (d :: more))).
  { intros d more Hdq Hd. apply halts_step with d more; [done |].
    pose proof (queued_step _ d more (Hqat _ Hdq) eq_refl) as Hq'.
    destruct (orderStep_progress (at_ (d :: more)) d more (Hqat _ Hdq) eq_refl)
      as [H | [H | (_ & _ & Hs & _)]].
    - apply Hsmall; [done |]. by left.
    - apply Hsmall; [done |]. right. by left.
    - done. }
  (* a file that is not finalized yet *)
  assert (Hhead : forall key,
            key ∈ U -> key ∉ analysisOrder o ->
            forall rest, (forall k, k ∈ rest -> k ∈ U) -> halts files aliases looseDeps (at_ (key :: rest))).
  { intros key. induction (E_wf key) as [key _ IHkey]. intros HkU Hko rest Hrest.
    assert (Hdq : forall k, k ∈ key :: rest -> k ∈ U).
    { intros k Hk. apply elem_of_cons in Hk as [-> | Hk]; [done | by apply Hrest]. }
    apply halts_step with key rest; [done |].
    pose proof (queued_step _ key rest (Hqat _ Hdq) eq_refl) as Hq'.
    destruct (orderStep_progress (at_ (key :: rest)) key rest (Hqat _ Hdq) eq_refl)
      as [H | [H | (Ho & Hs & Hks & [H | [H | H]])]].
    - apply Hsmall; [done |]. by left.
    - apply Hsmall; [done |]. right. by left.
    - apply Hsmall; [done |]. right. right. done.
    - destruct H as (_ & _ & [H | H]); [done |].
      apply known_allKeys in HkU as [file Hfile]. simpl in H. congruence.
    - destruct H as (Hk & _ & d & more & Hd & HdU & Hdo & Hcase).
      remember (stepOf key rest (at_ (key :: rest))) as o2 eqn:E2.
      destruct o2 as [k2 d2 s2 r2]. simpl in Hk, Hd, Hs, Ho. subst k2 d2 s2 r2.
      assert (Hmore : forall k, k ∈ d :: more -> k ∈ U) by apply Hq'.
      change (halts files aliases looseDeps (at_ (d :: more))).
      destruct (decide (d ∈ seen o)) as [Hseen | Hseen]; [| by apply Hfresh].
      destruct Hcase as [Hcase | Hedge]; [done |].
      apply (IHkey d Hedge HdU Hdo more).
      intros k Hin. apply Hmore. by right. }
  assert (Hall : forall dq, (forall k, k ∈ dq -> k ∈ U) -> halts files aliases looseDeps (at_ dq)).
  { induction dq as [| key rest IHdq]; intros Hdq; [by apply halts_done |].
    assert (Hrest : forall k, k ∈ rest -> k ∈ U) by (intros; apply Hdq; by right).
    assert (HkU : key ∈ U) by (apply Hdq; by left).
    destruct (decide (key ∈ analysisOrder o)) as [Hko | Hko]; [| by apply Hhead].
    apply halts_step with key rest; [done |].
    pose proof (queued_step _ key rest (Hqat _ Hdq) eq_refl) as Hq'.
    destruct (orderStep_progress (at_ (key :: rest)) key rest (Hqat _ Hdq) eq_refl)
      as [H | [H | (Ho & Hs & Hks & [H | [H | H]])]].
    - apply Hsmall; [done |]. by left.
    - apply Hsmall; [done |]. right. by left.
    - apply Hsmall; [done |]. right. right. done.
    - destruct H as (Hk & Hd & _).
      remember (stepOf key rest (at_ (key :: rest))) as o2 eqn:E2.
      destruct o2 as [k2 d2 s2 r2]. simpl in Hk, Hd, Hs, Ho. subst k2 d2 s2 r2.
      by apply IHdq.
    - by destruct H as (_ & H & _). }
  rewrite (ordering_eta o). apply (Hall (deque o)). apply Hq.
Qed.

(** *** What the loop establishes *)



Lemma ordered_snoc order key file :
  ordered files aliases order -> key ∉ order -> getFile files key = Some file ->
  pendingHard files aliases order file = [] ->
  ordered files aliases (order ++ [key]).
Proof.
  intros (Hnd & Hsub & Hdeps) Hkey Hfile Hpending. split; [| split].
  - apply NoDup_app. split; [done |]. split; [| apply NoDup_singleton].
    intros x Hx Hx'. apply list_elem_of_singleton in Hx'. by subst.
  - intros k Hk. apply elem_of_app in Hk as [Hk | Hk]; [by apply Hsub |].
    apply list_elem_of_singleton in Hk. subst. apply known_allKeys. eauto.
  - intros l1 a l2 Heq b Hab.
    destruct l2 as [| x l2 _] using rev_ind.
    + apply app_inj_tail in Heq as [<- <-].
      destruct Hab as (file' & dep & Hf & Hin & Hd).
      rewrite Hfile in Hf. simplify_eq.
      destruct (decide (b ∈ order)) as [Hb | Hb]; [done |].
      assert (Hp : b ∈ pendingHard files aliases order file')
        by (apply pendingHard_elem; eauto).
      rewrite Hpending in Hp. by apply not_elem_of_nil in Hp.
    + rewrite app_comm_cons, app_assoc in Heq.
      apply app_inj_tail in Heq as [Heq _].
      by apply (Hdeps l1 a l2).
Qed.

Lemma orderStep_order o key rest :
  let o' := stepOf key rest o in
  analysisOrder o' = analysisOrder o
  \/ (exists file,
        (key ∉ analysisOrder o) /\ getFile files key = Some file
        /\ pendingHard files aliases (analysisOrder o) file = []
        /\ analysisOrder o' = analysisOrder o ++ [key]).
Proof.
  unfold orderStep. simpl.
  destruct (setHas key (analysisOrder o)) eqn:Hord.
  - destruct (advance (keys o) rest). by left.
  - apply setHas_false in Hord.
    destruct (getFile files key) as [file |] eqn:Hfile.
    + destruct (pendingHard _ _ _ _ ++ pendingLoose _ _ _ _ _) as [| d deps] eqn:Hdeps.
      * destruct (advance (keys o) rest). right. exists file.
        apply app_eq_nil in Hdeps as [Hh _]. simpl. by rewrite setAdd_new.
      * by left.
    + destruct (advance (keys o) rest). by left.
Qed.

Lemma ordered_step o key rest :
  ordered files aliases (analysisOrder o) -> ordered files aliases (analysisOrder (stepOf key rest o)).
Proof.
  intros H. destruct (orderStep_order o key rest) as [-> | (file & Hk & Hf & Hp & ->)];
    [done |]. by eapply ordered_snoc.
Qed.

Lemma order_grows o key rest k :
  k ∈ analysisOrder o -> k ∈ analysisOrder (stepOf key rest o).
Proof.
  intros H. destruct (orderStep_order o key rest) as [-> | (file & _ & _ & _ & ->)];
    [done |]. apply elem_of_app. by left.
Qed.

Lemma covers_step group o key rest :
  queued files o -> (forall k, k ∈ group -> k ∈ U) -> covers group o ->
  deque o = key :: rest -> covers group (stepOf key rest o).
Proof.
  intros [Hd Hks] Hgroup [Hcov Hempty] Hdq.
  assert (Htruthy : forall k, k ∈ keys o -> truthy k = true).
  { intros k Hk. apply truthy_true, keysOk, known_allKeys. by apply Hks. }
  (* the outcome of [advance], when [key] has found its place in [order'] *)
  assert (Hadv : forall ks dq order',
            advance (keys o) rest = (ks, dq) ->
            (forall k, k ∈ analysisOrder o -> k ∈ order') -> key ∈ order' \/ key ∉ group ->
            covers group (mkOrdering ks dq (setAdd key (seen o)) order')).
  { intros ks dq order' Ha Hmono Hkey. split; simpl.
    - intros k Hk.
      destruct (decide (k = key)) as [-> | Hne]; [destruct Hkey; [auto | done] |].
      destruct (Hcov k Hk) as [Hin | [Hin | Hin]]; [| | auto].
      + destruct (advance_cases (keys o) rest) as [[Hnil H] | (nk & ks' & Hcons & H)];
          rewrite H in Ha; simplify_eq.
        * rewrite Hnil in Hin. by apply not_elem_of_nil in Hin.
        * rewrite Hcons in Hin. rewrite Htruthy by (rewrite Hcons; by left).
          apply elem_of_cons in Hin as [-> | Hin]; [| auto].
          right. left. apply elem_of_app. right. by left.
      + rewrite Hdq in Hin. apply elem_of_cons in Hin as [-> | Hin]; [done |].
        right. left.
        destruct (advance_cases (keys o) rest) as [[Hnil H] | (nk & ks' & Hcons & H)];
          rewrite H in Ha; simplify_eq; [done |].
        destruct (truthy nk); [apply elem_of_app; by left | done].
    - destruct (advance_cases (keys o) rest) as [[Hnil H] | (nk & ks' & Hcons & H)];
        rewrite H in Ha; simplify_eq; [done |].
      rewrite Htruthy by (rewrite Hcons; by left). intros Hnil.
      by apply app_eq_nil in Hnil as [_ ?]. }
  unfold orderStep.
  destruct (setHas key (analysisOrder o)) eqn:Hord.
  - apply setHas_true in Hord.
    destruct (advance (keys o) rest) as [ks dq] eqn:Ha. apply Hadv; auto.
  - apply setHas_false in Hord.
    destruct (getFile files key) as [file |] eqn:Hfile.
    + destruct (pendingHard _ _ _ _ ++ pendingLoose _ _ _ _ _) as [| d deps] eqn:Hdeps.
      * destruct (advance (keys o) rest) as [ks dq] eqn:Ha. apply Hadv; [done | |].
        -- intros k Hk. by apply setAdd_mono.
        -- left. apply setAdd_here.
      * split; simpl; [| done].
        intros k Hk. destruct (Hcov k Hk) as [Hin | [Hin | Hin]]; [auto | | auto].
        right. left. rewrite app_comm_cons. apply elem_of_app. right.
        by rewrite <- Hdq.
    + destruct (advance (keys o) rest) as [ks dq] eqn:Ha. apply Hadv; [done | done |].
      right. intros Hin. apply Hgroup, known_allKeys in Hin as [file Hf]. congruence.
Qed.

Lemma orderLoop_establishes group fuel :
  forall o o',
    queued files o -> (forall k, k ∈ group -> k ∈ U) ->
    ordered files aliases (analysisOrder o) -> covers group o ->
    loopOf fuel o = Some o' ->
    ordered files aliases (analysisOrder o')
    /\ (forall k, k ∈ analysisOrder o -> k ∈ analysisOrder o')
    /\ (forall k, k ∈ group -> k ∈ analysisOrder o').
Proof.
  induction fuel as [| fuel IH]; intros o o' Hq Hg Hord Hcov Hloop; simpl in Hloop;
    destruct (deque o) as [| key rest] eqn:Hdq; simplify_eq.
  - split; [done |]. split; [done |]. intros k Hk.
    destruct Hcov as [Hcov Hempty]. specialize (Hempty Hdq).
    destruct (Hcov k Hk) as [Hin | [Hin | Hin]]; [| | done].
    + rewrite Hempty in Hin. by apply not_elem_of_nil in Hin.
    + rewrite Hdq in Hin. by apply not_elem_of_nil in Hin.
  - split; [done |]. split; [done |]. intros k Hk.
    destruct Hcov as [Hcov Hempty]. specialize (Hempty Hdq).
    destruct (Hcov k Hk) as [Hin | [Hin | Hin]]; [| | done].
    + rewrite Hempty in Hin. by apply not_elem_of_nil in Hin.
    + rewrite Hdq in Hin. by apply not_elem_of_nil in Hin.
  - destruct (IH _ _ (queued_step o key rest Hq Hdq) Hg (ordered_step o key rest Hord)
                (covers_step group o key rest Hq Hg Hcov Hdq) Hloop) as (H1 & H2 & H3).
    split; [done |]. split; [| done]. intros k Hk. by apply H2, order_grows.
Qed.

Lemma orderLoop_more_fuel fuel :
  forall fuel' o o', loopOf fuel o = Some o' -> fuel <= fuel' -> loopOf fuel' o = Some o'.
Proof.
  induction fuel as [| fuel IH]; intros fuel' o o' H Hle; simpl in H;
    destruct (deque o) as [| key rest] eqn:Hdq; simplify_eq.
  - destruct fuel'; simpl; by rewrite Hdq.
  - destruct fuel'; simpl; by rewrite Hdq.
  - destruct fuel' as [| fuel']; [lia |]. simpl. rewrite Hdq. apply IH; [done | lia].
Qed.

(** *** One group, then all groups *)

Lemma insertKey_elem x a l : x ∈ insertKey a l <-> x = a \/ x ∈ l.
Proof.
  induction l as [| b l IH]; simpl.
  - rewrite list_elem_of_singleton. split; [auto | intros [? | H]; [done |]].
    by apply not_elem_of_nil in H.
  - destruct (Str.ltb _ _).
    + rewrite !elem_of_cons, IH. tauto.
    + rewrite !elem_of_cons. tauto.
Qed.

Lemma sortKeys_elem x l : x ∈ sortKeys l <-> x ∈ l.
Proof.
  induction l as [| a l IH]; simpl; [done |].
  rewrite insertKey_elem, elem_of_cons, IH. tauto.
Qed.

Lemma keyStack_elem subdir k :
  k ∈ rev (sortKeys (recKeys (files subdir))) <-> k ∈ recKeys (files subdir).
Proof.
  rewrite <- (sortKeys_elem k (recKeys (files subdir))), !list_elem_of_In.
  symmetry. apply in_rev.
Qed.

Lemma recKeys_known subdir k : k ∈ recKeys (files subdir) -> k ∈ U.
Proof.
  intros H. unfold allKeys. rewrite !elem_of_app. destruct subdir; auto.
Qed.

Lemma allKeys_group k : k ∈ U -> exists subdir, k ∈ recKeys (files subdir).
Proof.
  unfold allKeys. rewrite !elem_of_app. intros [H | [H | H]]; eauto.
Qed.

#[local] Abbreviation groupOf := (orderGroup files aliases looseDeps).
#[local] Abbreviation groupsOf := (orderGroups files aliases looseDeps).

Lemma orderGroup_start subdir first ks seen order :
  rev (sortKeys (recKeys (files subdir))) = first :: ks ->
  queued files (mkOrdering ks [first] seen order)
  /\ covers (recKeys (files subdir)) (mkOrdering ks [first] seen order).
Proof.
  intros Hstack.
  assert (Hin : forall k, k ∈ first :: ks <-> k ∈ recKeys (files subdir)).
  { intros k. rewrite <- Hstack. apply keyStack_elem. }
  split; split; simpl.
  - intros k Hk. apply list_elem_of_singleton in Hk. subst.
    apply (recKeys_known subdir), Hin. by left.
  - intros k Hk. apply (recKeys_known subdir), Hin. by right.
  - intros k Hk. apply Hin, elem_of_cons in Hk as [-> | Hk]; [| auto].
    right. left. by left.
  - done.
Qed.

Lemma orderGroup_establishes fuel subdir seen order seen' order' :
  ordered files aliases order ->
  groupOf fuel subdir (seen, order) = Some (seen', order') ->
  ordered files aliases order'
  /\ (forall k, k ∈ order -> k ∈ order')
  /\ (forall k, k ∈ recKeys (files subdir) -> k ∈ order').
Proof.
  intros Hord. unfold orderGroup.
  destruct (rev (sortKeys (recKeys (files subdir)))) as [| first ks] eqn:Hstack; simpl.
  - intros H. simplify_eq. split; [done |]. split; [done |].
    intros k Hk. apply keyStack_elem in Hk. rewrite Hstack in Hk.
    by apply not_elem_of_nil in Hk.
  - destruct (orderLoop _ _ _ _ _) as [o' |] eqn:Hloop; [| done].
    intros H. simplify_eq.
    destruct (orderGroup_start subdir first ks seen order Hstack) as [Hq Hc].
    apply (orderLoop_establishes (recKeys (files subdir)) fuel _ o' Hq); try done.
    apply recKeys_known.
Qed.

Lemma orderGroups_establishes fuel subdirs :
  forall seen order seen' order',
    ordered files aliases order ->
    groupsOf fuel subdirs (seen, order) = Some (seen', order') ->
    ordered files aliases order'
    /\ (forall k, k ∈ order -> k ∈ order')
    /\ (forall subdir k, subdir ∈ subdirs -> k ∈ recKeys (files subdir) -> k ∈ order').
Proof.
  induction subdirs as [| subdir rest IH]; intros seen order seen' order' Hord H; simpl in H.
  - simplify_eq. split; [done |]. split; [done |].
    intros sd k Hsd. by apply not_elem_of_nil in Hsd.
  - destruct (orderGroup _ _ _ _ _ _) as [[seen1 order1] |] eqn:Hg; [| done].
    destruct (orderGroup_establishes _ _ _ _ _ _ Hord Hg) as (H1 & H2 & H3).
    destruct (IH _ _ _ _ H1 H) as (H4 & H5 & H6).
    split; [done |]. split; [auto |].
    intros sd k Hsd Hk. apply elem_of_cons in Hsd as [-> | Hsd]; [auto | eauto].
Qed.

Lemma orderGroup_halts subdir acc :
  exists fuel acc', forall fuel', fuel <= fuel' -> groupOf fuel' subdir acc = Some acc'.
Proof.
  unfold orderGroup.
  destruct (rev (sortKeys (recKeys (files subdir)))) as [| first ks] eqn:Hstack.
  - exists 0, acc. done.
  - destruct (orderGroup_start subdir first ks acc.1 acc.2 Hstack) as [Hq _].
    destruct (ordering_halts _ _ _ _ Hq eq_refl eq_refl eq_refl) as (fuel & o' & Hloop).
    exists fuel, (seen o', analysisOrder o'). intros fuel' Hle.
    by rewrite (orderLoop_more_fuel fuel fuel' _ o' Hloop Hle).
Qed.

Lemma orderGroups_halts subdirs :
  forall acc,
    exists fuel acc', forall fuel', fuel <= fuel' -> groupsOf fuel' subdirs acc = Some acc'.
Proof.
  induction subdirs as [| subdir rest IH]; intros acc.
  - exists 0, acc. done.
  - destruct (orderGroup_halts subdir acc) as (fuel1 & acc1 & H1).
    destruct (IH acc1) as (fuel2 & acc2 & H2).
    exists (max fuel1 fuel2), acc2. intros fuel' Hle. simpl.
    rewrite H1 by lia. apply H2. lia.
Qed.

End OrderingLoop.

(** *** From the tables that were read to the order of analysis *)

Lemma recKeys_clear files subdir :
  recKeys (clearGlobalDependencies files subdir) = recKeys (files subdir).
Proof.
  unfold recKeys, clearGlobalDependencies. rewrite map_map.
  apply map_ext. by intros [k v].
Qed.

Lemma allKeys_clear files : allKeys (clearGlobalDependencies files) = allKeys files.
Proof. unfold allKeys. by rewrite !recKeys_clear. Qed.

Lemma getDependencyIdentifier_clear files aliases dep :
  getDependencyIdentifier (clearGlobalDependencies files) aliases dep
  = getDependencyIdentifier files aliases dep.
Proof.
  unfold getDependencyIdentifier. rewrite getFile_clear. by destruct (getFile files dep).
Qed.

Lemma hardEdge_clear files aliases a b :
  hardEdge (clearGlobalDependencies files) aliases a b <-> hardEdge files aliases a b.
Proof.
  unfold hardEdge. split.
  - intros (file & dep & Hf & Hin & Hd). rewrite getFile_clear in Hf.
    destruct (getFile files a) as [g |]; simpl in Hf; [| done]. simplify_eq.
    exists g, dep. by rewrite getDependencyIdentifier_clear in Hd.
  - intros (file & dep & Hf & Hin & Hd).
    exists (withGlobalDependencies [] file), dep.
    rewrite getFile_clear, Hf, getDependencyIdentifier_clear. done.
Qed.

Lemma tc_subrel {A} (R R' : relation A) a b :
  (forall x y, R x y -> R' x y) -> tc R a b -> tc R' a b.
Proof.
  intros Hsub. induction 1 as [x y H | x y z H _ IH].
  - by apply tc_once, Hsub.
  - eapply tc_l; [by apply Hsub | done].
Qed.

Lemma acyclic_clear files aliases :
  acyclic files aliases -> acyclic (clearGlobalDependencies files) aliases.
Proof.
  intros H a Hc. apply (H a). eapply tc_subrel; [| exact Hc].
  intros x y. apply hardEdge_clear.
Qed.

Lemma tablesOk_aliases files an :
  tablesOk files an ->
  forall alias aliasSet target,
    fileAliases an !! alias = Some aliasSet -> target ∈ aliasSet ->
    is_Some (getFile (clearGlobalDependencies files) target).
Proof.
  intros (_ & _ & Ha) alias aliasSet target H Hin.
  rewrite getFile_clear. destruct (Ha _ _ _ H Hin) as [f ->]. eauto.
Qed.

Lemma tablesOk_keys files an :
  tablesOk files an ->
  forall n, is_Some (getFile (clearGlobalDependencies files) n) -> n <> "".
Proof.
  intros (_ & Hf & _) n [f H]. rewrite getFile_clear in H.
  destruct (getFile files n) as [g |] eqn:Hg; [| done].
  apply getFile_Some in Hg as [sd Hsd]. by apply (Hf sd n g).
Qed.

Lemma tablesOk_name files an key file :
  tablesOk files an -> getFile files key = Some file -> name file = key.
Proof.
  intros (_ & Hf & _) H. apply getFile_Some in H as [sd Hsd].
  destruct (Hf _ _ _ Hsd) as [Hp _]. by apply producedByWalk_facts in Hp as [? _].
Qed.

Lemma collect_names files order :
  (forall k, k ∈ order -> exists g, getFile files k = Some g /\ name g = k) ->
  map name (collect files order) = order.
Proof.
  unfold collect. induction order as [| k order IH]; intros H; [done |].
  destruct (H k) as (g & Hg & Hn); [by left |].
  cbn [omap list_omap]. rewrite Hg. simpl. rewrite Hn. f_equal.
  apply IH. intros k' Hk'. apply H. by right.
Qed.

Lemma ordered_nil files aliases : ordered files aliases [].
Proof.
  split; [constructor |]. split.
  - intros k Hk. by apply not_elem_of_nil in Hk.
  - intros l1 a l2 H. by destruct l1.
Qed.

(** What a successful run of the ordering hands over. *)
Lemma orderFiles_establishes fuel files an out :
  tablesOk files an ->
  orderFiles fuel files an = Some out ->
  NoDup (map name out)
  /\ (forall n, n ∈ map name out <-> is_Some (getFile files n))
  /\ (forall a b, hardEdge files (fileAliases an) a b -> precedes b a (map name out))
  /\ out = omap (fun n => (fun g => withFileDependencies [] (withGlobalDependencies [] g))
                           <$> getFile files n) (map name out).
Proof.
  intros Hok. unfold orderFiles.
  set (cleared := clearGlobalDependencies files).
  set (loose := computeLooseDeps (globalSetters an) files).
  destruct (orderGroups cleared (fileAliases an) loose fuel gameFileDirectories ([], []))
    as [[seen order] |] eqn:Hgroups; [| done].
  intros H. simplify_eq.
  destruct (orderGroups_establishes cleared (fileAliases an) loose
              (tablesOk_aliases _ _ Hok) (tablesOk_keys _ _ Hok)
              fuel gameFileDirectories [] [] seen order
              (ordered_nil _ _) Hgroups) as ((Hnd & Hsub & Hdeps) & _ & Hall).
  assert (Hknown : forall k, k ∈ order <-> is_Some (getFile files k)).
  { intros k. split.
    - intros Hk. apply Hsub in Hk. unfold cleared in Hk. rewrite allKeys_clear in Hk.
      by apply known_allKeys.
    - intros Hk. apply known_allKeys in Hk.
      rewrite <- allKeys_clear in Hk. apply allKeys_group in Hk as [sd Hk].
      apply (Hall sd); [| done]. unfold gameFileDirectories.
      destruct sd; repeat constructor. }
  assert (Hnames : map name (collect cleared order) = order).
  { apply collect_names. intros k Hk. apply Hknown in Hk as [g Hg].
    exists (withGlobalDependencies [] g). unfold cleared. rewrite getFile_clear, Hg.
    split; [done |]. simpl. by eapply tablesOk_name. }
  rewrite Hnames. split; [done |]. split; [done |]. split.
  - intros a b Hab.
    assert (Ha : a ∈ order).
    { apply Hknown. destruct Hab as (file & _ & Hf & _). eauto. }
    apply list_elem_of_split in Ha as (l1 & l2 & ->).
    assert (Hb : b ∈ l1) by (apply (Hdeps l1 a l2 eq_refl b); by apply hardEdge_clear).
    apply list_elem_of_split in Hb as (l1a & l1b & ->).
    exists l1a, l1b, l2. by rewrite <- app_assoc.
  - unfold collect, cleared. clear.
    induction order as [| k order IH]; [done |].
    cbn [omap list_omap]. rewrite getFile_clear, IH.
    by destruct (getFile files k).
Qed.

Lemma orderFiles_halts files an :
  tablesOk files an -> acyclic files (fileAliases an) ->
  exists fuel out, forall fuel', fuel <= fuel' -> orderFiles fuel' files an = Some out.
Proof.
  intros Hok Hacyc. unfold orderFiles.
  set (cleared := clearGlobalDependencies files).
  set (loose := computeLooseDeps (globalSetters an) files).
  destruct (orderGroups_halts cleared (fileAliases an) loose
              (tablesOk_aliases _ _ Hok) (tablesOk_keys _ _ Hok)
              (acyclic_wf cleared (fileAliases an)
                 (tablesOk_aliases _ _ Hok) (acyclic_clear _ _ Hacyc))
              gameFileDirectories ([], [])) as (fuel & [seen order] & H).
  exists fuel, (collect cleared order). intros fuel' Hle. by rewrite H.
Qed.

Lemma pendingLoose_unseen files aliases seen order loose d :
  d ∈ pendingLoose files aliases seen order loose -> d ∉ seen.
Proof.
  unfold pendingLoose. rewrite list_elem_of_omap.
  intros (dep & Hin & H).
  destruct (getDependencyIdentifier files aliases dep) as [d' |]; [| done].
  destruct ((negb (truthy d') || setHas d' seen) || setHas d' order) eqn:Hc; [done |].
  simplify_eq. apply orb_false_iff in Hc as [Hc _]. apply orb_false_iff in Hc as [_ Hs].
  by apply setHas_false in Hs.
Qed.




(** *** The sample with one hard edge and a cycle of inferred edges *)

Lemma looseCycle_read :
  readAllFiles Sample.looseCycle
  = Some ((tablesOf Sample.looseCycle).1, (tablesOf Sample.looseCycle).2).
Proof. vm_compute. reflexivity. Qed.

Lemma looseCycle_edges x y :
  hardEdge (tablesOf Sample.looseCycle).1 (fileAliases (tablesOf Sample.looseCycle).2) x y ->
  x = "a" /\ y = "b".
Proof.
  intros (file & dep & Hf & Hin & Hd).
  apply getFile_Some in Hf as [sd Hsd]. apply recGet_In in Hsd.
  destruct sd; vm_compute in Hsd; try done.
  destruct Hsd as [Hsd | [Hsd | []]]; simplify_eq.
  - vm_compute in Hin. apply list_elem_of_singleton in Hin. subst dep.
    vm_compute in Hd. by simplify_eq.
  - vm_compute in Hin. by apply not_elem_of_nil in Hin.
Qed.

Lemma looseCycle_acyclic :
  acyclic (tablesOf Sample.looseCycle).1 (fileAliases (tablesOf Sample.looseCycle).2).
Proof.
  intros x Hc.
  inversion Hc as [? ? H | ? y ? H Hrest]; subst.
  - apply looseCycle_edges in H as [-> H]. done.
  - apply looseCycle_edges in H as [-> ->].
    inversion Hrest as [? ? H | ? y ? H _]; subst;
      by apply looseCycle_edges in H as [H _].
Qed.

Lemma looseCycle_hardEdge :
  hardEdge (tablesOf Sample.looseCycle).1 (fileAliases (tablesOf Sample.looseCycle).2) "a" "b".
Proof.
  unfold hardEdge. eexists. exists "b".
  split; [vm_compute; reflexivity |]. split; [| vm_compute; reflexivity].
  vm_compute. by left.
Qed.


Lemma looseCycle_ordered :
  resolveDependencies 10 Sample.looseCycle
  = Some ((default ([], newAnalyzer) (resolveDependencies 10 Sample.looseCycle)).1,
          (default ([], newAnalyzer) (resolveDependencies 10 Sample.looseCycle)).2).
Proof. vm_compute. reflexivity. Qed.



(** * Further properties *)


Lemma precedes_lookup b a l :
  precedes b a l -> exists i j, i < j /\ l !! i = Some b /\ l !! j = Some a.
Proof.
  intros (l1 & l2 & l3 & ->). exists (length l1), (length l1 + S (length l2)).
  split; [lia |]. split.
  - by rewrite lookup_app_r, Nat.sub_diag.
  - rewrite lookup_app_r by lia.
    replace (length l1 + S (length l2) - length l1) with (S (length l2)) by lia.
    simpl. by rewrite lookup_app_r, Nat.sub_diag.
Qed.

Lemma tc_precedes (E : relation string) (l : list string) :
  NoDup l ->
  (forall a b, E a b -> precedes b a l) ->
  forall a b, tc E a b -> exists i j, i < j /\ l !! i = Some b /\ l !! j = Some a.
Proof.
  intros Hnd HE a b. induction 1 as [a b H | a c b H _ (i2 & j2 & Hlt2 & Hb & Hc)].
  - by apply precedes_lookup, HE.
  - apply HE, precedes_lookup in H as (i1 & j1 & Hlt1 & Hc' & Ha).
    assert (j2 = i1) as -> by (by eapply NoDup_lookup).
    exists i2, j1. split; [lia | done].
Qed.

(** X1.  Pass 1 never returns on an input whose hard requires form a
    cycle: whatever the number of iterations allowed to the ordering loop,
    it does not come to an end. *)
Theorem hard_cycle_never_returns input files an a :
  readAllFiles input = Some (files, an) ->
  tc (hardEdge files (fileAliases an)) a a ->
  forall fuel, resolveDependencies fuel input = None.
Proof.
  intros Hread Hcyc fuel. unfold resolveDependencies. rewrite Hread.
  destruct (orderFiles fuel files an) as [out |] eqn:Hord; [| done].
  exfalso.
  destruct (orderFiles_establishes _ _ _ _ (readAllFiles_tablesOk _ _ _ Hread) Hord)
    as (Hnd & _ & Hprec & _).
  destruct (tc_precedes _ _ Hnd Hprec a a Hcyc) as (i & j & Hlt & Hi & Hj).
  assert (i = j) by (by eapply NoDup_lookup). lia.
Qed.

Lemma hardCycle_read :
  readAllFiles Sample.hardCycle
  = Some ((tablesOf Sample.hardCycle).1, (tablesOf Sample.hardCycle).2).
Proof. vm_compute. reflexivity. Qed.

Lemma hardCycle_edge a b :
  (a = "a" /\ b = "b") \/ (a = "b" /\ b = "a") ->
  hardEdge (tablesOf Sample.hardCycle).1 (fileAliases (tablesOf Sample.hardCycle).2) a b.
Proof.
  intros [[-> ->] | [-> ->]]; unfold hardEdge; eexists;
    [exists "b" | exists "a"];
    (split; [vm_compute; reflexivity |]); (split; [| vm_compute; reflexivity]);
    vm_compute; by left.
Qed.

Lemma hard_cycle_never_returns_witness :
  resolveDependencies 50 Sample.hardCycle = None.
Proof.
  apply (hard_cycle_never_returns Sample.hardCycle _ _ "a" hardCycle_read).
  eapply tc_l; [| apply tc_once]; apply hardCycle_edge; [by left | by right].
Defined.


(** ** Views of the blocks *)

Section BlockView.

Context {A : Type} (v : LuaBlock -> A).

Hypothesis v_locals : forall l b, v (withLocals l b) = v b.
Hypothesis v_assignment : forall a b, v (pushElement (AssignmentElement a) b) = v b.

Lemma view_onBlock i g f :
  (forall b, v (g b) = v b) -> v <$> blocks (onBlock i g f) = v <$> blocks f.
Proof.
  intros Hg. unfold onBlock. simpl.
  rewrite (list_fmap_alter v g id).
  - apply list_alter_id. done.
  - apply Forall_forall. intros b _. apply Hg.
Qed.

Lemma view_fold {B} (step : LuaFile -> B -> LuaFile) (l : list B) f :
  (forall a f, v <$> blocks (step f a) = v <$> blocks f) ->
  v <$> blocks (fold_left step l f) = v <$> blocks f.
Proof.
  intros Hstep. revert f. induction l as [| a l IH]; intros f; simpl; [done |].
  rewrite IH. apply Hstep.
Qed.

Lemma view_pushLocalAssignment owner key a f :
  v <$> blocks (pushLocalAssignment owner key a f) = v <$> blocks f.
Proof. apply view_onBlock. intros b. apply v_locals. Qed.

Lemma view_bindAll this a expr f : v <$> blocks (bindAll this a expr f) = v <$> blocks f.
Proof.
  unfold bindAll. apply view_fold. intros ident f'. apply view_onBlock.
  intros b. apply v_locals.
Qed.

Lemma view_pushAssignment this a f :
  v <$> blocks (onBlock this (pushElement (AssignmentElement a)) f) = v <$> blocks f.
Proof. apply view_onBlock. intros b. apply v_assignment. Qed.

Lemma view_addBlockLocals this expressions rhs type addSelf f :
  v <$> blocks (addBlockLocals this expressions rhs type addSelf f) = v <$> blocks f.
Proof.
  unfold addBlockLocals, allocAssignment.
  by rewrite view_pushAssignment, view_bindAll.
Qed.

Lemma view_addLocalAssignment pass this lhs rhs existingLocal f :
  v <$> blocks (addLocalAssignment pass this lhs rhs existingLocal f) = v <$> blocks f.
Proof.
  unfold addLocalAssignment, allocAssignment.
  destruct pass, lhs as [| ident lhs'], existingLocal as [[owner key] |];
    try (apply view_onBlock; intros b; apply v_locals);
    rewrite view_pushAssignment;
    repeat case_match;
    rewrite ?view_pushLocalAssignment, ?view_bindAll;
    done.
Qed.

Lemma view_classifyTargets pass this file a targets :
  forall i f, v <$> blocks (classifyTargets pass this file a i targets f) = v <$> blocks f.
Proof.
  induction targets as [| target rest IH]; intros i f; simpl; [done |].
  rewrite IH.
  destruct target as [x | | | | | | | | | | | | | | |]; try done.
  destruct (getLocal this x f) as [[owner l] |].
  - destruct pass; [done |]. by rewrite view_pushLocalAssignment.
  - case_bool_decide; [by destruct pass | done].
Qed.

Lemma view_addAssignment pass this lhs rhs f :
  v <$> blocks (addAssignment pass this lhs rhs f) = v <$> blocks f.
Proof.
  unfold addAssignment, allocAssignment.
  destruct pass; rewrite ?view_pushAssignment; by rewrite view_classifyTargets.
Qed.

(** Every update of the current file but [addCall] and [addReturn] keeps the
    view. *)
Lemma view_curOp pass block g f :
  curOp pass block g ->
  v <$> blocks (g f) = v <$> blocks f
  \/ (exists base arguments, g = addCall pass block base arguments)
  \/ (exists statement, g = addReturn pass block statement).
Proof.
  intros [n | n | b a | l r | l r | s].
  - left. by destruct pass.
  - left. by destruct pass.
  - right. left. by exists b, a.
  - left. apply view_addLocalAssignment.
  - left. apply view_addAssignment.
  - right. right. by exists s.
Qed.

(** A new block is appended, set up, and handed to [addChild]. *)
Lemma view_newLuaBlock pass nd parent f :
  exists f2,
    (newLuaBlock pass nd parent f).2 = addChild parent (length (blocks f)) f2
    /\ v <$> blocks f2 = (v <$> blocks f) ++ [v (mkBlock nd None [] ∅ [] [])].
Proof.
  unfold newLuaBlock. cbn [snd]. eexists. split; [reflexivity |].
  set (f1 := withBlocks _ f).
  assert (H1 : v <$> blocks f1 = (v <$> blocks f) ++ [v (mkBlock nd None [] ∅ [] [])]).
  { unfold f1. simpl. by rewrite fmap_app. }
  destruct nd; rewrite ?view_addBlockLocals, ?H1; try done.
  destruct isLocal; [| by rewrite view_addBlockLocals, H1].
  destruct identifier as [[] |];
    rewrite ?view_addLocalAssignment, view_addBlockLocals, H1; done.
Qed.

End BlockView.

(** *** Return lists and call records *)

Lemma returns_addChild this child f :
  returns <$> blocks (addChild this child f) = returns <$> blocks f.
Proof.
  unfold addChild. rewrite !(view_onBlock returns) by done. done.
Qed.

Lemma returns_newLuaBlock pass nd parent f :
  returns <$> blocks (newLuaBlock pass nd parent f).2 = (returns <$> blocks f) ++ [[]].
Proof.
  destruct (view_newLuaBlock returns (fun _ _ => eq_refl) (fun _ _ => eq_refl) pass nd parent f)
    as (f2 & -> & H).
  by rewrite returns_addChild.
Qed.

Lemma callsOf_push e b : isCall e = false -> callsOf (pushElement e b) = callsOf b.
Proof.
  intros H. unfold callsOf, pushElement. simpl.
  rewrite List.filter_app. simpl. rewrite H. apply app_nil_r.
Qed.

Lemma callsOf_newLuaBlock pass nd parent f :
  callsOf <$> blocks (newLuaBlock pass nd parent f).2 = (callsOf <$> blocks f) ++ [[]].
Proof.
  destruct (view_newLuaBlock callsOf (fun _ _ => eq_refl)
              (fun a b => callsOf_push (AssignmentElement a) b eq_refl) pass nd parent f)
    as (f2 & -> & H).
  unfold addChild.
  rewrite (view_onBlock callsOf) by (intros b; by apply callsOf_push).
  rewrite !(view_onBlock callsOf) by done. done.
Qed.

(** X2.  A walk in the dependency-resolution pass records no call and no
    return statement: every block of the file it leaves has an empty
    return list and no call record among its elements. *)
Theorem dependency_walk_records_no_call_or_return tree subdir name :
  exists f,
    processFile DependencyResolution (newLuaFile tree subdir name) = Some f
    /\ forall b, b ∈ blocks f ->
         returns b = [] /\ forall e, e ∈ elements b -> isCall e = false.
Proof.
  destruct (processFile_total DependencyResolution (newLuaFile tree subdir name)) as [f Hf].
  exists f. split; [done |].
  assert (HQ : Forall (fun r => r = []) (returns <$> blocks f)
               /\ Forall (fun c => c = []) (callsOf <$> blocks f)).
  { eapply (processFile_invariant
              (fun f => Forall (fun r => r = []) (returns <$> blocks f)
                        /\ Forall (fun c => c = []) (callsOf <$> blocks f))
              DependencyResolution); [| | exact Hf | done |].
    - intros block g f0 Hg _ [Hr Hc]. split.
      + destruct (view_curOp returns (fun _ _ => eq_refl) (fun _ _ => eq_refl)
                    DependencyResolution block g f0 Hg)
          as [-> | [(b & a & ->) | (s & ->)]]; done.
      + destruct (view_curOp callsOf (fun _ _ => eq_refl)
                    (fun a b => callsOf_push (AssignmentElement a) b eq_refl)
                    DependencyResolution block g f0 Hg)
          as [-> | [(b & a & ->) | (s & ->)]]; done.
    - intros nd block f0 _ [Hr Hc].
      rewrite returns_newLuaBlock, callsOf_newLuaBlock.
      split; apply Forall_app; (split; [done | by repeat constructor]).
    - split; by repeat constructor. }
  destruct HQ as [Hr Hc]. intros b Hb.
  rewrite Forall_fmap, Forall_forall in Hr. rewrite Forall_fmap, Forall_forall in Hc.
  split; [by apply Hr |].
  intros e He. specialize (Hc b Hb). simpl in Hc.
  destruct (isCall e) eqn:Hcall; [| done].
  assert (Hin : In e (callsOf b)).
  { apply List.filter_In. split; [by apply list_elem_of_In | done]. }
  rewrite Hc in Hin. destruct Hin.
Qed.

(** ** What reading expressions does, for a relation between walks *)

Section Effects.

Variables (pass : AnalysisPass) (block : nat).
Variable R : Walk -> Walk -> Prop.

Hypothesis R_refl : forall w, R w w.
Hypothesis R_trans : forall w1 w2 w3, R w1 w2 -> R w2 w3 -> R w1 w3.
Hypothesis R_dep : forall name w, R w (onCur (addGlobalDependency pass name) w).
Hypothesis R_file : forall name w, R w (onCur (addFileDependency pass name) w).
Hypothesis R_call : forall base arguments w, R w (onCur (addCall pass block base arguments) w).
Hypothesis R_push : forall nd w, R w (pushBlock pass nd block w).

Lemma effect_fold {A} (step : Walk -> A -> Walk) (l : list A) :
  Forall (fun a => forall w, R w (step w a)) l ->
  forall w, R w (fold_left step l w).
Proof.
  induction 1 as [| a l Ha _ IH]; intros w; simpl; [apply R_refl |].
  eapply R_trans; [apply Ha | apply IH].
Qed.

Lemma readExpression_effect e : forall w, R w (readExpression pass e block w).
Proof.
  induction e using Expression_walk_ind; intros w; simpl; try apply R_refl.
  - destruct (getLocal block n (cur w)); [apply R_refl | apply R_dep].
  - auto.
  - eapply R_trans; [apply IHe1 | apply IHe2].
  - destruct (tryReadRequire_cases pass (CallExpression e args) (cur w)) as [-> | [n ->]].
    + eapply R_trans; [eapply R_trans; [apply IHe |] |].
      * by apply (effect_fold (fun w arg => readExpression pass arg block w)).
      * apply R_call.
    + apply (R_file n).
  - eapply R_trans; [apply IHe1 | apply IHe2].
  - destruct (tryReadRequire_cases pass (StringCallExpression e1 e2) (cur w)) as [-> | [n ->]].
    + eapply R_trans; [apply IHe1 | apply IHe2].
    + apply (R_file n).
  - apply effect_fold.
    eapply Forall_impl; [exact H |]. intros [k v | k v | v]; simpl.
    + intros [Hk Hv] w'. eapply R_trans; [apply Hv | apply Hk].
    + auto.
    + auto.
  - apply R_push.
  - auto.
  - eapply R_trans; [apply IHe1 | apply IHe2].
  - eapply R_trans; [apply IHe1 | apply IHe2].
Qed.

Lemma readExpressions_effect (es : list Expression) w :
  R w (fold_left (fun w e => readExpression pass e block w) es w).
Proof.
  apply (effect_fold (fun w e => readExpression pass e block w)).
  apply Forall_forall. intros e _. apply readExpression_effect.
Qed.

Lemma prepareAssignment_effect variables init w :
  R w (prepareAssignment pass variables init block w).2.
Proof.
  unfold prepareAssignment. simpl.
  eapply R_trans.
  - apply (effect_fold (fun (w : Walk) (r : option Expression) =>
                          match r with
                          | Some e => readExpression pass e block w
                          | None => w
                          end)).
    apply Forall_forall. intros [e |] _ w'; [apply readExpression_effect | apply R_refl].
  - apply (effect_fold (fun (w : Walk) (variable : Expression) =>
                          if isIdentifier variable then w
                          else match targetBase variable with
                               | Some base => readExpression pass base block w
                               | None => w
                               end)).
    apply Forall_forall. intros v _ w'.
    destruct v; simpl; try apply R_refl; apply readExpression_effect.
Qed.

(** Every statement but a [return] is made of the same steps and of
    [addLocalAssignment] and [addAssignment]. *)
Hypothesis R_local :
  forall lhs rhs w, R w (onCur (addLocalAssignment pass block lhs rhs None) w).
Hypothesis R_assignment :
  forall lhs rhs w, R w (onCur (addAssignment pass block lhs rhs) w).

Lemma readStatement_effect s w :
  isReturn s = false -> R w (readStatement pass s block w).
Proof.
  intros Hs. destruct s; simpl; try apply R_refl; try apply R_push; try done.
  - unfold readLocalStatement.
    pose proof (prepareAssignment_effect variables init w) as H.
    destruct (prepareAssignment pass variables init block w) as [[l r] w'].
    eapply R_trans; [exact H | apply R_local].
  - unfold readAssignStatement.
    pose proof (prepareAssignment_effect variables init w) as H.
    destruct (prepareAssignment pass variables init block w) as [[l r] w'].
    eapply R_trans; [exact H | apply R_assignment].
  - apply readExpression_effect.
  - apply effect_fold. apply Forall_forall. intros c _ w'. apply R_push.
  - eapply R_trans; [apply readExpressions_effect | apply R_push].
Qed.

End Effects.

(** *** Return statements *)

Lemma grown_refl w : grown w w.
Proof. exists 0. simpl. by rewrite app_nil_r. Qed.

Lemma grown_length w w' k :
  returns <$> blocks (cur w') = (returns <$> blocks (cur w)) ++ replicate k [] ->
  length (blocks (cur w')) = length (blocks (cur w)) + k.
Proof.
  intros H. apply (f_equal length) in H.
  by rewrite length_app, !length_fmap, length_replicate in H.
Qed.

Lemma grown_trans w1 w2 w3 : grown w1 w2 -> grown w2 w3 -> grown w1 w3.
Proof.
  intros (k1 & Hs1 & Hr1) (k2 & Hs2 & Hr2). exists (k1 + k2).
  rewrite (grown_length _ _ _ Hr1) in Hs2. split.
  - rewrite Hs2, Hs1, seq_app, reverse_app, app_assoc. done.
  - rewrite Hr2, Hr1, <- app_assoc, replicate_add. done.
Qed.

Lemma grown_cur g w :
  returns <$> blocks (g (cur w)) = returns <$> blocks (cur w) -> grown w (onCur g w).
Proof. intros H. exists 0. simpl. by rewrite app_nil_r. Qed.

Lemma grown_push pass nd block w : grown w (pushBlock pass nd block w).
Proof.
  exists 1. split; [by rewrite pushBlock_stack |].
  unfold pushBlock.
  pose proof (returns_newLuaBlock pass nd block (cur w)) as H.
  by destruct (newLuaBlock pass nd block (cur w)).
Qed.

Lemma readExpressions_grown pass block es w :
  grown w (fold_left (fun w e => readExpression pass e block w) es w).
Proof.
  apply (readExpressions_effect pass block grown grown_refl grown_trans).
  - intros n w'. apply grown_cur. by destruct pass.
  - intros n w'. apply grown_cur. by destruct pass.
  - intros b a w'. apply grown_cur. destruct pass; [done |].
    by apply (view_onBlock returns).
  - intros nd w'. apply grown_push.
Qed.

Lemma readStatement_grown pass block s w :
  isReturn s = false -> grown w (readStatement pass s block w).
Proof.
  apply (readStatement_effect pass block grown grown_refl grown_trans).
  - intros n w'. apply grown_cur. by destruct pass.
  - intros n w'. apply grown_cur. by destruct pass.
  - intros b a w'. apply grown_cur. destruct pass; [done |].
    by apply (view_onBlock returns).
  - intros nd w'. apply grown_push.
  - intros l r w'. apply grown_cur. by apply (view_addLocalAssignment returns).
  - intros l r w'. apply grown_cur. by apply (view_addAssignment returns).
Qed.

Lemma grown_readAs block w w' : grown w w' -> readAs block [] w w'.
Proof.
  intros (k & Hs & Hr). exists k. split; [done |]. rewrite Hr. f_equal.
  symmetry. apply list_alter_id. intros r. apply app_nil_r.
Qed.

Lemma readAs_trans block e1 e2 w1 w2 w3 :
  block < length (blocks (cur w1)) ->
  readAs block e1 w1 w2 -> readAs block e2 w2 w3 -> readAs block (e1 ++ e2) w1 w3.
Proof.
  intros Hb (k1 & Hs1 & Hr1) (k2 & Hs2 & Hr2). exists (k1 + k2).
  assert (Hlen : length (blocks (cur w2)) = length (blocks (cur w1)) + k1).
  { apply (f_equal length) in Hr1.
    by rewrite length_app, length_alter, !length_fmap, length_replicate in Hr1. }
  rewrite Hlen in Hs2. split.
  - rewrite Hs2, Hs1, seq_app, reverse_app, app_assoc. done.
  - rewrite Hr2, Hr1, alter_app_l by (by rewrite length_alter, length_fmap).
    rewrite list_alter_alter_eq, <- app_assoc, replicate_add. f_equal.
    apply list_alter_ext; [| done]. intros r _. simpl. by rewrite app_assoc.
Qed.

Lemma readStatement_readAs block s w :
  block < length (blocks (cur w)) ->
  readAs block (List.filter isReturn [s]) w (readStatement TypeResolution s block w).
Proof.
  intros Hb. destruct (isReturn s) eqn:Hs.
  - destruct s; try done. simpl.
    set (w1 := fold_left _ arguments w).
    change [ReturnStatement arguments] with ([] ++ [ReturnStatement arguments]).
    apply readAs_trans with (w2 := w1); [done | |].
    + apply grown_readAs, readExpressions_grown.
    + exists 0. split; [done |].
      cbn [replicate]. rewrite app_nil_r. unfold addReturn, onCur, onBlock. cbn [cur blocks withBlocks].
      apply (list_fmap_alter returns). apply Forall_forall. done.
  - simpl. rewrite Hs. by apply grown_readAs, readStatement_grown.
Qed.

Lemma readAs_length block e w w' :
  readAs block e w w' -> length (blocks (cur w)) <= length (blocks (cur w')).
Proof.
  intros (k & _ & Hr). apply (f_equal length) in Hr.
  rewrite length_app, length_alter, !length_fmap, length_replicate in Hr. lia.
Qed.

Lemma readBody_readAs block body :
  forall w,
    block < length (blocks (cur w)) ->
    readAs block (List.filter isReturn body) w
      (fold_left (fun w statement => readStatement TypeResolution statement block w) body w).
Proof.
  induction body as [| s body IH]; intros w Hb.
  - apply grown_readAs, grown_refl.
  - change (List.filter isReturn (s :: body))
      with (List.filter isReturn ([s] ++ body)).
    rewrite List.filter_app. cbn [fold_left].
    pose proof (readStatement_readAs block s w Hb) as H1.
    eapply readAs_trans; [done | exact H1 |].
    apply IH. apply readAs_length in H1. lia.
Qed.

Lemma walkSteps_nodes pass block c w w' :
  walkSteps pass block c w w' -> exists new, nodes (cur w') = nodes (cur w) ++ new.
Proof.
  induction 1 as [w | g c w w' Hg _ (new & IH) | nd c w w' _ (new & IH)].
  - exists []. by rewrite app_nil_r.
  - exists new. rewrite IH. simpl. by rewrite (curOp_nodes _ _ _ _ Hg).
  - exists ([nd] ++ new). rewrite IH, app_assoc. f_equal.
    apply (f_equal fst (pushBlock_frame pass nd block w)).
Qed.

Lemma readBody_returnsDone base block rest f :
  returnsDone base (mkWalk (block :: rest) f) ->
  returnsDone base (readBody TypeResolution block (mkWalk rest f)).
Proof.
  intros (Hnd & Hv & Hret).
  apply NoDup_cons in Hnd as [Hfresh Hnd].
  inversion Hv as [| ? ? Hb Hrest]; subst. simpl in Hb, Hrest.
  set (w0 := mkWalk rest f). set (w1 := readBody TypeResolution block w0).
  assert (Has : readAs block (List.filter isReturn (getBody block f)) w0 w1)
    by exact (readBody_readAs block (getBody block f) w0 Hb).
  destruct Has as (k & Hs & Hr).
  destruct (readBody_within TypeResolution block w0) as (c & _ & Hsteps).
  apply walkSteps_nodes in Hsteps as [new Hnodes]. fold w1 in Hnodes.
  simpl in Hs, Hr, Hnodes.
  assert (Hlen : length (blocks (cur w1)) = length (blocks f) + k).
  { apply (f_equal length) in Hr.
    by rewrite length_app, length_alter, !length_fmap, length_replicate in Hr. }
  assert (Hin : forall i, i ∈ stack w1 <-> (length (blocks f) <= i < length (blocks f) + k) \/ i ∈ rest).
  { intros i. rewrite Hs, elem_of_app, elem_of_reverse, elem_of_seq. done. }
  split; [| split].
  - rewrite Hs. apply NoDup_app. split; [rewrite reverse_Permutation; apply NoDup_seq |].
    split; [| done]. intros x Hx Hx'.
    apply elem_of_reverse, elem_of_seq in Hx.
    rewrite Forall_forall in Hrest. specialize (Hrest x Hx'). simpl in Hrest. lia.
  - unfold stackValid. apply Forall_forall. intros x Hx. apply Hin in Hx as [Hx | Hx].
    + lia.
    + rewrite Forall_forall in Hrest. specialize (Hrest x Hx). simpl in Hrest. lia.
  - intros i b1 Hb1 Hi.
    assert (Hr1 : (returns <$> blocks (cur w1)) !! i = Some (returns b1))
      by (by rewrite list_lookup_fmap, Hb1).
    assert (Hn1 : nodes (cur w1) !! i = Some (node b1))
      by (unfold nodes; by rewrite list_lookup_fmap, Hb1).
    rewrite Hr in Hr1. rewrite Hnodes in Hn1.
    destruct (decide (i < length (blocks f))) as [Hlt | Hge].
    + rewrite lookup_app_l in Hr1 by (by rewrite length_alter, length_fmap).
      rewrite lookup_app_l in Hn1 by (by rewrite nodes_length).
      destruct (lookup_lt_is_Some_2 (blocks f) i Hlt) as [b0 Hb0].
      unfold nodes in Hn1. rewrite list_lookup_fmap, Hb0 in Hn1. simpl in Hn1.
      injection Hn1 as Hnode.
      pose proof (Hret i b0 Hb0 Hi) as Hold. simpl in Hold.
      destruct (decide (i = block)) as [-> | Hne].
      * rewrite list_lookup_alter_eq, list_lookup_fmap, Hb0 in Hr1. simpl in Hr1.
        injection Hr1 as <-.
        rewrite bool_decide_true in Hold by (by left). rewrite Hold. simpl.
        rewrite bool_decide_false.
        -- unfold getBody. by rewrite Hb0, Hnode.
        -- rewrite Hin. intros [? | ?]; [lia | done].
      * rewrite list_lookup_alter_ne, list_lookup_fmap, Hb0 in Hr1 by done. simpl in Hr1.
        injection Hr1 as <-. rewrite Hold, <- Hnode.
        destruct (decide (i ∈ rest)) as [Hir | Hir].
        -- rewrite !bool_decide_true; [done | | by right]. apply Hin. by right.
        -- rewrite !bool_decide_false; [done | |].
           ++ rewrite Hin. intros [? | ?]; [lia | done].
           ++ intros Hc. apply elem_of_cons in Hc as [? | ?]; done.
    + apply lookup_lt_Some in Hb1. rewrite Hlen in Hb1.
      rewrite lookup_app_r in Hr1 by (rewrite length_alter, length_fmap; lia).
      apply lookup_replicate in Hr1 as [Hr1 _].
      rewrite <- Hr1. rewrite bool_decide_true; [done |]. apply Hin. left. lia.
Qed.

Lemma processLoop_returnsDone base fuel :
  forall w f,
    processLoop TypeResolution fuel w = Some f -> returnsDone base w ->
    forall i b,
      blocks f !! i = Some b -> i = 0 \/ base <= i ->
      returns b = List.filter isReturn (nodeBody (node b)).
Proof.
  induction fuel as [| fuel IH]; intros [s f0] f; destruct s as [| block rest]; simpl;
    intros H Hdone; simplify_eq.
  - intros i b Hb Hi. destruct Hdone as (_ & _ & Hret).
    rewrite (Hret i b Hb Hi). cbn [stack].
    case_bool_decide as Hc; [by apply not_elem_of_nil in Hc | done].
  - intros i b Hb Hi. destruct Hdone as (_ & _ & Hret).
    rewrite (Hret i b Hb Hi). cbn [stack].
    case_bool_decide as Hc; [by apply not_elem_of_nil in Hc | done].
  - eapply IH; [exact H |]. by apply readBody_returnsDone.
Qed.

(** X3.  A walk in the type-resolution pass that starts from a root scope
    with no return recorded leaves, in the root and in every block it
    creates, exactly the return statements of the block's own body, in
    source order. *)
Theorem type_walk_collects_returns file f :
  processFile TypeResolution file = Some f ->
  returns <$> blocks file !! 0 = Some [] ->
  forall i b,
    blocks f !! i = Some b -> i = 0 \/ length (blocks file) <= i ->
    returns b = List.filter isReturn (nodeBody (node b)).
Proof.
  intros H Hroot. apply (processLoop_returnsDone (length (blocks file)) _ _ _ H).
  destruct (blocks file !! 0) as [b0 |] eqn:Hb0; [| done]. simpl in Hroot.
  injection Hroot as Hroot.
  split; [apply NoDup_singleton |]. split.
  - constructor; [| constructor]. simpl. by apply lookup_lt_Some in Hb0.
  - intros i b Hb [-> | Hi].
    + simpl in Hb. rewrite Hb0 in Hb. injection Hb as <-.
      cbn [stack]. case_bool_decide as Hc; [done |]. exfalso. apply Hc. by left.
    + simpl in Hb. apply lookup_lt_Some in Hb. lia.
Qed.

Lemma walkedScoped_walk :
  processFile TypeResolution (newLuaFile Sample.scoped Shared "main") = Some Sample.walkedScoped.
Proof. vm_compute. reflexivity. Qed.

Lemma type_walk_collects_returns_witness :
  returns <$> blocks (newLuaFile Sample.scoped Shared "main") !! 0 = Some []
  /\ exists b,
       blocks Sample.walkedScoped !! 1 = Some b
       /\ returns b = [ReturnStatement [Identifier "x"]]
       /\ returns b = List.filter isReturn (nodeBody (node b)).
Proof.
  split; [reflexivity |]. eexists. split; [vm_compute; reflexivity |].
  split; [reflexivity |].
  apply (type_walk_collects_returns (newLuaFile Sample.scoped Shared "main") Sample.walkedScoped
           walkedScoped_walk eq_refl 1).
  - vm_compute. reflexivity.
  - right. simpl. lia.
Defined.


(** ** The shape of the scope tree *)

Lemma walkSteps_count pass block c w w' :
  walkSteps pass block c w w' ->
  length (blocks (cur w')) + length (stack w) = length (blocks (cur w)) + length (stack w').
Proof.
  induction 1 as [w | g c w w' Hg _ IH | nd c w w' _ IH]; [done | |].
  - simpl in IH. rewrite <- !nodes_length, (curOp_nodes _ _ _ _ Hg), !nodes_length in IH.
    exact IH.
  - rewrite pushBlock_stack in IH. simpl in IH.
    pose proof (f_equal fst (pushBlock_frame pass nd block w)) as Hf.
    cbn [fst frameOf] in Hf. apply (f_equal length) in Hf.
    rewrite length_app, !nodes_length in Hf. simpl in Hf. lia.
Qed.

Lemma processLoop_bound pass fuel :
  forall w f,
    processLoop pass fuel w = Some f -> stackValid w ->
    length (blocks f) + length (stack w) <= length (blocks (cur w)) + pendingScopes w
    /\ exists new, nodes f = nodes (cur w) ++ new.
Proof.
  induction fuel as [| fuel IH]; intros [s f0] f; destruct s as [| block rest]; simpl;
    intros H Hv; simplify_eq.
  - split; [unfold pendingScopes; simpl; lia |]. exists []. by rewrite app_nil_r.
  - split; [unfold pendingScopes; simpl; lia |]. exists []. by rewrite app_nil_r.
  - inversion Hv as [| ? ? Hb Hrest]; subst.
    destruct (readBody_within pass block (mkWalk rest f0)) as (c & Hc & Hsteps).
    pose proof (walkSteps_pending _ _ _ _ _ Hsteps Hrest) as [Hv' Hle].
    pose proof (walkSteps_count _ _ _ _ _ Hsteps) as Hcount.
    destruct (walkSteps_nodes _ _ _ _ _ Hsteps) as [new1 Hn1].
    destruct (IH _ _ H Hv') as (Hbound & new2 & Hn2).
    split.
    + unfold pendingScopes in *. simpl in *. lia.
    + exists (new1 ++ new2). rewrite Hn2, Hn1. simpl. by rewrite app_assoc.
Qed.


(** *** Children *)

Lemma children_curOp pass block g f :
  curOp pass block g -> children <$> blocks (g f) = children <$> blocks f.
Proof.
  intros Hg.
  destruct (view_curOp children (fun _ _ => eq_refl) (fun _ _ => eq_refl) pass block g f Hg)
    as [H | [(b & a & ->) | (s & ->)]]; [done | |].
  - destruct pass; [done |]. by apply (view_onBlock children).
  - destruct pass; [done |]. by apply (view_onBlock children).
Qed.

Lemma children_newLuaBlock pass nd parent f :
  children <$> blocks (newLuaBlock pass nd parent f).2
  = alter (fun c => c ++ [length (blocks f)]) parent ((children <$> blocks f) ++ [[]]).
Proof.
  destruct (view_newLuaBlock children (fun _ _ => eq_refl) (fun _ _ => eq_refl) pass nd parent f)
    as (f2 & -> & H).
  unfold addChild. rewrite (view_onBlock children) by done.
  unfold onBlock at 1. cbn [blocks withBlocks].
  rewrite (list_fmap_alter children _ (fun c => c ++ [length (blocks f)]))
    by (apply Forall_forall; done).
  by rewrite (view_onBlock children), H.
Qed.

Lemma linksOk_newLuaBlock pass nd parent f :
  parent < length (blocks f) ->
  linksOk f /\ Forall NoDup (children <$> blocks f) ->
  linksOk (newLuaBlock pass nd parent f).2
  /\ Forall NoDup (children <$> blocks (newLuaBlock pass nd parent f).2).
Proof.
  intros Hp [Hl Hnd]. set (n := length (blocks f)).
  assert (Hlen : length (children <$> blocks f) = n) by apply length_fmap.
  assert (Hfresh : forall p, n ∉ default [] ((children <$> blocks f) !! p)).
  { intros p Hin. apply Hl in Hin. apply lookup_lt_Some in Hin.
    rewrite parents_length in Hin. unfold n in Hin. lia. }
  split.
  - intros p c. rewrite children_newLuaBlock, newLuaBlock_parents. fold n.
    destruct (decide (p = parent)) as [-> | Hne].
    + rewrite list_lookup_alter_eq, lookup_app_l by (rewrite ?Hlen; lia).
      destruct ((children <$> blocks f) !! parent) as [cs |] eqn:Hcs;
        [| apply lookup_ge_None in Hcs; lia].
      simpl. rewrite elem_of_app, list_elem_of_singleton.
      specialize (Hl parent c). rewrite Hcs in Hl. simpl in Hl. rewrite Hl.
      destruct (decide (c = n)) as [-> | Hc].
      * rewrite lookup_app_r by (rewrite parents_length; unfold n; lia).
        rewrite parents_length. fold n. rewrite Nat.sub_diag. simpl.
        split; [done | by right].
      * split.
        -- intros [H | H]; [| done]. rewrite lookup_app_l; [done |].
           by apply lookup_lt_Some in H.
        -- intros H. left. apply lookup_app_Some in H as [H | [Hge H]]; [done |].
           rewrite parents_length in H, Hge. fold n in H, Hge.
           destruct (c - n) as [| k] eqn:Hk; simpl in H; [lia | done].
    + rewrite list_lookup_alter_ne by done.
      destruct (decide (c = n)) as [-> | Hc].
      * rewrite (lookup_app_r (parents f)) by (rewrite parents_length; unfold n; lia).
        rewrite parents_length. fold n. rewrite Nat.sub_diag. simpl.
        split; [| intros H; by simplify_eq].
        intros Hin. exfalso. destruct (decide (p < n)) as [Hlt | Hge].
        -- rewrite lookup_app_l in Hin by (rewrite ?Hlen; lia). by apply (Hfresh p).
        -- rewrite lookup_app_r in Hin by (rewrite ?Hlen; lia).
           destruct (p - length (children <$> blocks f)) as [| k]; simpl in Hin;
             by apply not_elem_of_nil in Hin.
      * assert (Hold : c ∈ default [] (((children <$> blocks f) ++ [[]]) !! p)
                       <-> c ∈ default [] ((children <$> blocks f) !! p)).
        { destruct (decide (p < n)) as [Hlt | Hge].
          - by rewrite lookup_app_l by (rewrite ?Hlen; lia).
          - rewrite lookup_app_r by (rewrite ?Hlen; lia).
            rewrite (proj2 (lookup_ge_None (children <$> blocks f) p))
              by (rewrite ?Hlen; lia).
            destruct (p - length (children <$> blocks f)) as [| k]; simpl;
              split; intros H; by apply not_elem_of_nil in H. }
        rewrite Hold, (Hl p c). split.
        -- intros H. rewrite lookup_app_l; [done |]. by apply lookup_lt_Some in H.
        -- intros H. apply lookup_app_Some in H as [H | [Hge H]]; [done |].
           rewrite parents_length in H, Hge. fold n in H, Hge.
           destruct (c - n) as [| k] eqn:Hk; simpl in H; [lia | done].
  - rewrite children_newLuaBlock. fold n.
    apply Forall_alter.
    + apply Forall_app. split; [done |]. repeat constructor.
    + intros cs Hcs. apply lookup_app_Some in Hcs as [Hcs | [Hge _]]; [| lia].
      rewrite Forall_forall in Hnd.
      intros Hno. apply NoDup_app. split; [done |]. split; [| apply NoDup_singleton].
      intros x Hx Hx'. apply list_elem_of_singleton in Hx'. subst x.
      apply (Hfresh parent). by rewrite Hcs.
Qed.

Lemma processFile_links pass tree subdir name f :
  processFile pass (newLuaFile tree subdir name) = Some f ->
  parentsOk f /\ linksOk f /\ Forall NoDup (children <$> blocks f).
Proof.
  intros Hf.
  eapply (processFile_invariant
            (fun f => parentsOk f /\ linksOk f /\ Forall NoDup (children <$> blocks f))
            pass); [| | exact Hf | done |].
  - intros block g f0 Hg _ (Hp & Hl & Hnd). split; [| split].
    + unfold parentsOk. by rewrite (curOp_parents _ _ _ _ Hg).
    + unfold linksOk. by rewrite (children_curOp _ _ _ _ Hg), (curOp_parents _ _ _ _ Hg).
    + by rewrite (children_curOp _ _ _ _ Hg).
  - intros nd block f0 Hb (Hp & Hl & Hnd). split.
    + eapply parentsOk_snoc; [exact Hp | apply newLuaBlock_parents | done].
    + by apply linksOk_newLuaBlock.
  - split; [apply newLuaFile_parentsOk |]. split.
    + intros p c. simpl. split.
      * destruct p as [| [| p]]; simpl; intros H; by apply not_elem_of_nil in H.
      * destruct c as [| [| c]]; simpl; intros H; by simplify_eq.
    + simpl. repeat constructor.
Qed.



(** *** Name lookup *)

Lemma childOf_lt f c p : parentsOk f -> childOf f c p -> p < c.
Proof.
  intros Hok Hc. unfold childOf in Hc. rewrite parent_lookup in Hc.
  destruct (parents f !! c) as [q |] eqn:Hq; simpl in Hc; [| done]. subst q.
  specialize (Hok c _ Hq). destruct c as [| c]; [done |].
  destruct Hok as (q & Hq' & Hlt). by simplify_eq.
Qed.

Lemma rtc_childOf_le f c a : parentsOk f -> rtc (childOf f) c a -> a <= c.
Proof.
  intros Hok. induction 1 as [| c p a H _ IH]; [done |].
  apply (childOf_lt f c p Hok) in H. lia.
Qed.

Lemma tc_childOf_lt f c a : parentsOk f -> tc (childOf f) c a -> a < c.
Proof.
  intros Hok. induction 1 as [c a H | c p a H _ IH].
  - by apply (childOf_lt f c a Hok).
  - apply (childOf_lt f c p Hok) in H. lia.
Qed.


Lemma walkedScoped_parentsOk : parentsOk Sample.walkedScoped.
Proof.
  eapply processFile_parentsOk;
    [exact walkedScoped_walk | done | apply newLuaFile_parentsOk].
Qed.



(** ** Locals of a block *)

Lemma localAt_setLocal i x this l f :
  this < length (blocks f) ->
  localAt i x (onBlock this (setLocal l) f)
  = if decide (i = this /\ x = local_name l) then Some l else localAt i x f.
Proof.
  intros Hlt. unfold localAt, onBlock. simpl.
  destruct (decide (i = this)) as [-> | Hne].
  - rewrite list_lookup_alter_eq.
    destruct (lookup_lt_is_Some_2 _ _ Hlt) as [b ->]. simpl.
    destruct (decide (x = local_name l)) as [-> | Hx].
    + rewrite decide_True by done. apply lookup_insert_eq.
    + rewrite decide_False by tauto. by apply lookup_insert_ne.
  - rewrite list_lookup_alter_ne by done. by rewrite decide_False by tauto.
Qed.

Lemma localAt_heap i x h f : localAt i x (withAssignmentHeap h f) = localAt i x f.
Proof. reflexivity. Qed.

Lemma length_onBlock i g f : length (blocks (onBlock i g f)) = length (blocks f).
Proof. unfold onBlock. simpl. apply length_alter. Qed.

Lemma localAt_bindAll i x this a expr :
  forall f,
    this < length (blocks f) ->
    localAt i x (bindAll this a expr f)
    = if decide (i = this /\ x ∈ map identName expr) then Some (mkLocal x [a])
      else localAt i x f.
Proof.
  unfold bindAll. induction expr as [| e expr IH]; intros f Hlt; simpl.
  - rewrite decide_False; [done |]. intros [_ H]. by apply not_elem_of_nil in H.
  - rewrite IH by (by rewrite length_onBlock).
    rewrite localAt_setLocal by done. simpl.
    destruct (decide (i = this)) as [-> | Hne].
    + destruct (decide (x ∈ map identName expr)) as [Hin | Hnin].
      * rewrite !decide_True; [done | | done]. split; [done | by right].
      * rewrite (decide_False (P := this = this /\ x ∈ map identName expr)) by tauto.
        destruct (decide (x = identName e)) as [-> | Hx].
        -- rewrite !decide_True; [done | | done]. split; [done | by left].
        -- rewrite !decide_False; [done | | tauto].
           intros [_ H]. apply elem_of_cons in H as [? | ?]; done.
    + rewrite !decide_False by tauto. done.
Qed.

Lemma elements_bindAll this a expr f :
  elements <$> blocks (bindAll this a expr f) = elements <$> blocks f.
Proof.
  unfold bindAll. apply (view_fold elements). intros ident f'.
  by apply (view_onBlock elements).
Qed.

Lemma heap_bindAll this a expr :
  forall f, assignmentHeap (bindAll this a expr f) = assignmentHeap f.
Proof.
  unfold bindAll. induction expr as [| e expr IH]; intros f; simpl; [done |].
  by rewrite IH.
Qed.



Lemma localAt_addBlockLocals i x this expressions rhs type addSelf f :
  this < length (blocks f) ->
  localAt i x (addBlockLocals this expressions rhs type addSelf f)
  = if decide (i = this
               /\ x ∈ map identName
                        ((if addSelf then [Identifier "self"] else [])
                         ++ filter (fun p => isVararg p = false) expressions))
    then Some (mkLocal x [length (assignmentHeap f)])
    else localAt i x f.
Proof.
  intros Hlt. unfold addBlockLocals, allocAssignment.
  by rewrite localAt_pushElement, localAt_bindAll.
Qed.

Lemma heap_addBlockLocals this expressions rhs type addSelf f :
  length (assignmentHeap (addBlockLocals this expressions rhs type addSelf f))
  = S (length (assignmentHeap f)).
Proof.
  unfold addBlockLocals, allocAssignment. cbn [assignmentHeap onBlock withBlocks].
  rewrite heap_bindAll. simpl. rewrite length_app. simpl. lia.
Qed.

Lemma localAt_keep i x j g f :
  (forall b, locals (g b) = locals b) -> localAt i x (onBlock j g f) = localAt i x f.
Proof.
  intros Hg. unfold localAt, onBlock. simpl.
  destruct (decide (j = i)) as [-> | Hne].
  - rewrite list_lookup_alter_eq. destruct (blocks f !! i); simpl; [by rewrite Hg | done].
  - by rewrite list_lookup_alter_ne.
Qed.

Lemma localAt_addChild i x this child f : localAt i x (addChild this child f) = localAt i x f.
Proof. unfold addChild. by rewrite !localAt_keep. Qed.

Lemma getLocal_top f c x :
  parents f !! c = Some None -> getLocal c x f = (fun l => (c, l)) <$> localAt c x f.
Proof.
  unfold parents, getLocal, localAt. rewrite list_lookup_fmap. simpl.
  destruct (blocks f !! c) as [b |]; simpl; [| done].
  intros H. injection H as H. destruct (locals b !! x); [done |].
  rewrite H. by destruct (length (blocks f)).
Qed.




(** ** Initializers past the last target *)

Lemma initializers_take (variables init : list Expression) :
  imap (fun i _ => init !! i) variables
  = imap (fun i _ => take (length variables) init !! i) variables.
Proof.
  apply list_eq. intros i. rewrite !list_lookup_imap.
  destruct (variables !! i) as [v |] eqn:Hv; simpl; [| done].
  apply lookup_lt_Some in Hv. by rewrite lookup_take_lt.
Qed.

(** X10.  An assignment or local declaration reads as many initializers as
    it has targets: the initializers past the last target are never read,
    so the statement is walked as if they were not there, and the
    right-hand side that is recorded has exactly one entry for each target,
    the missing ones being undefined. *)
Theorem initializers_past_the_targets_are_ignored pass variables init block w :
  readStatement pass (LocalStatement variables init) block w
  = readStatement pass (LocalStatement variables (take (length variables) init)) block w
  /\ readStatement pass (AssignmentStatement variables init) block w
     = readStatement pass (AssignmentStatement variables (take (length variables) init)) block w
  /\ (prepareAssignment pass variables init block w).1.1 = variables
  /\ length (prepareAssignment pass variables init block w).1.2 = length variables
  /\ forall i, i < length variables ->
       (prepareAssignment pass variables init block w).1.2 !! i = Some (init !! i).
Proof.
  assert (Hprep : prepareAssignment pass variables init block w
                  = prepareAssignment pass variables (take (length variables) init) block w).
  { unfold prepareAssignment. by rewrite <- initializers_take. }
  split; [| split; [| split; [| split]]].
  - simpl. unfold readLocalStatement. by rewrite Hprep.
  - simpl. unfold readAssignStatement. by rewrite Hprep.
  - reflexivity.
  - simpl. apply length_imap.
  - intros i Hi. simpl. rewrite list_lookup_imap.
    destruct (lookup_lt_is_Some_2 variables i Hi) as [v ->]. done.
Qed.

(** ** [cleanup] *)

Lemma setDelete_filter gs :
  forall deps,
    fold_left (fun deps dep => setDelete dep deps) gs deps
    = filter (fun x => x ∉ gs) deps.
Proof.
  induction gs as [| g gs IH]; intros deps; simpl.
  - induction deps as [| d deps IH]; [done |].
    rewrite filter_cons_True by apply not_elem_of_nil. by rewrite <- IH.
  - rewrite IH. unfold setDelete. rewrite list_filter_filter.
    apply list_filter_iff. intros x. rewrite not_elem_of_cons. tauto.
Qed.

Lemma filter_twice (gs deps : list string) :
  filter (fun x => x ∉ gs) (filter (fun x => x ∉ gs) deps) = filter (fun x => x ∉ gs) deps.
Proof. rewrite list_filter_filter. apply list_filter_iff. tauto. Qed.

(** X11.  [cleanup] and [finalize] remove from the global reads exactly the
    names the file writes, keeping the others in their order, and leave
    identity, group, global writes and required identities alone; applied
    a second time they change nothing. *)
Theorem cleanup_drops_own_globals_once f :
  globalDependencies (cleanup f) = filter (fun x => x ∉ globalsSet f) (globalDependencies f)
  /\ globalDependencies (finalize f) = filter (fun x => x ∉ globalsSet f) (globalDependencies f)
  /\ (name (cleanup f), subdirectory (cleanup f), globalsSet (cleanup f),
      fileDependencies (cleanup f))
     = (name f, subdirectory f, globalsSet f, fileDependencies f)
  /\ cleanup (cleanup f) = cleanup f
  /\ finalize (finalize f) = finalize f.
Proof.
  assert (Hd : forall g, dropOwnGlobals (dropOwnGlobals g) = dropOwnGlobals g).
  { intros g. unfold dropOwnGlobals, withGlobalDependencies. simpl.
    by rewrite !setDelete_filter, filter_twice. }
  split; [apply setDelete_filter |]. split; [apply setDelete_filter |].
  split; [done |]. split; [| apply Hd].
  unfold cleanup.
  assert (Hc : forall g, dropOwnGlobals (onBlock 0 clearBlock g)
                         = onBlock 0 clearBlock (dropOwnGlobals g)) by done.
  rewrite Hc, Hd. unfold onBlock. simpl. unfold withBlocks. simpl. f_equal.
  rewrite list_alter_alter_eq. by apply list_alter_ext.
Qed.

(** ** File identities *)

Lemma sepChar_not c d :
  (d = "."%char \/ d = "\"%char) -> Ascii.eqb (sepChar c) d = false.
Proof.
  intros Hd. unfold sepChar.
  destruct (Ascii.eqb c "\") eqn:E1; simpl.
  - destruct Hd as [-> | ->]; done.
  - destruct (Ascii.eqb c ".") eqn:E2; simpl.
    + destruct Hd as [-> | ->]; done.
    + destruct Hd as [-> | ->]; done.
Qed.

Lemma indexOf_mapChars_sep d s :
  (d = "."%char \/ d = "\"%char) -> Str.indexOf d (Str.mapChars sepChar s) = None.
Proof.
  intros Hd. induction s as [| c s IH]; simpl; [done |].
  by rewrite (sepChar_not c d Hd), IH.
Qed.

Lemma indexOf_app_here c p s : Str.indexOf c (p ++ String c s)%string <> None.
Proof.
  induction p as [| c' p IH]; simpl.
  - by rewrite Ascii.eqb_refl.
  - change (String c' p ++ String c s)%string with (String c' (p ++ String c s)%string).
    simpl. destruct (Ascii.eqb c' c); [done |].
    by destruct (Str.indexOf c (p ++ String c s)%string).
Qed.

Lemma mapChars_sep_id s :
  Str.indexOf "." s = None -> Str.indexOf "\" s = None -> Str.mapChars sepChar s = s.
Proof.
  induction s as [| c s IH]; simpl; [done |].
  destruct (Ascii.eqb c ".") eqn:E1; [done |].
  destruct (Ascii.eqb c "\") eqn:E2; [done |].
  destruct (Str.indexOf "." s); [done |]. destruct (Str.indexOf "\" s); [done |].
  intros _ _. rewrite IH by done. unfold sepChar. by rewrite E1, E2.
Qed.

(** X12.  A file identity holds neither a dot nor a backslash, and
    normalising an identity again returns it unchanged: the extension is
    stripped at most once. *)
Theorem getFileIdentifier_is_normal name :
  Str.indexOf "." (getFileIdentifier name) = None
  /\ Str.indexOf "\" (getFileIdentifier name) = None
  /\ getFileIdentifier (getFileIdentifier name) = getFileIdentifier name.
Proof.
  assert (H1 : Str.indexOf "." (getFileIdentifier name) = None)
    by (apply indexOf_mapChars_sep; by left).
  assert (H2 : Str.indexOf "\" (getFileIdentifier name) = None)
    by (apply indexOf_mapChars_sep; by right).
  split; [done |]. split; [done |].
  set (y := getFileIdentifier name) in *. unfold getFileIdentifier.
  destruct (Str.endsWith y ".lua") eqn:He.
  - exfalso. apply endsWith_suffix in He as [p Hp].
    rewrite Hp in H1. by apply (indexOf_app_here "."%char p "lua") in H1.
  - by apply mapChars_sep_id.
Qed.

(** ** The diagnostics of a scan *)

Lemma readEntry_diagnostics subdir dirPath entry s :
  errors (analyzer (readEntry subdir dirPath entry s))
  ++ pendingDiagnostics (pending (readEntry subdir dirPath entry s))
  = errors (analyzer s) ++ diagnosticsEntry dirPath entry ++ pendingDiagnostics (pending s).
Proof.
  destruct entry as [n content | n d | n]; simpl; try done.
  destruct (isLuaFile n); [| done].
  destruct content as [e | e | tree]; simpl.
  - by rewrite <- app_assoc.
  - by rewrite <- app_assoc.
  - by destruct (processFile (pass (analyzer s)) _).
Qed.

Lemma readEntries_diagnostics subdir dirPath entries :
  forall s,
    errors (analyzer (fold_left (fun s entry => readEntry subdir dirPath entry s) entries s))
    ++ pendingDiagnostics
         (pending (fold_left (fun s entry => readEntry subdir dirPath entry s) entries s))
    ≡ₚ errors (analyzer s) ++ concat (map (diagnosticsEntry dirPath) entries)
       ++ pendingDiagnostics (pending s).
Proof.
  induction entries as [| entry entries IH]; intros s; simpl; [done |].
  rewrite IH, <- app_assoc.
  rewrite (app_assoc (errors (analyzer (readEntry subdir dirPath entry s)))).
  rewrite (Permutation_app_comm (errors _) (concat _)), <- app_assoc.
  rewrite readEntry_diagnostics.
  rewrite !app_assoc. apply Permutation_app_tail.
  rewrite <- !app_assoc. rewrite (Permutation_app_comm (concat _)). 
  by rewrite !app_assoc.
Qed.

Lemma scanDirectory_diagnostics subdir dirPath d s :
  errors (analyzer (scanDirectory subdir dirPath d s))
  ++ pendingDiagnostics (pending (scanDirectory subdir dirPath d s))
  ≡ₚ errors (analyzer s) ++ diagnosticsDir dirPath d ++ pendingDiagnostics (pending s).
Proof.
  destruct d as [entries scanError]. simpl.
  pose proof (readEntries_diagnostics subdir dirPath entries s) as H.
  destruct scanError as [e |]; simpl.
  - rewrite <- app_assoc, (Permutation_app_comm [ScanFailed dirPath e]), app_assoc, H.
    rewrite <- !app_assoc. do 2 apply Permutation_app_head.
    apply Permutation_app_comm.
  - by rewrite app_nil_r.
Qed.

Lemma readDirectoryLoop_diagnostics subdir fuel :
  forall s rec an,
    readDirectoryLoop subdir fuel s = Some (rec, an) ->
    errors an ≡ₚ errors (analyzer s) ++ pendingDiagnostics (pending s).
Proof.
  induction fuel as [| fuel IH]; intros [pd fm an0] rec an;
    destruct pd as [| [dirPath d] rest]; simpl; intros Hr; simplify_eq.
  - by rewrite app_nil_r.
  - by rewrite app_nil_r.
  - rewrite (IH _ _ _ Hr).
    apply (scanDirectory_diagnostics subdir dirPath d (mkScan rest fm an0)).
Qed.

Lemma readGroups_diagnostics input subdirs :
  forall files an files' an',
    readGroups input subdirs files an = Some (files', an') ->
    errors an' ≡ₚ errors an ++ concat (map (fun subdir => diagnosticsDir "" (input subdir)) subdirs).
Proof.
  induction subdirs as [| subdir rest IH]; intros files an files' an' Hr; simpl in Hr.
  - simplify_eq. simpl. by rewrite app_nil_r.
  - destruct (readDirectory subdir (input subdir) (files subdir) an) as [[rec an1] |] eqn:Hd;
      [| done].
    rewrite (IH _ _ _ _ Hr). apply readDirectoryLoop_diagnostics in Hd. simpl in Hd.
    rewrite Hd. unfold pendingDiagnostics. simpl. rewrite app_nil_r. by rewrite <- app_assoc.
Qed.


(** ** The keys of a group's table *)

Lemma recKeys_recSet k name file rec :
  k ∈ recKeys (recSet name file rec) <-> k = name \/ k ∈ recKeys rec.
Proof.
  unfold recKeys. induction rec as [| [k' v] rec IH]; simpl.
  - rewrite list_elem_of_singleton. split; [by left | intros [? | H]; [done |]].
    by apply not_elem_of_nil in H.
  - destruct (String.eqb k' name) eqn:E; simpl.
    + apply String.eqb_eq in E. subst k'. rewrite !elem_of_cons. tauto.
    + rewrite !elem_of_cons, IH. tauto.
Qed.

Lemma parsedIdentity_app l1 l2 k :
  parsedIdentity (l1 ++ l2) k <-> parsedIdentity l1 k \/ parsedIdentity l2 k.
Proof.
  unfold parsedIdentity. split.
  - intros (p & tree & Hin & Hk). apply elem_of_app in Hin as [Hin | Hin]; [left | right];
      by exists p, tree.
  - intros [(p & tree & Hin & Hk) | (p & tree & Hin & Hk)]; exists p, tree;
      (split; [apply elem_of_app; tauto | done]).
Qed.

Lemma parsedIdentity_nil k : ~ parsedIdentity [] k.
Proof. intros (p & tree & Hin & _). by apply not_elem_of_nil in Hin. Qed.

Lemma readEntry_keys subdir dirPath entry s k :
  k ∈ recKeys (fileMap (readEntry subdir dirPath entry s))
  \/ parsedIdentity (pendingSources (pending (readEntry subdir dirPath entry s))) k
  <-> k ∈ recKeys (fileMap s)
      \/ parsedIdentity (sourcesEntry dirPath entry) k
      \/ parsedIdentity (pendingSources (pending s)) k.
Proof.
  destruct entry as [n content | n d | n]; simpl.
  - destruct (isLuaFile n).
    + destruct content as [e | e | tree]; simpl.
      * split; [tauto |]. intros [H | [(p & t & Hin & _) | H]]; [tauto | | tauto].
        apply list_elem_of_singleton in Hin. by simplify_eq.
      * split; [tauto |]. intros [H | [(p & t & Hin & _) | H]]; [tauto | | tauto].
        apply list_elem_of_singleton in Hin. by simplify_eq.
      * destruct (processFile_total (pass (analyzer s))
                    (newLuaFile tree subdir (getFileIdentifier (pathJoin dirPath n))))
          as [walked ->]. simpl.
        rewrite recKeys_recSet. split.
        -- intros [[-> | H] | H]; [| tauto | tauto].
           right. left. exists (pathJoin dirPath n), tree. split; [by left | done].
        -- intros [H | [(p & t & Hin & Hk) | H]]; [tauto | | tauto].
           apply list_elem_of_singleton in Hin. simplify_eq. tauto.
    + split; [tauto |]. intros [H | [H | H]]; [tauto | | tauto].
      by apply parsedIdentity_nil in H.
  - unfold pendingSources. simpl. fold (pendingSources (pending s)).
    rewrite parsedIdentity_app. tauto.
  - split; [tauto |]. intros [H | [H | H]]; [tauto | | tauto].
    by apply parsedIdentity_nil in H.
Qed.

Lemma readEntries_keys subdir dirPath entries k :
  forall s,
    k ∈ recKeys (fileMap (fold_left (fun s entry => readEntry subdir dirPath entry s) entries s))
    \/ parsedIdentity
         (pendingSources
            (pending (fold_left (fun s entry => readEntry subdir dirPath entry s) entries s))) k
    <-> k ∈ recKeys (fileMap s)
        \/ parsedIdentity (concat (map (sourcesEntry dirPath) entries)) k
        \/ parsedIdentity (pendingSources (pending s)) k.
Proof.
  induction entries as [| entry entries IH]; intros s; simpl.
  - split; [tauto |]. intros [H | [H | H]]; [tauto | | tauto].
    by apply parsedIdentity_nil in H.
  - rewrite IH, parsedIdentity_app.
    pose proof (readEntry_keys subdir dirPath entry s k) as H. tauto.
Qed.

Lemma scanDirectory_keys subdir dirPath d s k :
  k ∈ recKeys (fileMap (scanDirectory subdir dirPath d s))
  \/ parsedIdentity (pendingSources (pending (scanDirectory subdir dirPath d s))) k
  <-> k ∈ recKeys (fileMap s)
      \/ parsedIdentity (sourcesDir dirPath d) k
      \/ parsedIdentity (pendingSources (pending s)) k.
Proof.
  destruct d as [entries scanError]. simpl.
  rewrite <- readEntries_keys. by destruct scanError.
Qed.

Lemma readDirectoryLoop_keys subdir k fuel :
  forall s rec an,
    readDirectoryLoop subdir fuel s = Some (rec, an) ->
    k ∈ recKeys rec
    <-> k ∈ recKeys (fileMap s) \/ parsedIdentity (pendingSources (pending s)) k.
Proof.
  induction fuel as [| fuel IH]; intros [pd fm an0] rec an;
    destruct pd as [| [dirPath d] rest]; simpl; intros Hr; simplify_eq.
  - split; [tauto |]. intros [H | H]; [done | by apply parsedIdentity_nil in H].
  - split; [tauto |]. intros [H | H]; [done | by apply parsedIdentity_nil in H].
  - rewrite (IH _ _ _ Hr).
    rewrite (scanDirectory_keys subdir dirPath d (mkScan rest fm an0) k). simpl.
    change (pendingSources ((dirPath, d) :: rest))
      with (sourcesDir dirPath d ++ pendingSources rest).
    rewrite parsedIdentity_app. tauto.
Qed.

Lemma readGroups_keys input subdirs :
  forall files an files' an',
    NoDup subdirs ->
    readGroups input subdirs files an = Some (files', an') ->
    forall subdir k,
      k ∈ recKeys (files' subdir)
      <-> k ∈ recKeys (files subdir)
          \/ (subdir ∈ subdirs /\ parsedIdentity (sourcesDir "" (input subdir)) k).
Proof.
  induction subdirs as [| sd rest IH]; intros files an files' an' Hnd Hr subdir k; simpl in Hr.
  - simplify_eq. split; [tauto |]. intros [H | [H _]]; [done | by apply not_elem_of_nil in H].
  - destruct (readDirectory sd (input sd) (files sd) an) as [[rec an1] |] eqn:Hd; [| done].
    apply NoDup_cons in Hnd as [Hsd Hnd].
    rewrite (IH _ _ _ _ Hnd Hr subdir k). unfold setGroup.
    case_bool_decide as Heq.
    + subst sd. rewrite (readDirectoryLoop_keys subdir k _ _ _ _ Hd). simpl.
      unfold pendingSources. simpl. rewrite app_nil_r.
      rewrite elem_of_cons. split; [| tauto].
      intros [[H | H] | [H _]]; [tauto | | done]. right. split; [by left | done].
    + rewrite elem_of_cons. split; [tauto |].
      intros [H | [[H | H] H']]; [tauto | by subst | tauto].
Qed.


(** ** Aliases *)

Lemma substring_full s : String.substring 0 (String.length s) s = s.
Proof. induction s as [| c s IH]; simpl; [done | by rewrite IH]. Qed.

Lemma indexOf_split c s i :
  Str.indexOf c s = Some i ->
  exists pre,
    s = (pre ++ String c (Str.sliceFrom (S i) s))%string
    /\ Str.indexOf c pre = None.
Proof.
  revert i. induction s as [| c' s IH]; intros i; simpl; [done |].
  destruct (Ascii.eqb c' c) eqn:E.
  - intros H. simplify_eq. apply Ascii.eqb_eq in E. subst c'. exists ""%string.
    split; [| done]. unfold Str.sliceFrom. simpl. rewrite Nat.sub_0_r.
    by rewrite substring_full.
  - destruct (Str.indexOf c s) as [j |] eqn:Hj; [| done].
    intros H. simplify_eq. destruct (IH j eq_refl) as (pre & Hs & Hpre).
    exists (String c' pre). split.
    + rewrite string_app_cons. f_equal.
      unfold Str.sliceFrom in *. simpl. exact Hs.
    + simpl. by rewrite E, Hpre.
Qed.

Lemma aliasOf_split pre0 rest k :
  Str.indexOf "/" pre0 = None ->
  aliasOf k (pre0 ++ String "/" rest)%string <-> k = rest \/ aliasOf k rest.
Proof.
  intros Hno. unfold aliasOf. split.
  - intros [pre H]. change ("/" ++ k)%string with (String "/" k) in H.
    revert pre H. induction pre0 as [| c0 p0 IH]; intros pre H.
    + rewrite string_app_nil in H. destruct pre as [| c pre].
      * rewrite string_app_nil in H. left. by simplify_eq.
      * rewrite string_app_cons in H. simplify_eq. right. by exists pre.
    + simpl in Hno. destruct (Ascii.eqb c0 "/") eqn:E; [done |].
      destruct (Str.indexOf "/" p0) eqn:Hp0; [done |].
      rewrite string_app_cons in H. destruct pre as [| c pre].
      * rewrite string_app_nil in H. by simplify_eq.
      * rewrite string_app_cons in H. simplify_eq. by apply (IH eq_refl pre).
  - intros [-> | [pre ->]].
    + by exists pre0.
    + exists (pre0 ++ "/" ++ pre)%string.
      by rewrite !string_app_assoc.
Qed.

Lemma aliasOf_no_slash k s : Str.indexOf "/" s = None -> ~ aliasOf k s.
Proof. intros H [pre ->]. by apply (indexOf_app_here "/"%char pre k) in H. Qed.

Lemma tableAdd_elem key value (table : gmap string (list string)) k n :
  n ∈ default [] (tableAdd key value table !! k)
  <-> n ∈ default [] (table !! k) \/ (k = key /\ n = value).
Proof.
  unfold tableAdd. destruct (decide (key = k)) as [-> | Hne].
  - rewrite lookup_insert_eq. simpl. rewrite setAdd_elem. tauto.
  - rewrite lookup_insert_ne by done. split; [tauto |]. intros [H | [? _]]; [done | by subst].
Qed.

Lemma sliceFrom_length i s :
  i < String.length s -> String.length (Str.sliceFrom (S i) s) < String.length s.
Proof.
  intros Hi. unfold Str.sliceFrom.
  assert (H : forall n m t, String.length (String.substring n m t) <= m).
  { intros n m t. revert n m. induction t as [| c t IHt]; intros n m; simpl.
    - destruct n, m; simpl; lia.
    - destruct n as [| n]; [destruct m as [| m]; simpl; [lia |] | apply IHt].
      specialize (IHt 0 m). lia. }
  specialize (H (S i) (String.length s - S i) s). lia.
Qed.

Lemma indexOf_lt c s i : Str.indexOf c s = Some i -> i < String.length s.
Proof.
  revert i. induction s as [| c' s IH]; intros i; simpl; [done |].
  destruct (Ascii.eqb c' c); [intros H; simplify_eq; lia |].
  destruct (Str.indexOf c s) as [j |]; [| done].
  intros H. simplify_eq. specialize (IH j eq_refl). lia.
Qed.

Lemma addAliases_elem name fuel :
  forall partialName aliases k n,
    String.length partialName <= fuel ->
    n ∈ default [] (addAliases fuel name partialName aliases !! k)
    <-> n ∈ default [] (aliases !! k) \/ (n = name /\ aliasOf k partialName).
Proof.
  induction fuel as [| fuel IH]; intros partialName aliases k n Hfuel.
  - destruct partialName; [| simpl in Hfuel; lia]. simpl.
    split; [tauto |]. intros [H | [_ H]]; [done |]. by apply aliasOf_no_slash in H.
  - simpl. destruct (Str.indexOf "/" partialName) as [slash |] eqn:Hidx.
    + destruct (indexOf_split _ _ _ Hidx) as (pre0 & Hs & Hpre0).
      pose proof (indexOf_lt _ _ _ Hidx) as Hlt.
      pose proof (sliceFrom_length _ _ Hlt) as Hshort.
      set (rest := Str.sliceFrom (S slash) partialName) in *.
      rewrite IH by lia. rewrite tableAdd_elem.
      assert (Ha : aliasOf k partialName <-> k = rest \/ aliasOf k rest).
      { clearbody rest. subst partialName. by apply aliasOf_split. }
      rewrite Ha.
      split; [| tauto]. intros [[H | [-> ->]] | [-> H]]; tauto.
    + split; [tauto |]. intros [H | [_ H]]; [done |]. by apply aliasOf_no_slash in H.
Qed.

Lemma addAliases_nonempty name fuel :
  forall partialName (aliases : gmap string (list string)),
    (forall k s, aliases !! k = Some s -> s <> []) ->
    forall k s, addAliases fuel name partialName aliases !! k = Some s -> s <> [].
Proof.
  induction fuel as [| fuel IH]; intros partialName aliases Hne k s; simpl; [apply Hne |].
  destruct (Str.indexOf "/" partialName) as [slash |]; [| apply Hne].
  apply IH. intros k' s'. unfold tableAdd.
  destruct (decide (Str.sliceFrom (S slash) partialName = k')) as [<- | Hk].
  - rewrite lookup_insert_eq. intros H. simplify_eq.
    intros Hnil. pose proof (setAdd_here name (default [] (aliases !! Str.sliceFrom (S slash) partialName))) as Hin.
    rewrite Hnil in Hin. by apply not_elem_of_nil in Hin.
  - rewrite lookup_insert_ne by done. apply Hne.
Qed.

Lemma readAllFiles_aliasesOk input files an :
  readAllFiles input = Some (files, an) -> aliasTableOk files an.
Proof.
  apply (readGroups_invariant aliasTableOk).
  - intros fs fs' a Hext [Hk Hne]. split; [| done].
    intros k n. rewrite (Hk k n).
    assert (Hg : getFile fs n = getFile fs' n).
    { unfold getFile. simpl. by rewrite !Hext. }
    by rewrite Hg.
  - intros fs a d H. exact H.
  - intros fs a subdir dirPath n tree walked Hlua Hw [Hk Hne].
    set (key := getFileIdentifier (pathJoin dirPath n)) in *.
    split.
    + intros k m. simpl. rewrite addAliases_elem by done. rewrite (Hk k m).
      assert (Hg : is_Some (getFile (setGroup subdir (recSet key (cleanup walked) (fs subdir)) fs) m)
                   <-> m = key \/ is_Some (getFile fs m)).
      { rewrite !getFile_is_Some. split.
        - intros [sd H]. rewrite setGroup_same in H. case_bool_decide as Hsd; [subst sd |].
          + destruct (decide (key = m)) as [<- | Hm]; [by left |].
            rewrite recGet_recSet_ne in H by done. right. by exists subdir.
          + right. by exists sd.
        - intros [-> | [sd H]].
          + exists subdir. rewrite setGroup_same, bool_decide_true by done.
            rewrite recGet_recSet_eq. eauto.
          + exists sd. rewrite setGroup_same. case_bool_decide as Hsd; [subst sd |]; [| done].
            destruct (decide (key = m)) as [<- | Hm].
            * rewrite recGet_recSet_eq. eauto.
            * by rewrite recGet_recSet_ne. }
      rewrite Hg. split.
      * intros [H | [-> H]]; tauto.
      * intros [[-> | H] H']; tauto.
    + simpl. apply addAliases_nonempty. exact Hne.
  - split.
    + intros k n. simpl. rewrite lookup_empty. simpl. split.
      * intros H. by apply not_elem_of_nil in H.
      * intros [[file H] _]. done.
    + intros k s H. simpl in H. by rewrite lookup_empty in H.
Qed.


(** ** Loose dependencies in the order *)

Section OrderingLoose.

Variables (files : Files) (aliases looseDeps : gmap string (list string)).

Hypothesis aliasesOk :
  forall alias aliasSet target,
    aliases !! alias = Some aliasSet -> target ∈ aliasSet -> is_Some (getFile files target).
Hypothesis keysOk : forall n, is_Some (getFile files n) -> n <> "".
Hypothesis noCycle : forall a, ~ tc (anyEdge files aliases looseDeps) a a.

#[local] Abbreviation A := (anyEdge files aliases looseDeps).
#[local] Abbreviation stepOf := (orderStep files aliases looseDeps).
#[local] Abbreviation loopOf := (orderLoop files aliases looseDeps).

Lemma pendingLoose_edge key seen order d :
  is_Some (getFile files key) ->
  d ∈ pendingLoose files aliases seen order (default [] (looseDeps !! key)) ->
  looseEdge files aliases looseDeps key d.
Proof.
  intros Hkey. unfold pendingLoose. rewrite list_elem_of_omap.
  intros (dep & Hin & H).
  destruct (getDependencyIdentifier files aliases dep) as [d' |] eqn:Hd; [| done].
  destruct ((negb (truthy d') || setHas d' seen) || setHas d' order); [done |].
  simplify_eq. split; [done |]. by exists dep.
Qed.

Lemma pendingLoose_nil key seen order b :
  pendingLoose files aliases seen order (default [] (looseDeps !! key)) = [] ->
  looseEdge files aliases looseDeps key b ->
  b ∈ seen \/ b ∈ order.
Proof.
  intros Hnil (_ & dep & Hin & Hd).
  destruct (decide (b ∈ seen)) as [? | Hs]; [by left |].
  destruct (decide (b ∈ order)) as [? | Ho]; [by right |].
  exfalso.
  assert (Hp : b ∈ pendingLoose files aliases seen order (default [] (looseDeps !! key))).
  { unfold pendingLoose. rewrite list_elem_of_omap. exists dep. split; [done |].
    rewrite Hd.
    rewrite truthy_true by (eapply keysOk, resolved_known; eauto).
    apply setHas_false in Hs, Ho. by rewrite Hs, Ho. }
  rewrite Hnil in Hp. by apply not_elem_of_nil in Hp.
Qed.

Lemma depsToAdd_edge seen order key file d :
  getFile files key = Some file ->
  d ∈ pendingHard files aliases order file
      ++ pendingLoose files aliases seen order (default [] (looseDeps !! key)) ->
  A key d.
Proof.
  intros Hfile. rewrite elem_of_app. intros [H | H].
  - left. apply (pendingHard_elem files aliases aliasesOk keysOk) in H as (dep & Hin & Hd & _).
    by exists file, dep.
  - right. apply pendingLoose_edge in H; [done | by rewrite Hfile].
Qed.

(** A name still waiting behind the head of the deque reaches it. *)
Lemma waiting_behind o key rest k :
  waiting files aliases looseDeps o -> deque o = key :: rest ->
  k ∈ seen o -> k ∉ analysisOrder o -> is_Some (getFile files k) -> k <> key ->
  exists d1 d2, rest = d1 ++ k :: d2 /\ tc A k key /\ forall d, d ∈ d1 -> tc A k d.
Proof.
  intros Hw Hdq Hs Ho Hf Hne.
  destruct (Hw k Hs Ho Hf) as (d1 & d2 & Heq & Hreach). rewrite Hdq in Heq.
  destruct d1 as [| x d1]; simpl in Heq; [by simplify_eq |].
  simplify_eq. exists d1, d2. split; [done |]. split.
  - apply Hreach. by left.
  - intros d Hd. apply Hreach. by right.
Qed.

Lemma waiting_advance o key rest ks dq order' :
  waiting files aliases looseDeps o -> deque o = key :: rest ->
  advance (keys o) rest = (ks, dq) ->
  (forall k, k ∈ analysisOrder o -> k ∈ order') ->
  key ∈ order' \/ getFile files key = None ->
  waiting files aliases looseDeps (mkOrdering ks dq (setAdd key (seen o)) order').
Proof.
  intros Hw Hdq Ha Hmono Hkey k Hs Ho Hf. simpl in *.
  assert (Hne : k <> key).
  { intros ->. destruct Hkey as [? | Hnone]; [done |]. rewrite Hnone in Hf.
    by destruct Hf. }
  apply setAdd_elem in Hs as [? | Hs]; [done |].
  assert (Ho' : k ∉ analysisOrder o) by (intros ?; apply Ho; auto).
  destruct (waiting_behind o key rest k Hw Hdq Hs Ho' Hf Hne) as (d1 & d2 & -> & _ & Hreach).
  destruct (advance_cases (keys o) (d1 ++ k :: d2)) as [[_ H] | (nk & ks' & _ & H)];
    rewrite H in Ha; simplify_eq.
  - by exists d1, d2.
  - destruct (truthy nk).
    + exists d1, (d2 ++ [nk]). split; [by rewrite <- app_assoc | done].
    + by exists d1, d2.
Qed.

Lemma waiting_step o key rest :
  waiting files aliases looseDeps o -> deque o = key :: rest ->
  waiting files aliases looseDeps (stepOf key rest o).
Proof.
  intros Hw Hdq. unfold orderStep.
  destruct (setHas key (analysisOrder o)) eqn:Hord.
  - apply setHas_true in Hord.
    destruct (advance (keys o) rest) as [ks dq] eqn:Ha.
    eapply waiting_advance; eauto.
  - apply setHas_false in Hord.
    destruct (getFile files key) as [file |] eqn:Hfile.
    + destruct (pendingHard _ _ _ _ ++ pendingLoose _ _ _ _ _) as [| d deps] eqn:Hdeps.
      * destruct (advance (keys o) rest) as [ks dq] eqn:Ha.
        eapply waiting_advance; eauto.
        -- intros k Hk. by apply setAdd_mono.
        -- left. apply setAdd_here.
      * intros k Hs Ho Hf. simpl in *.
        assert (Hedge : forall x, x ∈ d :: deps -> A key x).
        { intros x Hx. rewrite <- Hdeps in Hx. by eapply depsToAdd_edge. }
        destruct (decide (k = key)) as [-> | Hne].
        -- exists (d :: deps), rest. split; [done |].
           intros x Hx. by apply tc_once, Hedge.
        -- apply setAdd_elem in Hs as [? | Hs]; [done |].
           destruct (waiting_behind o key rest k Hw Hdq Hs Ho Hf Hne)
             as (d1 & d2 & -> & Hkey & Hreach).
           exists ((d :: deps) ++ key :: d1), d2. split; [by rewrite <- app_assoc |].
           intros x Hx. apply elem_of_app in Hx as [Hx | Hx].
           ++ eapply tc_r; [exact Hkey | by apply Hedge].
           ++ apply elem_of_cons in Hx as [-> | Hx]; [done | by apply Hreach].
    + destruct (advance (keys o) rest) as [ks dq] eqn:Ha.
      eapply waiting_advance; eauto.
Qed.

Lemma looseOrdered_step o key rest :
  waiting files aliases looseDeps o -> deque o = key :: rest ->
  looseOrdered files aliases looseDeps (analysisOrder o) ->
  looseOrdered files aliases looseDeps (analysisOrder (stepOf key rest o)).
Proof.
  intros Hw Hdq Hlo. unfold orderStep.
  destruct (setHas key (analysisOrder o)) eqn:Hord.
  - by destruct (advance (keys o) rest).
  - apply setHas_false in Hord.
    destruct (getFile files key) as [file |] eqn:Hfile; [| by destruct (advance (keys o) rest)].
    destruct (pendingHard _ _ _ _ ++ pendingLoose _ _ _ _ _) as [| d deps] eqn:Hdeps; [| done].
    destruct (advance (keys o) rest) as [ks dq]. simpl. rewrite setAdd_new by done.
    apply app_eq_nil in Hdeps as [_ Hloose].
    intros l1 a l2 Heq b Hab.
    destruct l2 as [| x l2 _] using rev_ind.
    + apply app_inj_tail in Heq as [<- <-].
      destruct (pendingLoose_nil _ _ _ b Hloose Hab) as [Hs | Ho]; [| done].
      destruct (decide (b ∈ analysisOrder o)) as [? | Hno]; [done |]. exfalso.
      assert (Hb : is_Some (getFile files b)).
      { destruct Hab as (_ & dep & _ & Hd). by eapply resolved_known. }
      assert (Hne : b <> key).
      { intros ->. apply (noCycle key). apply tc_once. by right. }
      apply setAdd_elem in Hs as [? | Hs]; [done |].
      destruct (waiting_behind o key rest b Hw Hdq Hs Hno Hb Hne) as (_ & _ & _ & Hreach & _).
      apply (noCycle key). eapply tc_l; [right; exact Hab | exact Hreach].
    + rewrite app_comm_cons, app_assoc in Heq.
      apply app_inj_tail in Heq as [Heq _].
      by apply (Hlo l1 a l2).
Qed.

Lemma orderLoop_loose fuel :
  forall o o',
    waiting files aliases looseDeps o ->
    looseOrdered files aliases looseDeps (analysisOrder o) ->
    loopOf fuel o = Some o' ->
    looseOrdered files aliases looseDeps (analysisOrder o')
    /\ settled files (seen o') (analysisOrder o').
Proof.
  induction fuel as [| fuel IH]; intros o o' Hw Hlo Hloop; simpl in Hloop;
    destruct (deque o) as [| key rest] eqn:Hdq; simplify_eq.
  - split; [done |]. intros k Hs Hf.
    destruct (decide (k ∈ analysisOrder o')) as [? | Hno]; [done |].
    destruct (Hw k Hs Hno Hf) as (d1 & d2 & Heq & _). rewrite Hdq in Heq.
    by destruct d1.
  - split; [done |]. intros k Hs Hf.
    destruct (decide (k ∈ analysisOrder o')) as [? | Hno]; [done |].
    destruct (Hw k Hs Hno Hf) as (d1 & d2 & Heq & _). rewrite Hdq in Heq.
    by destruct d1.
  - apply (IH (stepOf key rest o)); [by apply waiting_step | by apply looseOrdered_step | done].
Qed.

Lemma orderGroup_loose fuel subdir seen order seen' order' :
  settled files seen order ->
  looseOrdered files aliases looseDeps order ->
  orderGroup files aliases looseDeps fuel subdir (seen, order) = Some (seen', order') ->
  looseOrdered files aliases looseDeps order' /\ settled files seen' order'.
Proof.
  intros Hset Hlo. unfold orderGroup.
  destruct (rev (sortKeys (recKeys (files subdir)))) as [| first ks]; simpl.
  - intros H. by simplify_eq.
  - destruct (orderLoop _ _ _ _ _) as [o' |] eqn:Hloop; [| done].
    intros H. simplify_eq.
    apply (orderLoop_loose fuel (mkOrdering ks [first] seen order) o'); [| done | done].
    intros k Hs Ho Hf. simpl in *. exfalso. apply Ho. by apply Hset.
Qed.

Lemma orderGroups_loose fuel subdirs :
  forall seen order seen' order',
    settled files seen order ->
    looseOrdered files aliases looseDeps order ->
    orderGroups files aliases looseDeps fuel subdirs (seen, order) = Some (seen', order') ->
    looseOrdered files aliases looseDeps order'.
Proof.
  induction subdirs as [| subdir rest IH]; intros seen order seen' order' Hset Hlo H; simpl in H.
  - by simplify_eq.
  - destruct (orderGroup _ _ _ _ _ _) as [[seen1 order1] |] eqn:Hg; [| done].
    destruct (orderGroup_loose _ _ _ _ _ _ Hset Hlo Hg) as [H1 H2].
    exact (IH _ _ _ _ H2 H1 H).
Qed.

End OrderingLoose.

Lemma looseEdge_clear files aliases looseDeps a b :
  looseEdge (clearGlobalDependencies files) aliases looseDeps a b
  <-> looseEdge files aliases looseDeps a b.
Proof.
  unfold looseEdge. rewrite getFile_clear.
  assert (Hs : is_Some (withGlobalDependencies [] <$> getFile files a)
               <-> is_Some (getFile files a)) by (by rewrite fmap_is_Some).
  rewrite Hs. split; intros (Hf & dep & Hin & Hd); (split; [done |]); exists dep;
    (split; [done |]).
  - by rewrite getDependencyIdentifier_clear in Hd.
  - by rewrite getDependencyIdentifier_clear.
Qed.

Lemma anyEdge_clear files aliases looseDeps a b :
  anyEdge (clearGlobalDependencies files) aliases looseDeps a b
  <-> anyEdge files aliases looseDeps a b.
Proof. unfold anyEdge. by rewrite hardEdge_clear, looseEdge_clear. Qed.

Lemma orderFiles_names fuel files an out :
  tablesOk files an ->
  orderFiles fuel files an = Some out ->
  exists seen,
    orderGroups (clearGlobalDependencies files) (fileAliases an)
      (computeLooseDeps (globalSetters an) files) fuel gameFileDirectories ([], [])
    = Some (seen, map name out).
Proof.
  intros Hok. unfold orderFiles.
  set (cleared := clearGlobalDependencies files).
  set (loose := computeLooseDeps (globalSetters an) files).
  destruct (orderGroups cleared (fileAliases an) loose fuel gameFileDirectories ([], []))
    as [[seen order] |] eqn:Hgroups; [| done].
  intros H. simplify_eq. exists seen. f_equal. f_equal. symmetry.
  destruct (orderGroups_establishes cleared (fileAliases an) loose
              (tablesOk_aliases _ _ Hok) (tablesOk_keys _ _ Hok)
              fuel gameFileDirectories [] [] seen order
              (ordered_nil _ _) Hgroups) as ((Hnd & Hsub & Hdeps) & _ & Hall).
  apply collect_names. intros k Hk. apply Hsub in Hk.
  unfold cleared in Hk. rewrite allKeys_clear in Hk.
  apply known_allKeys in Hk as [g Hg].
  exists (withGlobalDependencies [] g). unfold cleared. rewrite getFile_clear, Hg.
  split; [done |]. simpl. by eapply tablesOk_name.
Qed.


Lemma looseChain_read :
  readAllFiles Sample.looseChain = Some ((tablesOf Sample.looseChain).1, (tablesOf Sample.looseChain).2).
Proof. vm_compute. reflexivity. Qed.

Lemma looseChain_keys k :
  is_Some (getFile (tablesOf Sample.looseChain).1 k) -> k = "a" \/ k = "b" \/ k = "c".
Proof.
  rewrite known_allKeys.
  assert (H : allKeys (tablesOf Sample.looseChain).1 = ["a"; "b"; "c"]) by (vm_compute; reflexivity).
  rewrite H, !elem_of_cons, elem_of_nil. tauto.
Qed.

Lemma looseChain_edge a b :
  anyEdge (tablesOf Sample.looseChain).1 (fileAliases (tablesOf Sample.looseChain).2)
    (computeLooseDeps (globalSetters (tablesOf Sample.looseChain).2) (tablesOf Sample.looseChain).1) a b ->
  Sample.chainRank b < Sample.chainRank a.
Proof.
  intros [(file & dep & Hf & Hdep & Hb) | (Hf & dep & Hdep & Hb)].
  - destruct (looseChain_keys a (mk_is_Some _ _ Hf)) as [-> | [-> | ->]];
      vm_compute in Hf; simplify_eq; vm_compute in Hdep;
      repeat (apply elem_of_cons in Hdep as [-> | Hdep]); try (by apply elem_of_nil in Hdep);
      vm_compute in Hb; simplify_eq; vm_compute; lia.
  - destruct (looseChain_keys a Hf) as [-> | [-> | ->]];
      vm_compute in Hdep;
      repeat (apply elem_of_cons in Hdep as [-> | Hdep]); try (by apply elem_of_nil in Hdep);
      vm_compute in Hb; simplify_eq; vm_compute; lia.
Qed.

Lemma looseChain_acyclic a :
  ~ tc (anyEdge (tablesOf Sample.looseChain).1 (fileAliases (tablesOf Sample.looseChain).2)
          (computeLooseDeps (globalSetters (tablesOf Sample.looseChain).2) (tablesOf Sample.looseChain).1))
       a a.
Proof.
  assert (H : forall x y,
             tc (anyEdge (tablesOf Sample.looseChain).1 (fileAliases (tablesOf Sample.looseChain).2)
                   (computeLooseDeps (globalSetters (tablesOf Sample.looseChain).2)
                      (tablesOf Sample.looseChain).1)) x y ->
             Sample.chainRank y < Sample.chainRank x).
  { induction 1 as [x y H | x y z H _ IH].
    - by apply looseChain_edge.
    - apply looseChain_edge in H. lia. }
  intros Hc. apply H in Hc. lia.
Qed.

